(** * Ren'Py display core: layout containers, time-based effects,
      state-machine animations and the [ui] widget stack.

    A shallow embedding of [renpy/display/layout.py], [renpy/display/anim.py]
    and [renpy/ui.py].  Python objects with mutable fields become records that
    are passed through every method; a method that can raise returns the
    state it leaves behind together with an [outcome].  Times (Python floats)
    are taken in [Q].  Machine floats round, rationals do not: a theorem
    whose statement depends on the exact result of float additions,
    subtractions or remainders is stated for times and delays that are
    multiples of a power of two within the range where those operations
    are exact ([Notions.ticks]).  Pixel quantities are in [Z]. *)

From Stdlib Require Import ZArith QArith Qround Lia Lqa Sorted.
From stdpp Require Import base option list gmap strings fin_maps.

Local Open Scope Z_scope.

(** ** Python values shared by the three modules *)

Module Py.

Inductive exn : Type :=
| Exception (msg : string)
| AttributeError (attr : string)
| KeyError
| IndexError
| NameError (name : string)
| TypeError
| ValueError
| ZeroDivisionError.

Inductive outcome (A : Type) : Type :=
| Return (a : A)
| Raise (e : exn).
Arguments Return {A} a.
Arguments Raise {A} e.

Definition raised {A} (o : outcome A) : bool :=
  match o with Raise _ => true | Return _ => false end.

(** [l.pop()]: the last element and the list without it. *)
Fixpoint pop {A} (l : list A) : option (list A * A) :=
  match l with
  | [] => None
  | x :: l' =>
      match pop l' with
      | None => Some ([], x)
      | Some (r, y) => Some (x :: r, y)
      end
  end.

(** [range(0, n)] as the list of its values; empty when [n <= 0]. *)
Definition range (n : Z) : list Z := Z.of_nat <$> seq 0 (Z.to_nat n).

(** [l[i]] for a non-negative index that the callers keep in range. *)
Definition index {A} (l : list A) (i : Z) : option A :=
  if Z.ltb i 0 then None else l !! Z.to_nat i.

(** [l[i] = x] for a non-negative index; [None] stands for IndexError. *)
Definition setitem {A} (l : list A) (i : Z) (x : A) : option (list A) :=
  if Z.ltb i 0 then None
  else if Nat.ltb (Z.to_nat i) (length l) then Some (<[Z.to_nat i := x]> l)
  else None.

(** Truth value of a number: zero is false. *)
Definition truthyQ (q : Q) : bool := negb (Qeq_bool q 0).

(** [x % y] on floats: the result has the sign of [y]. *)
Definition fmod (x y : Q) : option Q :=
  if Qeq_bool y 0 then None
  else Some (x - y * inject_Z (Qfloor (x / y)))%Q.

(** [x / y] on floats. *)
Definition fdiv (x y : Q) : option Q :=
  if Qeq_bool y 0 then None else Some (x / y)%Q.

Definition Qltb (x y : Q) : bool :=
  match Qlt_le_dec x y with left _ => true | right _ => false end.
Definition Qleb (x y : Q) : bool :=
  match Qlt_le_dec y x with left _ => false | right _ => true end.

#[export] Instance Q_eq_dec : EqDecision Q.
Proof. solve_decision. Defined.

(** [min(x, y)]: the first argument unless the second is smaller. *)
Definition fmin (x y : Q) : Q := if Qltb y x then y else x.

(** [int(x)] on a float: the fraction is dropped, towards zero. *)
Definition trunc (q : Q) : Z := Z.quot (Qnum q) (Z.pos (Qden q)).

(** [l[0::2]]: every other entry, from the first on. *)
Fixpoint stride2 {A} (l : list A) : list A :=
  match l with
  | [] => []
  | [x] => [x]
  | x :: _ :: l' => x :: stride2 l'
  end.

End Py.

Import Py.

(** ** renpy/ui.py: the stack of current widgets *)

Module Ui.

(** What [ui.current] holds: a layer name (a [str]) or a widget.  Widgets
    are objects; they are named by their identity. *)
Inductive target : Type :=
| Layer (name : string)
| Widget (w : nat).

Definition is_str (t : target) : bool :=
  match t with Layer _ => true | Widget _ => false end.

(** The module globals, plus the effects on objects outside the module:
    [added] records, in order, every [scene_lists.add(current, w)] and
    [current.add(w)]; [cleared] records every [w.children[:] = []]. *)
Record state : Type := mkState {
  current : target;
  current_stack : list target;
  current_once : bool;
  added : list (target * nat);
  cleared : list nat
}.

Definition initial : state :=
  {| current := Layer "transient"; current_stack := []; current_once := false;
     added := []; cleared := [] |}.

Definition msg_last : string :=
  "ui.close() called to close the last open layer or widget.".
Definition msg_expecting : string :=
  "ui.close() called when expecting a widget.".
Definition msg_layer_open : string :=
  "Opening a layer while a widget is open is not allowed.".
Definition msg_interact : string :=
  "ui.interact called with non-empty widget/layer stack. Did you forget a ui.close() somewhere?".

Definition close (s : state) : state * outcome unit :=
  match pop (current_stack s) with
  | None => (s, Raise (Exception msg_last))
  | Some (rest, top) =>
      if current_once s then (s, Raise (Exception msg_expecting))
      else ({| current := top; current_stack := rest;
               current_once := current_once s;
               added := added s; cleared := cleared s |}, Return tt)
  end.

Definition add (w : nat) (make_current once : bool) (s : state)
  : state * outcome nat :=
  (* both branches of the isinstance test add w to the current target *)
  let s1 := {| current := current s; current_stack := current_stack s;
               current_once := current_once s;
               added := added s ++ [(current s, w)]; cleared := cleared s |} in
  let after_once :=
    if current_once s1 then
      close {| current := current s1; current_stack := current_stack s1;
               current_once := false;
               added := added s1; cleared := cleared s1 |}
    else (s1, Return tt) in
  match after_once with
  | (s2, Raise e) => (s2, Raise e)
  | (s2, Return _) =>
      let s3 := {| current := current s2; current_stack := current_stack s2;
                   current_once := once;
                   added := added s2; cleared := cleared s2 |} in
      if make_current then
        ({| current := Widget w;
            current_stack := current_stack s3 ++ [current s3];
            current_once := current_once s3;
            added := added s3; cleared := cleared s3 |}, Return w)
      else (s3, Return w)
  end.

(** [layers] and [top_layers] are [renpy.config.layers] and
    [renpy.config.top_layers]. *)
Definition layer (layers top_layers : list string) (name : string) (s : state)
  : state * outcome unit :=
  if negb (is_str (current s)) then (s, Raise (Exception msg_layer_open))
  else if negb (bool_decide (name ∈ layers)) && negb (bool_decide (name ∈ top_layers))
  then (s, Raise (Exception ("'" +:+ name +:+ "' is not a known layer.")))
  else ({| current := Layer name;
           current_stack := current_stack s ++ [current s];
           current_once := false;
           added := added s; cleared := cleared s |}, Return tt).

Definition reopen (w : nat) (clear : bool) (s : state) : state :=
  {| current := Widget w;
     current_stack := current_stack s ++ [current s];
     current_once := current_once s;
     added := added s;
     cleared := if clear then cleared s ++ [w] else cleared s |}.

(** The guard of [ui.interact]; the interaction itself is outside. *)
Definition interact_guard (s : state) : outcome unit :=
  match current_stack s with
  | [] => Return tt
  | _ :: _ => Raise (Exception msg_interact)
  end.

(** The single-use openers: [ui.window], [ui.button], [ui.sizer] all end in
    [add(widget, True, True)]. *)
Definition window (w : nat) (s : state) := add w true true s.
Definition sizer (w : nat) (s : state) := add w true true s.
Definition button (w : nat) (s : state) := add w true true s.

(** [add(w)] for each of the widgets in turn, stopping at the first
    exception. *)
Definition add_each (ws : list nat) (s : state) : state * outcome unit :=
  foldl (λ acc w,
           match acc with
           | (s, Raise e) => (s, Raise e)
           | (s, Return _) =>
               match add w false false s with
               | (s', Raise e) => (s', Raise e)
               | (s', Return _) => (s', Return tt)
               end
           end) (s, Return tt) ws.

(** [ui.menu(menuitems)]: a vbox is opened, every item adds one widget (a
    text for a caption, a textbutton for a choice; both are [add(w)]), and
    the vbox is closed.  [vbox] and [items] are the widgets made on the
    way. *)
Definition menu (vbox : nat) (items : list nat) (s : state) : state * outcome unit :=
  match add vbox true false s with
  | (s1, Raise e) => (s1, Raise e)
  | (s1, Return _) =>
      match add_each items s1 with
      | (s2, Raise e) => (s2, Raise e)
      | (s2, Return _) => close s2
      end
  end.

(** [ui.imagemap(ground, selected, hotspots)]: a fixed is opened, the ground
    image and one imagebutton for each hotspot are added, and the fixed is
    closed; the fixed is the value returned. *)
Definition imagemap (rv ground : nat) (buttons : list nat) (s : state)
  : state * outcome nat :=
  match add rv true false s with
  | (s1, Raise e) => (s1, Raise e)
  | (s1, Return _) =>
      match add_each (ground :: buttons) s1 with
      | (s2, Raise e) => (s2, Raise e)
      | (s2, Return _) =>
          match close s2 with
          | (s3, Raise e) => (s3, Raise e)
          | (s3, Return _) => (s3, Return rv)
          end
      end
  end.

End Ui.

(** ** renpy/display/layout.py *)

Module Layout.

(** The part of the [Displayable] interface the containers call on their
    children.  [render d w h st at] is [renpy.display.render.render]; its
    result is [None] when the surface is false in a boolean test.
    [place d x y w h surf] is the offset that [d.place(rv, x, y, w, h, surf)]
    returns; the call also blits [surf] into [rv] at that offset. *)
Class Displayable (D S : Type) : Type := {
  render : D → Z → Z → Q → Q → option S;
  get_size : S → Z * Z;
  place : D → Z → Z → Z → Z → S → Z * Z
}.

(** A freshly made [Render(w, h)] and what has been blitted into it. *)
Record Render (S : Type) : Type := mkRender {
  r_size : Z * Z;
  r_blits : list (S * (Z * Z))
}.
Arguments mkRender {S} r_size r_blits.
Arguments r_size {S} r.
Arguments r_blits {S} r.

Definition blit {S} (rv : Render S) (surf : S) (off : Z * Z) : Render S :=
  mkRender (r_size rv) (r_blits rv ++ [(surf, off)]).

(** [child.place(rv, x, y, w, h, surf)]: the new [rv] and the offset. *)
Definition do_place {D S} `{Displayable D S}
    (rv : Render S) (child : D) (x y w h : Z) (surf : S)
  : Render S * (Z * Z) :=
  let off := place child x y w h surf in (blit rv surf off, off).

Section Containers.
Context {D S : Type} `{Displayable D S}.

(** *** Container *)

(** [offsets] and [sizes] are created by the first [render]; before it
    they are shown as empty lists. *)
Record Container : Type := mkContainer {
  children : list D;
  child : option D;
  offsets : list (Z * Z);
  sizes : list (Z * Z)
}.

Definition Container_init : Container :=
  {| children := []; child := None; offsets := []; sizes := [] |}.

Definition Container_add (c : Container) (w : option D) : Container :=
  match w with
  | None => c
  | Some d =>
      {| children := children c ++ [d]; child := Some d;
         offsets := offsets c; sizes := sizes c |}
  end.

Definition Container_new (args : list (option D)) : Container :=
  foldl Container_add Container_init args.

(** Rendering [None], or asking [None] for its size, is an
    AttributeError. *)
Definition render_child (d : option D) (w h : Z) (st at_ : Q) : outcome S :=
  match d with
  | None => Raise (AttributeError "render")
  | Some d =>
      match render d w h st at_ with
      | None => Raise (AttributeError "get_size")
      | Some s => Return s
      end
  end.

Definition Container_render (c : Container) (width height : Z) (st at_ : Q)
  : Container * outcome S :=
  match child c with
  | None => (c, Raise (AttributeError "render"))
  | Some d =>
      match render d width height st at_ with
      | None =>
          (* self.offsets is assigned before rv.get_size() fails *)
          ({| children := children c; child := child c;
              offsets := [ (0, 0) ]; sizes := sizes c |},
           Raise (AttributeError "get_size"))
      | Some rv =>
          ({| children := children c; child := child c;
              offsets := [ (0, 0) ]; sizes := [ get_size rv ] |}, Return rv)
      end
  end.

(** *** Position *)

Definition Position_new (d : option D) : Container :=
  Container_add Container_init d.

Definition Position_render (c : Container) (width height : Z) (st at_ : Q)
  : Container * outcome S :=
  match render_child (child c) width height st at_ with
  | Raise e => (c, Raise e)
  | Return surf =>
      let '(cw, ch) := get_size surf in
      ({| children := children c; child := child c;
          offsets := [ (0, 0) ]; sizes := [ (cw, ch) ] |}, Return surf)
  end.

(** *** Fixed *)

Record Fixed : Type := mkFixed {
  f_base : Container;
  start_times : list (option Q);
  anim_times : list (option Q)
}.

Definition Fixed_init : Fixed :=
  {| f_base := Container_init; start_times := []; anim_times := [] |}.

Definition Fixed_add (f : Fixed) (widget : option D)
    (start_time anim_time : option Q) : Fixed :=
  {| f_base := Container_add (f_base f) widget;
     start_times := start_times f ++ [start_time];
     anim_times := anim_times f ++ [anim_time] |}.

(** [i or it]: [None] and zero give [it]. *)
Definition or_time (it : Q) (i : option Q) : Q :=
  match i with
  | Some q => if truthyQ q then q else it
  | None => it
  end.

(** One turn of the loop of [Fixed.render]. *)
Definition Fixed_step (t : Q) (width height : Z)
    (acc : list (Z * Z) * list (Z * Z) * Render S)
    (item : D * (Q * Q)) : list (Z * Z) * list (Z * Z) * Render S :=
  let '(offs, szs, rv) := acc in
  let '(child, (start, anim)) := item in
  let cst := (t - start)%Q in
  let cat := (t - anim)%Q in
  match render child width height cst cat with
  | Some surf =>
      let szs' := szs ++ [get_size surf] in
      let '(rv', offset) := do_place rv child 0 0 width height surf in
      (offs ++ [offset], szs', rv')
  | None => (offs ++ [(0, 0)], szs ++ [(0, 0)], rv)
  end.

(** [frame_time] and [interact_time] are the two fields read from
    [renpy.game.interface]. *)
Definition Fixed_render (frame_time interact_time : Q)
    (f : Fixed) (width height : Z) (st at_ : Q) : Fixed * Render S :=
  let rv := mkRender (width, height) [] in
  let t := frame_time in
  let it := interact_time in
  let starts := or_time it <$> start_times f in
  let anims := or_time it <$> anim_times f in
  let '(offs, szs, rv') :=
    foldl (Fixed_step t width height) ([], [], rv)
          (zip (children (f_base f)) (zip starts anims)) in
  ({| f_base := {| children := children (f_base f);
                   child := child (f_base f);
                   offsets := offs; sizes := szs |};
      start_times := Some <$> starts;
      anim_times := Some <$> anims |}, rv').

(** *** Grid *)

Record Grid : Type := mkGrid {
  g_base : Container;
  cols : Z;
  rows : Z;
  padding : Z;
  transpose : bool;
  g_xfill : bool;   (* self.style.xfill *)
  g_yfill : bool    (* self.style.yfill *)
}.

Definition Grid_init (cols rows padding : Z) (transpose xfill yfill : bool)
  : Grid :=
  {| g_base := Container_init; cols := cols; rows := rows;
     padding := padding; transpose := transpose;
     g_xfill := xfill; g_yfill := yfill |}.

Definition Grid_add (g : Grid) (w : option D) : Grid :=
  {| g_base := Container_add (g_base g) w; cols := cols g; rows := rows g;
     padding := padding g; transpose := transpose g;
     g_xfill := g_xfill g; g_yfill := g_yfill g |}.

Definition msg_grid : string := "Grid not completely full.".

(** [self.children[x + y * cols] = old_children[y + x * rows]]; the flag
    is false once an index has been out of range. *)
Definition transpose_cell (cols rows : Z) (old : list D) (y : Z)
    (acc : list D * bool) (x : Z) : list D * bool :=
  let '(cur, ok) := acc in
  if ok then
    match index old (y + x * rows) with
    | None => (cur, false)
    | Some v =>
        match setitem cur (x + y * cols) v with
        | None => (cur, false)
        | Some cur' => (cur', true)
        end
    end
  else acc.

Definition transpose_children (cols rows : Z) (old : list D) : list D * bool :=
  foldl (λ acc y, foldl (transpose_cell cols rows old y) acc (range cols))
        (old, true) (range rows).

(** Python 2 [/] on integers. *)
Definition idiv (a b : Z) : outcome Z :=
  if Z.eqb b 0 then Raise ZeroDivisionError else Return (a / b).

(** [[ render(i, ...) for i in self.children ]] followed by
    [[ i.get_size() for i in renders ]]. *)
Fixpoint render_all (l : list D) (w h : Z) (st at_ : Q) : outcome (list S) :=
  match l with
  | [] => Return []
  | d :: l' =>
      match render_child (Some d) w h st at_ with
      | Raise e => Raise e
      | Return s =>
          match render_all l' w h st at_ with
          | Raise e => Raise e
          | Return ss => Return (s :: ss)
          end
      end
  end.

Definition max_sizes (szs : list (Z * Z)) : Z * Z :=
  foldl (λ '(cw, ch) '(w, h), (Z.max cw w, Z.max ch h)) (0, 0) szs.

(** One turn of the placing loop of [Grid.render]. *)
Definition Grid_place_cell (g_children : list D) (renders : list S)
    (cols cwidth cheight padding : Z) (y : Z)
    (acc : Render S * list (Z * Z) * bool) (x : Z)
  : Render S * list (Z * Z) * bool :=
  let '(rv, offs, ok) := acc in
  if ok then
    match index g_children (x + y * cols), index renders (x + y * cols) with
    | Some child, Some surf =>
        let xpos := x * (cwidth + padding) in
        let ypos := y * (cheight + padding) in
        let '(rv', offset) := do_place rv child xpos ypos cwidth cheight surf in
        (rv', offs ++ [offset], true)
    | _, _ => (rv, offs, false)
    end
  else acc.

Definition with_children (g : Grid) (l : list D) (tr : bool)
    (offs szs : list (Z * Z)) : Grid :=
  {| g_base := {| children := l; child := child (g_base g);
                  offsets := offs; sizes := szs |};
     cols := cols g; rows := rows g; padding := padding g;
     transpose := tr; g_xfill := g_xfill g; g_yfill := g_yfill g |}.

Definition Grid_render (g : Grid) (width height : Z) (st at_ : Q)
  : Grid * outcome (Render S) :=
  let padding := padding g in
  let cols := cols g in
  let rows := rows g in
  if negb (Z.of_nat (length (children (g_base g))) =? cols * rows)
  then (g, Raise (Exception msg_grid))
  else
    let '(kids, ok) :=
      if transpose g then transpose_children cols rows (children (g_base g))
      else (children (g_base g), true) in
    let g1 := with_children g kids false
                (offsets (g_base g)) (sizes (g_base g)) in
    if negb ok then (g1, Raise IndexError)
    else
      match (if g_xfill g then idiv (width - (cols - 1) * padding) cols
             else Return width) with
      | Raise e => (g1, Raise e)
      | Return renwidth =>
      match (if g_yfill g then idiv (height - (rows - 1) * padding) rows
             else Return height) with
      | Raise e => (g1, Raise e)
      | Return renheight =>
      match render_all kids renwidth renheight st at_ with
      | Raise e => (g1, Raise e)
      | Return renders =>
          let szs := get_size <$> renders in
          let g2 := with_children g1 kids false (offsets (g_base g)) szs in
          let '(cw0, ch0) := max_sizes szs in
          let cwidth := if g_xfill g then renwidth else cw0 in
          let cheight := if g_yfill g then renheight else ch0 in
          let width' := cwidth * cols + padding * (cols - 1) in
          let height' := cheight * rows + padding * (rows - 1) in
          let rv := mkRender (width', height') [] in
          let '(rv', offs, ok') :=
            foldl (λ acc y,
                     foldl (Grid_place_cell kids renders cols cwidth cheight
                              padding y) acc (range cols))
                  (rv, [], true) (range rows) in
          let g3 := with_children g2 kids false offs szs in
          if ok' then (g3, Return rv') else (g3, Raise IndexError)
      end end end.

(** *** MultiBox *)

Record MultiBox : Type := mkMultiBox {
  mb_base : Container;
  default_layout : option string;
  box_layout : option string;   (* self.style.box_layout *)
  box_spacing : Z               (* self.style.box_spacing *)
}.



(** The state of the measuring loop: the offsets along the axis, the
    remaining extent, the running offset, the cross extent, the surfaces,
    [self.sizes], and the exception that stopped the loop, if any. *)
Record measure : Type := mkMeasure {
  ms_offsets : list Z;
  ms_rem : Z;
  ms_o : Z;
  ms_cross : Z;
  ms_surfaces : list S;
  ms_sizes : list (Z * Z);
  ms_exn : option exn
}.

Definition measure_h (height padding : Z) (st at_ : Q) (a : measure) (i : D)
  : measure :=
  match ms_exn a with
  | Some _ => a
  | None =>
      let xoffsets := ms_offsets a ++ [ms_o a] in
      match render i (ms_rem a) height st at_ with
      | None =>
          mkMeasure xoffsets (ms_rem a) (ms_o a) (ms_cross a) (ms_surfaces a)
            (ms_sizes a) (Some (AttributeError "get_size"))
      | Some surf =>
          let '(sw, sh) := get_size surf in
          mkMeasure xoffsets (ms_rem a - sw - padding) (ms_o a + (sw + padding))
            (Z.max sh (ms_cross a)) (ms_surfaces a ++ [surf])
            (ms_sizes a ++ [(sw, sh)]) None
      end
  end.

Definition measure_v (width padding : Z) (st at_ : Q) (a : measure) (i : D)
  : measure :=
  match ms_exn a with
  | Some _ => a
  | None =>
      let yoffsets := ms_offsets a ++ [ms_o a] in
      match render i width (ms_rem a) st at_ with
      | None =>
          mkMeasure yoffsets (ms_rem a) (ms_o a) (ms_cross a) (ms_surfaces a)
            (ms_sizes a) (Some (AttributeError "get_size"))
      | Some surf =>
          let '(sw, sh) := get_size surf in
          mkMeasure yoffsets (ms_rem a - sh - padding) (ms_o a + (sh + padding))
            (Z.max sw (ms_cross a)) (ms_surfaces a ++ [surf])
            (ms_sizes a ++ [(sw, sh)]) None
      end
  end.

Definition place_h (myheight : Z) (acc : Render S * list (Z * Z))
    (item : S * (D * Z)) : Render S * list (Z * Z) :=
  let '(rv, offs) := acc in
  let '(surf, (child, xo)) := item in
  let '(sw, sh) := get_size surf in
  let '(rv', offset) := do_place rv child xo 0 sw myheight surf in
  (rv', offs ++ [offset]).

Definition place_v (mywidth : Z) (acc : Render S * list (Z * Z))
    (item : S * (D * Z)) : Render S * list (Z * Z) :=
  let '(rv, offs) := acc in
  let '(surf, (child, yo)) := item in
  let '(sw, sh) := get_size surf in
  let '(rv', offset) := do_place rv child 0 yo mywidth sh surf in
  (rv', offs ++ [offset]).

Definition with_lists (m : MultiBox) (offs szs : list (Z * Z)) : MultiBox :=
  {| mb_base := {| children := children (mb_base m);
                   child := child (mb_base m);
                   offsets := offs; sizes := szs |};
     default_layout := default_layout m; box_layout := box_layout m;
     box_spacing := box_spacing m |}.

Definition MultiBox_render (m : MultiBox) (width height : Z) (st at_ : Q)
  : MultiBox * outcome (Render S) :=
  let layout :=
    match box_layout m with
    | None => default_layout m
    | Some l => Some l
    end in
  let padding := box_spacing m in
  let kids := children (mb_base m) in
  if bool_decide (layout = Some "horizontal") then
    let a := foldl (measure_h height padding st at_)
               (mkMeasure [] width 0 0 [] [] None) kids in
    match ms_exn a with
    | Some e => (with_lists m [] (ms_sizes a), Raise e)
    | None =>
        let width' := ms_o a - padding in
        let rv := mkRender (width', ms_cross a) [] in
        let '(rv', offs) :=
          foldl (place_h (ms_cross a)) (rv, [])
                (zip (ms_surfaces a) (zip kids (ms_offsets a))) in
        (with_lists m offs (ms_sizes a), Return rv')
    end
  else
    let a := foldl (measure_v width padding st at_)
               (mkMeasure [] height 0 0 [] [] None) kids in
    match ms_exn a with
    | Some e => (with_lists m [] (ms_sizes a), Raise e)
    | None =>
        let height' := ms_o a - padding in
        let rv := mkRender (ms_cross a, height') [] in
        let '(rv', offs) :=
          foldl (place_v (ms_cross a)) (rv, [])
                (zip (ms_surfaces a) (zip kids (ms_offsets a))) in
        (with_lists m offs (ms_sizes a), Return rv')
    end.

(** *** Motion *)

(** [P] is the type of the position values the interpolation function
    returns.  The four style fields are the ones [render] overwrites.  The
    period and the delay are floats, seconds as the constructor documents
    them, and so are the times.  (Given an [int] period and an [int] delay,
    Python 2 divides the two as integers once the delay is reached.) *)
Record Motion (P : Type) : Type := mkMotion {
  m_child : option D;
  m_children : list (option D);
  function : Q → list P;
  period : Q;
  repeat : bool;
  bounce : bool;
  delay : option Q;
  anim_timebase : bool;
  xpos : option P;
  ypos : option P;
  xanchor : option P;
  yanchor : option P;
  m_offsets : list (Z * Z);
  m_sizes : list (Z * Z)
}.
Arguments mkMotion {P}.
Arguments m_child {P}. Arguments m_children {P}. Arguments function {P}.
Arguments period {P}. Arguments repeat {P}. Arguments bounce {P}.
Arguments delay {P}. Arguments anim_timebase {P}.
Arguments xpos {P}. Arguments ypos {P}.
Arguments xanchor {P}. Arguments yanchor {P}.
Arguments m_offsets {P}. Arguments m_sizes {P}.

Definition Motion_init {P} (function : Q → list P) (period : Q)
    (child new_widget : option D) (repeat bounce : bool) (delay : option Q)
    (anim_timebase : bool) : Motion P :=
  let child := match child with None => new_widget | Some c => Some c end in
  let delay :=
    match delay with
    | None => if negb repeat then Some period else None
    | Some d => Some d
    end in
  mkMotion child [child] function period repeat bounce delay anim_timebase
           None None None None [] [].

(** The time arithmetic of [Motion.render], up to the call of
    [self.function]: the delays passed to [redraw(self, _)], and the
    progress value the function is called with. *)
Definition Motion_progress {P} (m : Motion P) (st at_ : Q)
  : list Q * outcome Q :=
  let t := if anim_timebase m then at_ else st in
  let '(redraws, t1) :=
    match delay m with
    | Some d =>
        if truthyQ d && Qleb d t then
          if repeat m then ([], fmod d (period m)) else ([], Some d)
        else if repeat m then
          match fmod t (period m) with
          | None => ([], None)
          | Some t' => ([0%Q], Some t')
          end
        else if Qltb (period m) t then ([], Some (period m))
        else ([0%Q], Some t)
    | None =>
        if repeat m then
          match fmod t (period m) with
          | None => ([], None)
          | Some t' => ([0%Q], Some t')
          end
        else if Qltb (period m) t then ([], Some (period m))
        else ([0%Q], Some t)
    end in
  match t1 with
  | None => (redraws, Raise ZeroDivisionError)
  | Some t1 =>
      match fdiv t1 (period m) with
      | None => (redraws, Raise ZeroDivisionError)
      | Some t2 =>
          let t3 :=
            if bounce m then
              let t := (t2 * 2)%Q in
              if Qltb 1 t then (2 - t)%Q else t
            else t2 in
          (redraws, Return t3)
      end
  end.

Definition with_style {P} (m : Motion P) (x y xa ya : option P) : Motion P :=
  mkMotion (m_child m) (m_children m) (function m) (period m) (repeat m)
           (bounce m) (delay m) (anim_timebase m) x y xa ya
           (m_offsets m) (m_sizes m).

(** The result: the motion afterwards, the redraw requests, and the
    render or the exception. *)
Definition Motion_render {P} (m : Motion P) (width height : Z) (st at_ : Q)
  : Motion P * list Q * outcome (Render S) :=
  match Motion_progress m st at_ with
  | (redraws, Raise e) => (m, redraws, Raise e)
  | (redraws, Return t) =>
      let res := function m t in
      let styled :=
        match res with
        | [x; y] => Return (with_style m (Some x) (Some y) (xanchor m) (yanchor m))
        | [x; y; xa; ya] =>
            Return (with_style m (Some x) (Some y) (Some xa) (Some ya))
        | _ => Raise ValueError
        end in
      match styled with
      | Raise e => (m, redraws, Raise e)
      | Return m1 =>
          match render_child (m_child m1) width height st at_ with
          | Raise e => (m1, redraws, Raise e)
          | Return child =>
              let '(cw, ch) := get_size child in
              let rv := blit (mkRender (cw, ch) []) child (0, 0) in
              (mkMotion (m_child m1) (m_children m1) (function m1) (period m1)
                 (repeat m1) (bounce m1) (delay m1) (anim_timebase m1)
                 (xpos m1) (ypos m1) (xanchor m1) (yanchor m1)
                 [ (0, 0) ] [ get_size child ],
               redraws, Return rv)
          end
      end
  end.

(** *** Zoom *)

Record Zoom : Type := mkZoom {
  z_size : Z * Z;
  z_start : list Q;
  z_end : list Q;
  z_time : Q;
  z_child : option D;
  after_child : option D
}.

(** [Zoom(size, start, end, time, child, after_child)]; an [after_child]
    goes through [im.image], and [D] stands for the result. *)
Definition Zoom_init (size : Z * Z) (start end_ : list Q) (time : Q)
    (child : option D) (after_child : option D) : Zoom :=
  mkZoom size start end_ time child after_child.

(** What [Zoom.render] returns: the render of [after_child] as it is, or
    the render of the child cropped to [rect] and scaled to [size]. *)
Inductive zoomed : Type :=
| AfterChild (r : option S)
| Scaled (rend : S) (rect : list Q) (size : Z * Z).

Definition Zoom_done (z : Zoom) (st : Q) : Q :=
  if truthyQ (z_time z) then fmin (st / z_time z) 1 else 1%Q.

Definition interp (done : Q) (ab : Q * Q) : Q :=
  ((1 - done) * ab.1 + done * ab.2)%Q.

(** [Zoom] has no mutable field: the result is the redraw requests and
    the render or the exception. *)
Definition Zoom_render (z : Zoom) (width height : Z) (st at_ : Q)
  : list Q * outcome zoomed :=
  let done := Zoom_done z st in
  match after_child z with
  | Some a =>
      if Qeq_bool done 1 then
        ([], Return (AfterChild (render a width height st at_)))
      else
        match render_child (z_child z) width height st at_ with
        | Raise e => ([], Raise e)
        | Return rend =>
            let rect := interp done <$> zip (z_start z) (z_end z) in
            (if Qltb done 1 then [0%Q] else [], Return (Scaled rend rect (z_size z)))
        end
  | None =>
      match render_child (z_child z) width height st at_ with
      | Raise e => ([], Raise e)
      | Return rend =>
          let rect := interp done <$> zip (z_start z) (z_end z) in
          (if Qltb done 1 then [0%Q] else [], Return (Scaled rend rect (z_size z)))
      end
  end.

End Containers.

Arguments Container D : clear implicits.
Arguments Fixed D : clear implicits.
Arguments Grid D : clear implicits.
Arguments MultiBox D : clear implicits.
Arguments measure S : clear implicits.
Arguments Motion D P : clear implicits.
Arguments mkMotion {D P}.
Arguments m_child {D P}. Arguments m_children {D P}. Arguments function {D P}.
Arguments period {D P}. Arguments repeat {D P}. Arguments bounce {D P}.
Arguments delay {D P}. Arguments anim_timebase {D P}.
Arguments xpos {D P}. Arguments ypos {D P}.
Arguments xanchor {D P}. Arguments yanchor {D P}.
Arguments m_offsets {D P}. Arguments m_sizes {D P}.
Arguments Zoom D : clear implicits.
Arguments zoomed S : clear implicits.

(** *** Events and hit tests *)

(** The part of the [Displayable] interface that takes events:
    [event d ev x y st] is [d.event(ev, x, y, st)], [None] when the event is
    not handled. *)
Class Handler (D Ev R : Type) : Type := {
  event : D → Ev → Z → Z → Q → option R
}.

Section Events.
Context {D Ev R : Type} `{Handler D Ev R}.

(** The loop of [Container.event] over the reversed list. *)
Fixpoint Container_dispatch (children_offsets : list (D * (Z * Z)))
    (ev : Ev) (x y : Z) (st : Q) : option R :=
  match children_offsets with
  | [] => None
  | (i, (xo, yo)) :: rest =>
      match event i ev (x - xo) (y - yo) st with
      | Some rv => Some rv
      | None => Container_dispatch rest ev x y st
      end
  end.

(** [self.offsets] exists once [render] has run; [rendered] tells whether
    it has. *)
Definition Container_event (rendered : bool) (c : Container D)
    (ev : Ev) (x y : Z) (st : Q) : outcome (option R) :=
  if rendered then
    Return (Container_dispatch (reverse (zip (children c) (offsets c))) ev x y st)
  else Raise (AttributeError "offsets").

(** The loop of [Fixed.event]; [event_time] is
    [renpy.game.interface.event_time]. *)
Fixpoint Fixed_dispatch (event_time : Q)
    (children_offsets : list (D * ((Z * Z) * option Q)))
    (ev : Ev) (x y : Z) : option R :=
  match children_offsets with
  | [] => None
  | (i, ((xo, yo), t)) :: rest =>
      let cst := match t with
                 | None => 0%Q
                 | Some t => (event_time - t)%Q
                 end in
      match event i ev (x - xo) (y - yo) cst with
      | Some rv => Some rv
      | None => Fixed_dispatch event_time rest ev x y
      end
  end.

Definition Fixed_event (event_time : Q) (rendered : bool) (f : Fixed D)
    (ev : Ev) (x y : Z) (st : Q) : outcome (option R) :=
  if rendered then
    Return (Fixed_dispatch event_time
              (reverse (zip (children (f_base f))
                            (zip (offsets (f_base f)) (start_times f))))
              ev x y)
  else Raise (AttributeError "offsets").

End Events.

(** The loop of [child_at_point], [i] being the index [enumerate] has
    reached. *)
Fixpoint point_scan (l : list ((Z * Z) * (Z * Z))) (i : nat) (x y : Z)
  : option nat :=
  match l with
  | [] => None
  | ((xo, yo), (w, h)) :: rest =>
      let xrel := x - xo in
      let yrel := y - yo in
      if (xrel <? 0) || (yrel <? 0) then point_scan rest (S i) x y
      else if (w <=? xrel) || (h <=? yrel) then point_scan rest (S i) x y
      else Some i
  end.

Definition child_at_point {D} (rendered : bool) (c : Container D) (x y : Z)
  : outcome (option nat) :=
  if rendered then Return (point_scan (zip (offsets c) (sizes c)) 0 x y)
  else Raise (AttributeError "offsets").

(** *** Interpolate *)

(** What a position tuple holds: an [int], a [float], or the name of an
    anchor. *)
Inductive pos : Type :=
| PInt (z : Z)
| PFloat (q : Q)
| PStr (s : string).

Definition anchors : gmap string Q :=
  list_to_map [("top", 0%Q); ("center", (1 # 2)%Q); ("bottom", 1%Q);
               ("left", 0%Q); ("right", 1%Q)].

(** [self.anchors.get(i, i)] *)
Definition anchor_or_self (i : pos) : pos :=
  match i with
  | PStr s => match anchors !! s with Some q => PFloat q | None => i end
  | _ => i
  end.

Record Interpolate : Type := mkInterpolate {
  i_start : list pos;
  i_end : list pos
}.

Definition msg_interpolate : string :=
  "The start and end must have the same number of arguments.".

Definition Interpolate_init (start end_ : list pos) : outcome Interpolate :=
  if negb (length start =? length end_)%nat
  then Raise (Exception msg_interpolate)
  else Return (mkInterpolate (anchor_or_self <$> start) (anchor_or_self <$> end_)).

(** The value of a number in float arithmetic; a string has none. *)
Definition to_float (a : pos) : option Q :=
  match a with
  | PInt z => Some (inject_Z z)
  | PFloat q => Some q
  | PStr _ => None
  end.

(** The inner function [interp(a, b)] of [__call__] at time [t]. *)
Definition Interpolate_interp (t : Q) (ab : pos * pos) : outcome pos :=
  match to_float ab.1, to_float ab.2 with
  | Some fa, Some fb =>
      let rv := ((1 - t) * fa + t * fb)%Q in
      match ab.1, ab.2 with
      | PInt _, PInt _ => Return (PInt (trunc rv))
      | _, _ => Return (PFloat rv)
      end
  | _, _ => Raise TypeError
  end.

Fixpoint Interpolate_list (t : Q) (l : list (pos * pos)) : outcome (list pos) :=
  match l with
  | [] => Return []
  | ab :: l' =>
      match Interpolate_interp t ab with
      | Raise e => Raise e
      | Return v =>
          match Interpolate_list t l' with
          | Raise e => Raise e
          | Return vs => Return (v :: vs)
          end
      end
  end.

Definition Interpolate_call (i : Interpolate) (t : Q) : outcome (list pos) :=
  Interpolate_list t (zip (i_start i) (i_end i)).

(** *** LiveComposite *)

(** A positional argument after [size]: a position pair or something
    [im.image] makes a displayable of. *)
Inductive live_arg (W P : Type) : Type :=
| LPos (xpos ypos : P)
| LWidget (w : W).
Arguments LPos {W P} xpos ypos.
Arguments LWidget {W P} w.

(** [Position(im.image(widget, loose=True), xpos=xpos, xanchor='left',
    ypos=ypos, yanchor='top')]; [placed] keeps the argument given to
    [im.image]. *)
Record Positioned (W P : Type) : Type := mkPositioned {
  placed : live_arg W P;
  p_xpos : P;
  p_xanchor : string;
  p_ypos : P;
  p_yanchor : string
}.
Arguments mkPositioned {W P}.
Arguments placed {W P}. Arguments p_xpos {W P}. Arguments p_xanchor {W P}.
Arguments p_ypos {W P}. Arguments p_yanchor {W P}.

Definition msg_live : string := "LiveComposite requires an odd number of arguments.".

(** The [for] loop of [LiveComposite]: unpacking something that is no pair
    is a TypeError. *)
Fixpoint LiveComposite_loop {W P} (rv : Fixed (Positioned W P))
    (pairs : list (live_arg W P * live_arg W P))
  : outcome (Fixed (Positioned W P)) :=
  match pairs with
  | [] => Return rv
  | (pos, widget) :: rest =>
      match pos with
      | LPos xpos ypos =>
          LiveComposite_loop
            (Fixed_add rv (Some (mkPositioned widget xpos "left" ypos "top"))
                       None None) rest
      | LWidget _ => Raise TypeError
      end
  end.

Definition LiveComposite {W P} (size : Z * Z) (args : list (live_arg W P))
  : outcome (Fixed (Positioned W P)) :=
  let rv := Fixed_init in
  if negb (length args `mod` 2 =? 0)%nat then Raise (Exception msg_live)
  else LiveComposite_loop rv (zip (stride2 args) (stride2 (tail args))).

End Layout.

(** ** renpy/display/anim.py *)

Module Anim.

(** The source of [random.choice]: an endless sequence of draws.  A call
    takes the first draw, reduced to an index of the sequence it chooses
    from, and leaves the rest. *)
Definition rng : Type := nat → nat.

Definition rng_next (r : rng) : rng := λ n, r (S n).

Definition choose {A} (l : list A) (draw : nat) : option A :=
  l !! (draw `mod` length l)%nat.

(** [random.choice(l)]; an empty sequence is an IndexError. *)
Definition choice {A} (l : list A) (r : rng) : option A * rng :=
  (choose l (r 0%nat), rng_next r).

Section StateMachine.
(** [D]: displayables; [F]: the functions of an at-list; [T]: transitions;
    [V]: values of style properties.  All four are objects made outside
    this module; the equality is their identity. *)
Context {D F T V : Type}.
Context `{EqDecision D, EqDecision F, EqDecision T, EqDecision V}.

(** Displayables put together by this module from the objects it is
    given: calls to objects from outside are kept as terms. *)
Inductive visual : Type :=
| VNone                                      (* None *)
| VDisp (d : D)
| VAt (f : F) (v : visual)                   (* f(v) *)
| VTrans (tr : T) (old_widget new_widget : visual).
                                  (* tr(old_widget=.., new_widget=..) *)

(** *** State *)

Record State : Type := mkState {
  s_name : string;
  s_image : option D;
  s_atlist : list F;
  s_properties : gmap string V
}.

(** [State(name, image, *atlist, **properties)].  An image that is not a
    displayable is wrapped by [Image]; [D] stands for the result. *)
Definition State_new (name : string) (image : option D) (atlist : list F)
    (properties : gmap string V) : State :=
  mkState name image atlist properties.

Definition of_image (i : option D) : visual :=
  match i with None => VNone | Some d => VDisp d end.

(** [get_image] names [properties], which is not bound in the method. *)
Definition get_image (s : State) : outcome visual :=
  let rv := foldl (λ rv i, VAt i rv) (of_image (s_image s)) (s_atlist s) in
  if bool_decide (s_properties s = ∅) then Return rv
  else Raise (NameError "properties").

(** Attribute lookup on a [State] object. *)
Inductive attribute : Type :=
| AName (n : string)
| AImage (i : option D)
| AAtlist (l : list F)
| AProperties (p : gmap string V).

Definition State_getattr (s : State) (a : string) : outcome attribute :=
  if bool_decide (a = "name") then Return (AName (s_name s))
  else if bool_decide (a = "image") then Return (AImage (s_image s))
  else if bool_decide (a = "atlist") then Return (AAtlist (s_atlist s))
  else if bool_decide (a = "properties") then Return (AProperties (s_properties s))
  else Raise (AttributeError a).

Definition motion_copy (s : State) (child : option D) : outcome State :=
  match s_image s with
  | Some _ =>
      (* child = self.mage *)
      match State_getattr s "mage" with
      | Raise e => Raise e
      | Return (AImage i) => Return (State_new (s_name s) i (s_atlist s) ∅)
      | Return _ => Raise TypeError
      end
  | None => Return (State_new (s_name s) child (s_atlist s) ∅)
  end.

(** *** Edge *)

Record Edge : Type := mkEdge {
  e_old : string;
  e_delay : Q;
  e_new : string;
  e_trans : option T;
  e_prob : Z
}.

#[export] Instance Edge_eq_dec : EqDecision Edge.
Proof. solve_decision. Defined.

(** *** SMAnimation *)

Record SMAnimation : Type := mkSM {
  sm_delay : option Q;
  sm_showold : bool;
  sm_anim_timebase : bool;
  sm_properties : gmap string V;
  sm_initial : string;
  sm_states : gmap string State;
  sm_edges : gmap string (list Edge);
  sm_edge_start : option Q;
  sm_edge_cache : option visual;
  sm_edge : option Edge;
  sm_state : option string
}.

Definition set_states (sm : SMAnimation) (m : gmap string State) : SMAnimation :=
  mkSM (sm_delay sm) (sm_showold sm) (sm_anim_timebase sm) (sm_properties sm)
       (sm_initial sm) m (sm_edges sm) (sm_edge_start sm) (sm_edge_cache sm)
       (sm_edge sm) (sm_state sm).

Definition set_edges (sm : SMAnimation) (m : gmap string (list Edge))
  : SMAnimation :=
  mkSM (sm_delay sm) (sm_showold sm) (sm_anim_timebase sm) (sm_properties sm)
       (sm_initial sm) (sm_states sm) m (sm_edge_start sm) (sm_edge_cache sm)
       (sm_edge sm) (sm_state sm).

(** The four fields of the live walk. *)
Definition set_walk (sm : SMAnimation) (edge_start : option Q)
    (edge_cache : option visual) (edge : option Edge) (state : option string)
  : SMAnimation :=
  mkSM (sm_delay sm) (sm_showold sm) (sm_anim_timebase sm) (sm_properties sm)
       (sm_initial sm) (sm_states sm) (sm_edges sm) edge_start edge_cache
       edge state.

(** [State.add]: [sma.states[self.name] = self]. *)
Definition State_add (s : State) (sma : SMAnimation) : SMAnimation :=
  set_states sma (<[s_name s := s]> (sm_states sma)).

(** [sma.edges.setdefault(self.old, []).append(self)]. *)
Definition append_edge (e : Edge) (sma : SMAnimation) : SMAnimation :=
  set_edges sma
    (<[e_old e := default [] (sm_edges sma !! e_old e) ++ [e]]> (sm_edges sma)).

(** [Edge.add]: one append for each [i] in [range(0, self.prob)]. *)
Definition Edge_add (e : Edge) (sma : SMAnimation) : SMAnimation :=
  foldl (λ sma _, append_edge e sma) sma (range (e_prob e)).

(** The positional arguments of the constructor. *)
Inductive arg : Type :=
| AState (s : State)
| AEdge (e : Edge).

Definition arg_add (sma : SMAnimation) (a : arg) : SMAnimation :=
  match a with
  | AState s => State_add s sma
  | AEdge e => Edge_add e sma
  end.

(** [SMAnimation(initial, *args, **properties)].  [delay], [showold] and
    [anim_timebase] are the three keywords taken out of [properties];
    [None] for the last two is an absent keyword. *)
Definition SMAnimation_new (initial : string) (args : list arg)
    (delay : option Q) (showold anim_timebase : option bool)
    (properties : gmap string V) : SMAnimation :=
  let sma := mkSM delay (default false showold) (default true anim_timebase)
               properties initial ∅ ∅ None None None None in
  foldl arg_add sma args.

Definition pick_edge (sm : SMAnimation) (state : string) (r : rng)
  : SMAnimation * rng * outcome unit :=
  match sm_edges sm !! state with
  | None =>
      (set_walk sm (sm_edge_start sm) (sm_edge_cache sm) None (sm_state sm),
       r, Return tt)
  | Some edges =>
      match choice edges r with
      | (None, r') => (sm, r', Raise IndexError)
      | (Some e, r') =>
          (set_walk sm (sm_edge_start sm) (sm_edge_cache sm) (Some e)
             (Some (e_new e)), r', Return tt)
      end
  end.

Definition state_image (sm : SMAnimation) (name : option string)
  : outcome visual :=
  match name with
  | None => Raise KeyError
  | Some n =>
      match sm_states sm !! n with
      | None => Raise KeyError
      | Some s => get_image s
      end
  end.

(** The displayable [update_cache] stores for edge [e]. *)
Definition edge_visual (sm : SMAnimation) (e : Edge) : outcome visual :=
  match e_trans e with
  | Some tr =>
      match state_image sm (Some (e_old e)) with
      | Raise x => Raise x
      | Return o =>
          match state_image sm (Some (e_new e)) with
          | Raise x => Raise x
          | Return n => Return (VTrans tr o n)
          end
      end
  | None =>
      if sm_showold sm then state_image sm (Some (e_old e))
      else state_image sm (Some (e_new e))
  end.

(** The test of the catch-up loop: [self.edge and
    t > self.edge_start + self.edge.delay]. *)
Definition overdue (sm : SMAnimation) (t : Q) : bool :=
  match sm_edge sm, sm_edge_start sm with
  | Some e, Some es => Qltb (es + e_delay e) t
  | _, _ => false
  end.

(** The body of the catch-up loop. *)
Definition advance (sm : SMAnimation) (r : rng)
  : SMAnimation * rng * outcome unit :=
  match sm_edge sm, sm_edge_start sm with
  | Some e, Some es =>
      pick_edge (set_walk sm (Some (es + e_delay e)%Q) None (sm_edge sm)
                   (sm_state sm)) (e_new e) r
  | _, _ => (sm, r, Raise TypeError)
  end.

(** The loop itself; [None] when [fuel] turns do not end it. *)
Fixpoint catch_up (fuel : nat) (sm : SMAnimation) (r : rng) (t : Q)
  : option (SMAnimation * rng * outcome unit) :=
  match fuel with
  | O => None
  | S fuel' =>
      if overdue sm t then
        match advance sm r with
        | (sm', r', Raise x) => Some (sm', r', Raise x)
        | (sm', r', Return _) => catch_up fuel' sm' r' t
        end
      else Some (sm, r, Return tt)
  end.

(** What the last part of [render] hands to the render module: the
    displayable rendered, its two time arguments, and the redraw request
    made for it, if any. *)
Record shown : Type := mkShown {
  sh_visual : visual;
  sh_st : Q;
  sh_at : Q;
  sh_redraw : option (visual * Q)
}.

Definition restart_needed (sm : SMAnimation) (t : Q) : bool :=
  match sm_edge_start sm with
  | None => true
  | Some es => Qltb t es
  end.

(** The first [if] of [render]. *)
Definition restart (sm : SMAnimation) (r : rng) (t : Q)
  : SMAnimation * rng * outcome unit :=
  if restart_needed sm t then
    pick_edge (set_walk sm (Some t) None (sm_edge sm) (sm_state sm))
              (sm_initial sm) r
  else (sm, r, Return tt).

(** What [if self.edge_cache:] finds: the cached displayable, unless there
    is none or [None] itself was cached (a picture that is [None]).  What
    the functions of an at-list and the transitions return is taken to be
    a displayable, an object that is true. *)
Definition cached (sm : SMAnimation) : option visual :=
  match sm_edge_cache sm with
  | Some VNone => None
  | Some c => Some c
  | None => None
  end.

(** The part of [render] after the loop.  [update_cache] is called where
    [not self.edge_cache] holds. *)
Definition draw (sm : SMAnimation) (t st at_ : Q)
  : SMAnimation * outcome shown :=
  match sm_edge_start sm with
  | None => (sm, Raise TypeError)
  | Some es =>
      match sm_edge sm with
      | None =>
          match state_image sm (sm_state sm) with
          | Raise x => (sm, Raise x)
          | Return im => (sm, Return (mkShown im (st - es) at_ None))
          end
      | Some e =>
          let im :=
            match cached sm with
            | Some c => Return c
            | None => edge_visual sm e
            end in
          match im with
          | Raise x => (sm, Raise x)
          | Return c =>
              (set_walk sm (sm_edge_start sm) (Some c) (sm_edge sm) (sm_state sm),
               Return (mkShown c (t - es) at_
                         (Some (c, e_delay e - (t - es))))%Q)
          end
      end
  end.

Definition SMAnimation_render (fuel : nat) (sm : SMAnimation) (r : rng)
    (width height : Z) (st at_ : Q)
  : option (SMAnimation * rng * outcome shown) :=
  let t := if sm_anim_timebase sm then at_ else st in
  match restart sm r t with
  | (sm1, r1, Raise x) => Some (sm1, r1, Raise x)
  | (sm1, r1, Return _) =>
      match catch_up fuel sm1 r1 t with
      | None => None
      | Some (sm2, r2, Raise x) => Some (sm2, r2, Raise x)
      | Some (sm2, r2, Return _) =>
          let '(sm3, out) := draw sm2 t st at_ in Some (sm3, r2, out)
      end
  end.

(** [motion_copy] over [self.states.itervalues()], stopping at the first
    exception. *)
Fixpoint copy_states (l : list State) (child : option D)
  : outcome (list arg) :=
  match l with
  | [] => Return []
  | s :: l' =>
      match motion_copy s child with
      | Raise x => Raise x
      | Return s' =>
          match copy_states l' child with
          | Raise x => Raise x
          | Return args => Return (AState s' :: args)
          end
      end
  end.

(** [SMAnimation.__call__].  The dictionaries are walked in the order of
    [map_to_list]. *)
Definition SMAnimation_call (sm : SMAnimation) (child new_widget : option D)
  : outcome SMAnimation :=
  let child := match child with None => new_widget | Some c => Some c end in
  match copy_states (snd <$> map_to_list (sm_states sm)) child with
  | Raise x => Raise x
  | Return args =>
      let args := args ++ (AEdge <$> concat (snd <$> map_to_list (sm_edges sm))) in
      Return (SMAnimation_new (sm_initial sm) args (sm_delay sm) None None
                (sm_properties sm))
  end.

(** [SMAnimation.get_placement]: the displayable whose [get_placement] is
    called, or [None] where the method of the superclass is.  An empty
    state name is false in the test of [self.state]. *)
Definition get_placement (sm : SMAnimation) : outcome (option visual) :=
  match cached sm with
  | Some c => Return (Some c)
  | None =>
      match sm_state sm with
      | Some n =>
          if bool_decide (n = "") then Return None
          else
            match state_image sm (Some n) with
            | Raise x => Raise x
            | Return VNone => Raise (AttributeError "get_placement")
            | Return v => Return (Some v)
            end
      | None => Return None
      end
  end.

End StateMachine.

Arguments visual D F T : clear implicits.
Arguments State D F V : clear implicits.
Arguments attribute D F V : clear implicits.
Arguments Edge T : clear implicits.
Arguments SMAnimation D F T V : clear implicits.
Arguments arg D F T V : clear implicits.
Arguments shown D F T : clear implicits.

Section Animation.
Context {D : Type}.

(** A positional argument of [Animation]: something [im.image] makes an
    image of, or a number. *)
Inductive value : Type :=
| Img (d : D)
| Num (q : Q).

(** [images] keeps the arguments that were handed to
    [renpy.display.im.image(arg, loose=True)]. *)
Record Animation : Type := mkAnimation {
  an_anim_timebase : bool;
  images : list value;
  delays : list value
}.

(** [365.25 * 86400.0] *)
Definition one_year : Q := ((36525 # 100) * 86400)%Q.

Definition Animation_new (args : list value) (anim_timebase : option bool)
  : Animation :=
  let '(imgs, dls) :=
    foldl (λ '(imgs, dls) '(i, a),
             if Nat.even i then (imgs ++ [a], dls) else (imgs, dls ++ [a]))
          ([], []) (zip (seq 0 (length args)) args) in
  let dls :=
    if Nat.ltb (length dls) (length imgs) then dls ++ [Num one_year] else dls in
  mkAnimation (default true anim_timebase) imgs dls.

(** [sum(self.delays)] *)
Definition sum_delays (l : list value) : outcome Q :=
  foldl (λ acc v,
           match acc, v with
           | Return a, Num q => Return (a + q)%Q
           | Return _, Img _ => Raise TypeError
           | Raise x, _ => Raise x
           end) (Return 0%Q) l.

(** The [for] loop of [render]: the image shown with the delay of the
    redraw request, or [None] when the loop runs out. *)
Fixpoint scan (l : list (value * value)) (t : Q) : outcome (option (value * Q)) :=
  match l with
  | [] => Return None
  | (image, delay) :: l' =>
      match delay with
      | Num d =>
          if Qltb t d then Return (Some (image, (d - t)%Q))
          else scan l' (t - d)%Q
      | Img _ => Raise TypeError
      end
  end.

Definition Animation_render (a : Animation) (width height : Z) (st at_ : Q)
  : outcome (option (value * Q)) :=
  match sum_delays (delays a) with
  | Raise x => Raise x
  | Return total =>
      match fmod (if an_anim_timebase a then at_ else st) total with
      | None => Raise ZeroDivisionError
      | Some t => scan (zip (images a) (delays a)) t
      end
  end.

End Animation.

Arguments value D : clear implicits.
Arguments Animation D : clear implicits.

(** *** Blink *)

Section Blink.
Context {D S : Type} `{!Layout.Displayable D S}.

Record Blink : Type := mkBlink {
  b_image : D;
  b_on : Q;
  b_off : Q;
  b_rise : Q;
  b_set : Q;
  b_high : Q;
  b_low : Q;
  b_offset : Q;
  b_anim_timebase : bool;
  b_cycle : Q
}.

(** [Blink(image, on, off, rise, set, high, low, offset, anim_timebase)];
    [D] stands for the result of [im.image]. *)
Definition Blink_init (image : D) (on off rise set_ high low offset : Q)
    (anim_timebase : bool) : Blink :=
  mkBlink image on off rise set_ high low offset anim_timebase
          (on + set_ + off + rise)%Q.

(** The four tests [render] makes on the time within the cycle.  The result
    is the local [delay], [None] while it is not bound, and [alpha]. *)
Definition Blink_phase (b : Blink) (time : Q) : option Q * Q :=
  let delay : option Q := None in
  let alpha := b_high b in
  let '(delay, alpha) :=
    if Qleb 0 time && Qltb time (b_on b)
    then (Some (b_on b - time)%Q, b_high b)
    else (delay, alpha) in
  let time := (time - b_on b)%Q in
  let '(delay, alpha) :=
    if Qleb 0 time && Qltb time (b_set b)
    then let frac := (time / b_set b)%Q in
         (Some 0%Q, (b_low b * frac + b_high b * (1 - frac))%Q)
    else (delay, alpha) in
  let time := (time - b_set b)%Q in
  let '(delay, alpha) :=
    if Qleb 0 time && Qltb time (b_off b)
    then (Some (b_off b - time)%Q, b_low b)
    else (delay, alpha) in
  let time := (time - b_off b)%Q in
  let '(delay, alpha) :=
    if Qleb 0 time && Qltb time (b_rise b)
    then let frac := (time / b_rise b)%Q in
         (Some 0%Q, (b_high b * frac + b_low b * (1 - frac))%Q)
    else (delay, alpha) in
  (delay, alpha).

(** What [render] returns: the render of the image as it is, or a new
    render of its size into which nothing was blitted, with the delay of the
    redraw request. *)
Inductive blinked : Type :=
| Unmapped (rend : option S)
| Mapped (size : Z * Z) (redraw : Q).

(** [can_map] is [renpy.display.module.can_map].  [surface_calls] is the
    outcome of the calls between [if alpha:] and the call of
    [renpy.display.module.map], which are calls of pygame and of
    [renpy.display.im]; [map] itself calls [endian_order], a name the module
    does not define. *)
Definition Blink_render (can_map : bool) (surface_calls : outcome unit)
    (b : Blink) (height width : Z) (st at_ : Q) : outcome blinked :=
  let t := if b_anim_timebase b then at_ else st in
  match fmod (b_offset b + t) (b_cycle b) with
  | None => Raise ZeroDivisionError
  | Some time =>
      let '(delay, alpha) := Blink_phase b time in
      let rend := Layout.render (b_image b) height width st at_ in
      if negb can_map then Return (Unmapped rend)
      else
        match rend with
        | None => Raise (AttributeError "get_size")
        | Some surf =>
            let size := Layout.get_size surf in
            let blitted :=
              if truthyQ alpha then
                match surface_calls with
                | Raise e => Raise e
                | Return _ => Raise (NameError "endian_order")
                end
              else Return tt in
            match blitted with
            | Raise e => Raise e
            | Return _ =>
                match delay with
                | None => Raise (NameError "delay")
                | Some d => Return (Mapped size d)
                end
            end
        end
  end.

End Blink.

Arguments Blink D : clear implicits.
Arguments blinked S : clear implicits.

(** *** Filmstrip *)

Section Filmstrip.
Context {I : Type}.

(** [renpy.display.im.Crop(image, x, y, width, height)] *)
Record Crop : Type := mkCrop {
  c_image : I;
  c_x : Z;
  c_y : Z;
  c_width : Z;
  c_height : Z
}.

(** The body of the inner loop, for the column [c] of the row [r].  The
    state is [args], [i] and whether the loop has been left by [break]. *)
Definition Filmstrip_cell (image : I) (width height : Z) (delay : Q)
    (frames : Z) (r : Z) (acc : list (value Crop) * Z * bool) (c : Z)
  : list (value Crop) * Z * bool :=
  let '(args, i, broke) := acc in
  if broke then acc
  else
    let x := c * width in
    let y := r * height in
    let args := args ++ [Img (mkCrop image x y width height); Num delay] in
    let i := i + 1 in
    (args, i, i =? frames).

(** The body of the outer loop: the inner loop, then the second test of
    [i == frames]. *)
Definition Filmstrip_row (image : I) (width height cols : Z) (delay : Q)
    (frames : Z) (acc : list (value Crop) * Z * bool) (r : Z)
  : list (value Crop) * Z * bool :=
  let '(args, i, broke) := acc in
  if broke then acc
  else
    let '(args, i, _) :=
      foldl (Filmstrip_cell image width height delay frames r) (args, i, false)
            (range cols) in
    (args, i, i =? frames).

Definition Filmstrip (image : I) (framesize gridsize : Z * Z) (delay : Q)
    (frames : option Z) (loop : bool) (anim_timebase : option bool)
  : outcome (Animation Crop) :=
  let '(width, height) := framesize in
  let '(cols, rows) := gridsize in
  let frames := default (cols * rows) frames in
  let '(args, _, _) :=
    foldl (Filmstrip_row image width height cols delay frames) ([], 0, false)
          (range rows) in
  if negb loop then
    match pop args with
    | None => Raise IndexError
    | Some (args, _) => Return (Animation_new args anim_timebase)
    end
  else Return (Animation_new args anim_timebase).

End Filmstrip.

Arguments Crop I : clear implicits.

End Anim.

(** ** Sample objects

    A small world of displayables to run the definitions on: a displayable
    is a number [n], it renders to a surface of [n] by [n] pixels whatever
    space it is offered (number [0] renders to a false surface), and it is
    placed at the top left of the area it is given. *)

Module Sample.

#[export] Instance square : Layout.Displayable nat (Z * Z) := {|
  Layout.render d w h st at_ :=
    match d with O => None | _ => Some (Z.of_nat d, Z.of_nat d) end;
  Layout.get_size s := s;
  Layout.place d x y w h s := (x, y)
|}.

(** A grid of three columns and two rows, to be transposed, with the
    children 1 to 6 in the order they were added. *)
Definition grid_3x2 : Layout.Grid nat :=
  foldl Layout.Grid_add (Layout.Grid_init 3 2 0 true false false)
        (Some <$> [1; 2; 3; 4; 5; 6]%nat).

(** A grid of two columns and two rows that holds three children only. *)
Definition grid_short : Layout.Grid nat :=
  foldl Layout.Grid_add (Layout.Grid_init 2 2 0 false false false)
        (Some <$> [1; 2; 3]%nat).

(** [Container(1, 2)]: the plain container given two children. *)
Definition container_pair : Layout.Container nat :=
  Layout.Container_new [Some 1%nat; Some 2%nat].

(** A [Fixed] with two children added, both to start at the first draw. *)
Definition fixed_pair : Layout.Fixed nat :=
  Layout.Fixed_add (Layout.Fixed_add Layout.Fixed_init (Some 1%nat) None None)
                   (Some 2%nat) None None.

(** A zoom over one second from the whole of child 1 to its corner, with
    child 2 to show afterwards. *)
Definition zoom_one_second : Layout.Zoom nat :=
  Layout.Zoom_init (640, 480) [0; 0; 640; 480]%Q [0; 0; 320; 240]%Q 1
                   (Some 1%nat) (Some 2%nat).

(** The machine of two states with two edges from A to B, of weights 1
    and 3, both with a delay of one second. *)
Definition state_A : Anim.State nat nat nat := Anim.State_new "A" (Some 1%nat) [] ∅.
Definition state_B : Anim.State nat nat nat := Anim.State_new "B" (Some 2%nat) [] ∅.
Definition edge_once : Anim.Edge nat := Anim.mkEdge "A" 1 "B" None 1.
Definition edge_thrice : Anim.Edge nat := Anim.mkEdge "A" 1 "B" None 3.

Definition machine : Anim.SMAnimation nat nat nat nat :=
  Anim.SMAnimation_new "A"
    [Anim.AState state_A; Anim.AState state_B;
     Anim.AEdge edge_once; Anim.AEdge edge_thrice] None None None ∅.

(** The same graph with the image slots left unset, as for a motion. *)
Definition slot_A : Anim.State nat nat nat := Anim.State_new "A" None [] ∅.
Definition slot_B : Anim.State nat nat nat := Anim.State_new "B" None [] ∅.

Definition motion_machine : Anim.SMAnimation nat nat nat nat :=
  Anim.SMAnimation_new "A"
    [Anim.AState slot_A; Anim.AState slot_B; Anim.AEdge edge_thrice]
    None (Some true) (Some false) ∅.

(** A source of draws that always gives the first entry. *)
Definition first_draw : Anim.rng := λ _, 0%nat.

(** The displayable [n] takes the events that fall on its square, and
    answers with its number. *)
#[export] Instance hit : Layout.Handler nat unit nat := {|
  Layout.event d ev x y st :=
    if (0 <=? x) && (x <? Z.of_nat d) && (0 <=? y) && (y <? Z.of_nat d)
    then Some d else None
|}.



(** The machine of the states A and B without any edge. *)
Definition still_machine : Anim.SMAnimation nat nat nat nat :=
  Anim.SMAnimation_new "A" [Anim.AState state_A; Anim.AState state_B]
    None None None ∅.

(** [machine] at rest in state B since the time 1. *)
Definition machine_at_rest : Anim.SMAnimation nat nat nat nat :=
  Anim.set_walk machine (Some 1%Q) None None (Some "B").

(** The first call of [render] on [machine], half a second in. *)
Definition first_render
  : option (Anim.SMAnimation nat nat nat nat * Anim.rng
            * outcome (Anim.shown nat nat nat)) :=
  Anim.SMAnimation_render 5 machine first_draw 640 480 0 (1 # 2).


(** A blink of child 1 with phases of half a second, between the alphas
    one quarter and one. *)
Definition blink_half : Anim.Blink nat :=
  Anim.Blink_init 1%nat (1 # 2) (1 # 2) (1 # 2) (1 # 2) 1 (1 # 4) 0 false.

(** The machine after [render] calls with the given [(st, at)], each with
    fuel for five turns of the loop; [None] if a call runs out of fuel. *)
Definition after_calls (calls : list (Q * Q))
  : option (Anim.SMAnimation nat nat nat nat) :=
  fst <$>
  foldl (λ acc call,
           acc ≫= λ '(sm, r),
             match Anim.SMAnimation_render 5 sm r 640 480 call.1 call.2 with
             | Some (sm', r', _) => Some (sm', r')
             | None => None
             end)
        (Some (machine, first_draw)) calls.

End Sample.

(** ** Notions used to state the properties *)

Module Notions.

(** The column-major number of the cell whose row-major number is [k], in a
    grid of [c] columns and [r] rows. *)
Definition column_major (c r k : nat) : nat := (k / c + (k `mod` c) * r)%nat.

(** The same on all numbers: outside the grid nothing moves. *)
Definition transposition (c r k : nat) : nat :=
  if decide (k < r * c)%nat then column_major c r k else k.

Section Stale.
Context {D S : Type} `{!Layout.Displayable D S}.
Import Layout.

(** What [Fixed.add], and clearing the children as [ui.reopen] does, keep
    true of a [Fixed]: every child has its two start times. *)
Definition Fixed_wf (f : Fixed D) : Prop :=
  (length (children (f_base f)) ≤ length (start_times f))%nat
  ∧ (length (children (f_base f)) ≤ length (anim_times f))%nat.

(** The same container with other lists left in [offsets] and [sizes]. *)
Definition Container_stale (c : Container D) (offs szs : list (Z * Z)) : Container D :=
  {| children := children c; child := child c; offsets := offs; sizes := szs |}.

Definition Fixed_stale (f : Fixed D) (offs szs : list (Z * Z)) : Fixed D :=
  {| f_base := Container_stale (f_base f) offs szs;
     start_times := start_times f; anim_times := anim_times f |}.

Definition Grid_stale (g : Grid D) (offs szs : list (Z * Z)) : Grid D :=
  with_children g (children (g_base g)) (transpose g) offs szs.

Definition MultiBox_stale (m : MultiBox D) (offs szs : list (Z * Z)) : MultiBox D :=
  with_lists m offs szs.

End Stale.

(** The arguments at the even places and those at the odd places. *)
Fixpoint alternate {A} (l : list A) : list A * list A :=
  match l with
  | [] => ([], [])
  | x :: l' => let '(a, b) := alternate l' in (x :: b, a)
  end.

Section Weights.
Context {T : Type} `{EqDecision T}.
Import Anim.






(** [self.edges[k]], empty when [k] is not a key. *)
Definition outgoing {D F V} (sm : SMAnimation D F T V) (k : string)
  : list (Edge T) :=
  default [] (sm_edges sm !! k).

End Weights.

Section Walk.
Context {D F T V : Type} `{EqDecision V}.
Import Anim.

(** Every adjacency list has an entry, and no delay, listed or current, is
    below [d]. *)
Definition steady (d : Q) (sm : SMAnimation D F T V) : Prop :=
  (∀ k l, sm_edges sm !! k = Some l →
          l ≠ [] ∧ ∀ e, e ∈ l → (d <= e_delay e)%Q)
  ∧ (∀ e, sm_edge sm = Some e → (d <= e_delay e)%Q).

(** The turns of the catch-up loop at time [t], with the edges whose delay
    ran out, in order: the completed edges. *)
Inductive catches_up (t : Q)
  : SMAnimation D F T V → rng → list (Edge T) → SMAnimation D F T V → rng → Prop :=
| catches_up_done sm r :
    overdue sm t = false → catches_up t sm r [] sm r
| catches_up_turn sm r e sm1 r1 tr sm2 r2 :
    overdue sm t = true →
    sm_edge sm = Some e →
    advance sm r = (sm1, r1, Return tt) →
    catches_up t sm1 r1 tr sm2 r2 →
    catches_up t sm r (e :: tr) sm2 r2.

(** [start] after [+= delay] for each of the edges, in order. *)
Definition advanced (start : Q) (tr : list (Edge T)) : Q :=
  foldl Qplus start (e_delay <$> tr).

(** The time a [render(width, height, st, at)] call reads. *)
Definition time_of (sm : SMAnimation D F T V) (call : Q * Q) : Q :=
  if sm_anim_timebase sm then call.2 else call.1.

(** The time [edge_start] counts from in a [render] at time [t]: [t] when
    the walk is started anew, the [edge_start] found otherwise. *)
Definition start_of (sm : SMAnimation D F T V) (t : Q) : Q :=
  if restart_needed sm t then t else default t (sm_edge_start sm).

(** One [render(_, _, st, at)] that returns, with the edges completed in its
    loop. *)
Definition renders (sm : SMAnimation D F T V) (r : rng) (call : Q * Q)
    (tr : list (Edge T)) (sm' : SMAnimation D F T V) (r' : rng) : Prop :=
  let t := time_of sm call in
  ∃ sm1 r1 sm2,
    restart sm r t = (sm1, r1, Return tt)
    ∧ catches_up t sm1 r1 tr sm2 r'
    ∧ sm' = (draw sm2 t call.1 call.2).1
    ∧ ∃ fuel, ∀ w h,
        SMAnimation_render fuel sm r w h call.1 call.2
        = Some (sm', r', (draw sm2 t call.1 call.2).2).

(** Several [render] calls one after the other, with all the edges
    completed on the way. *)
Inductive walks
  : SMAnimation D F T V → rng → list (Q * Q) → list (Edge T) →
    SMAnimation D F T V → rng → Prop :=
| walks_nil sm r : walks sm r [] [] sm r
| walks_cons sm r call tr1 sm1 r1 calls tr2 sm2 r2 :
    renders sm r call tr1 sm1 r1 →
    walks sm1 r1 calls tr2 sm2 r2 →
    walks sm r (call :: calls) (tr1 ++ tr2) sm2 r2.

End Walk.


(** The first result that is not [None], going through [l] in order. *)
Fixpoint first_some {A B} (f : A → option B) (l : list A) : option B :=
  match l with
  | [] => None
  | a :: l' => match f a with Some b => Some b | None => first_some f l' end
  end.

(** The point [(x, y)] lies in the rectangle with the given offset and
    size. *)
Definition inside (off sz : Z * Z) (x y : Z) : Prop :=
  off.1 ≤ x < off.1 + sz.1 ∧ off.2 ≤ y < off.2 + sz.2.

Definition sumZ (l : list Z) : Z := foldr Z.add 0 l.
Definition maxZ (l : list Z) : Z := foldr Z.max 0 l.


(** Two position values are the same number (or the same string). *)
Definition same_pos (a b : Layout.pos) : Prop :=
  match a, b with
  | Layout.PInt x, Layout.PInt y => x = y
  | Layout.PFloat x, Layout.PFloat y => (x == y)%Q
  | Layout.PStr x, Layout.PStr y => x = y
  | _, _ => False
  end.

Definition is_number (a : Layout.pos) : Prop :=
  match a with Layout.PStr _ => False | _ => True end.

(** Two position values are numbers of the same value, whether [int] or
    [float]. *)
Definition same_value (a b : Layout.pos) : Prop :=
  match Layout.to_float a, Layout.to_float b with
  | Some x, Some y => (x == y)%Q
  | _, _ => False
  end.

(** The frame number [k] of a film strip with [cols] columns, counting
    from the left of the first row. *)
Definition Filmstrip_frame {I} (image : I) (width height cols : Z) (k : nat)
  : Anim.Crop I :=
  Anim.mkCrop image (Z.of_nat k `mod` cols * width) (Z.of_nat k / cols * height)
              width height.

(** The two arguments [Filmstrip] makes for the cell number [k] of a grid
    of [c] columns. *)
Definition strip_cell {I} (image : I) (width height : Z) (delay : Q) (c k : nat)
  : list (Anim.value (Anim.Crop I)) :=
  [Anim.Img (Anim.mkCrop image (Z.of_nat (k `mod` c) * width)
               (Z.of_nat (k / c) * height) width height);
   Anim.Num delay].

(** How many of the [len] cells from number [s] on are taken, when the
    loops are left at [frames]. *)
Definition taken (frames : Z) (s len : nat) : nat :=
  if (Z.of_nat s <? frames) && (frames <=? Z.of_nat (s + len))
  then (Z.to_nat frames - s)%nat else len.

(** What holds of every machine made by the constructor and kept by
    [render]: the cache is filled only while the walk is on an edge. *)
Definition cache_of_edge {D F T V} (sm : Anim.SMAnimation D F T V) : Prop :=
  Anim.sm_edge sm = None → Anim.sm_edge_cache sm = None.

(** *** Where rational and binary floating-point arithmetic agree

    The times of the model are rationals and its arithmetic is exact; the
    times of the program are binary64 numbers.  [ticks k q] says that [q]
    is [n / 2^k] for an integer [n] with [|n| <= 2^50], and [k <= 1000].
    Such a number is a binary64 value (and, when whole, a Python [int]
    below [2^53]); sums and differences of two of them have a numerator
    below [2^53] and are computed by binary64 without rounding, the
    remainder of a division is always exact, and so are comparisons.  The
    properties of sums of delays are stated for such numbers. *)
Definition ticks (k : nat) (q : Q) : bool :=
  (k <=? 1000)%nat
  && ((Qnum q * 2 ^ Z.of_nat k) `mod` Z.pos (Qden q) =? 0)
  && (Z.abs (Qnum q * 2 ^ Z.of_nat k / Z.pos (Qden q)) <=? 2 ^ 50).

(** Every delay of the machine, listed or current, and the start of its
    current edge are such numbers. *)
Definition ticking {D F T V} (k : nat) (sm : Anim.SMAnimation D F T V) : bool :=
  forallb (λ kl, forallb (λ e, ticks k (Anim.e_delay e)) kl.2)
          (map_to_list (Anim.sm_edges sm))
  && from_option (λ e, ticks k (Anim.e_delay e)) true (Anim.sm_edge sm)
  && from_option (ticks k) true (Anim.sm_edge_start sm).

(** An [int] position that Python 2 keeps as an [int] on every platform
    and binary64 represents exactly. *)
Definition small_int (a : Layout.pos) : Prop :=
  match a with
  | Layout.PInt z => - 2 ^ 31 < z < 2 ^ 31
  | _ => True
  end.

Section Sampling.
Context {D S P : Type} `{!Layout.Displayable D S}.
Import Layout.

(** [result], what a [render] of a motion (in the state [before]) gave, is
    what [render] gives when it calls the function [f] at the progress [p]
    and draws [child]: the style holds the two or four values of [f p],
    and the render is the child's, blitted at (0, 0); a result of [f] of
    another length is the ValueError of the unpacking. *)
Definition samples (f : Q → list P) (child : option D) (p : Q)
    (before : Motion D P) (w h : Z) (st at_ : Q)
    (result : Motion D P * list Q * outcome (Render S)) : Prop :=
  let drawn :=
    match render_child child w h st at_ with
    | Return surf => Return (blit (mkRender (get_size surf) []) surf (0, 0))
    | Raise e => Raise e
    end in
  match f p with
  | [x; y] =>
      xpos result.1.1 = Some x ∧ ypos result.1.1 = Some y
      ∧ xanchor result.1.1 = xanchor before
      ∧ yanchor result.1.1 = yanchor before
      ∧ result.2 = drawn
  | [x; y; xa; ya] =>
      xpos result.1.1 = Some x ∧ ypos result.1.1 = Some y
      ∧ xanchor result.1.1 = Some xa ∧ yanchor result.1.1 = Some ya
      ∧ result.2 = drawn
  | _ => result.2 = Raise ValueError
  end.

End Sampling.

(** The arguments of [LiveComposite] after [size], from the pairs of a
    position and a widget. *)
Definition live_args {W P} (pairs : list ((P * P) * Layout.live_arg W P))
  : list (Layout.live_arg W P) :=
  flat_map (λ pw, [Layout.LPos pw.1.1 pw.1.2; pw.2]) pairs.

End Notions.

(** * Properties *)

(** ** ui.close *)

Section UiFacts.
Import Ui.

Lemma pop_snoc {A} (l : list A) (x : A) : pop (l ++ [x]) = Some (l, x).
Proof.
  induction l as [|y l IH]; simpl; [done|]. by rewrite IH.
Qed.

Lemma pop_None {A} (l : list A) : pop l = None ↔ l = [].
Proof.
  destruct l as [|x l]; simpl; [done|].
  split; [|done]. destruct (pop l) as [[? ?]|]; done.
Qed.

Lemma close_empty (s : state) :
  current_stack s = [] → close s = (s, Raise (Exception msg_last)).
Proof. intros E. unfold close. by rewrite E. Qed.

Lemma close_once (s : state) :
  current_stack s ≠ [] → current_once s = true →
  close s = (s, Raise (Exception msg_expecting)).
Proof.
  intros Hne Ho. unfold close.
  destruct (pop (current_stack s)) as [[rest top]|] eqn:E.
  - by rewrite Ho.
  - by apply pop_None in E.
Qed.

(** What a successful [add(w, True, once)] leaves behind. *)
Lemma add_make_current (w : nat) (once : bool) (s s' : state) (r : nat) :
  add w true once s = (s', Return r) →
  current s' = Widget w ∧ current_once s' = once ∧
  ∃ below parent, current_stack s' = below ++ [parent].
Proof.
  unfold add. simpl.
  destruct (current_once s); simpl.
  - unfold close; simpl.
    destruct (pop (current_stack s)) as [[rest top]|]; simpl; [|done].
    intros [= <- <-]; simpl. eauto.
  - intros [= <- <-]; simpl. eauto.
Qed.

(** What a successful [add] leaves in the single-use flag. *)
Lemma add_sets_flag (w : nat) (mc once : bool) (s s' : state) (r : nat) :
  add w mc once s = (s', Return r) → current_once s' = once.
Proof.
  unfold add. simpl.
  destruct (current_once s); simpl.
  - unfold close; simpl.
    destruct (pop (current_stack s)) as [[rest top]|]; simpl; [|done].
    destruct mc; by intros [= <- <-].
  - destruct mc; by intros [= <- <-].
Qed.

(** C10, as the code has it.  What [ui.close()] looks at is the stack and
    the single-use flag, not the widgets.  It raises, and leaves [current],
    the stack and the flag as they were, when the stack is empty and when
    the flag [current_once] is set; otherwise it pops one entry.  The flag
    is set by [add(w, True, True)], as [ui.window], [ui.button] and
    [ui.sizer] do, so that a [close] right after it raises; the next [add]
    that returns, to whatever widget is current then, leaves the flag as
    its own [once] says. *)
Theorem close_refuses_pending_widget :
  (∀ s, current_stack s = [] → close s = (s, Raise (Exception msg_last))) ∧
  (∀ s, current_stack s ≠ [] → current_once s = true →
        close s = (s, Raise (Exception msg_expecting))) ∧
  (∀ s rest top, current_stack s = rest ++ [top] → current_once s = false →
        close s = (mkState top rest false (added s) (cleared s), Return tt)) ∧
  (∀ s w s' r, add w true true s = (s', Return r) →
        current s' = Widget w ∧ current_once s' = true ∧
        close s' = (s', Raise (Exception msg_expecting))) ∧
  (∀ s w mc once s' r, add w mc once s = (s', Return r) → current_once s' = once).
Proof.
  split; [exact close_empty|]. split; [exact close_once|].
  split; [|split].
  - intros s rest top Hs Ho. unfold close. by rewrite Hs, pop_snoc, Ho.
  - intros s w s' r Hadd.
    destruct (add_make_current _ _ _ _ _ Hadd) as (Hc & Ho & below & parent & Hs).
    split; [done|]. split; [done|]. apply close_once; [|done].
    rewrite Hs. by destruct below.
  - intros s w mc once s' r. apply add_sets_flag.
Qed.

Lemma close_refuses_pending_widget_witness :
  let s := (window 7 initial).1 in
  current s = Widget 7%nat ∧ current_stack s = [Layer "transient"] ∧
  close s = (s, Raise (Exception msg_expecting)).
Proof.
  destruct close_refuses_pending_widget as (_ & _ & _ & H & _).
  destruct (H initial 7%nat (window 7 initial).1 7%nat eq_refl) as (Hc & _ & Hr).
  split; [exact Hc|]. split; [reflexivity|exact Hr].
Defined.

(** C10, as stated, fails when a widget is reopened while a single-use
    widget waits for its child: after [ui.window()] (widget 7),
    [ui.reopen(w8, False)] and [ui.add(w9)], the child went into widget 8,
    which was closed with it; the window is current again, it has no child,
    and [ui.close()] returns and pops it. *)
Lemma close_pops_unfilled_window :
  let s1 := (window 7 initial).1 in
  let s2 := reopen 8 false s1 in
  let s3 := (add 9 false false s2).1 in
  (window 7 initial).2 = Return 7%nat
  ∧ current s1 = Widget 7%nat ∧ current_once s1 = true
  ∧ (add 9 false false s2).2 = Return 9%nat
  ∧ added s3 = [(Layer "transient", 7%nat); (Widget 8%nat, 9%nat)]
  ∧ current s3 = Widget 7%nat ∧ current_stack s3 = [Layer "transient"]
  ∧ close s3 = (mkState (Layer "transient") [] false (added s3) [], Return tt).
Proof. repeat split; reflexivity. Qed.

End UiFacts.

(** ** Loops over [range] *)

Section RangeFacts.

Lemma range_of_nat (n : nat) : range (Z.of_nat n) = Z.of_nat <$> seq 0 n.
Proof. unfold range. by rewrite Nat2Z.id. Qed.

Lemma range_to_nat (n : Z) : range n = range (Z.of_nat (Z.to_nat n)).
Proof. unfold range. by rewrite Nat2Z.id. Qed.

Lemma foldl_ext_in {A B} (f g : A → B → A) (l : list B) (a : A) :
  (∀ a x, x ∈ l → f a x = g a x) → foldl f a l = foldl g a l.
Proof.
  revert a. induction l as [|x l IH]; intros a Hfg; simpl; [done|].
  rewrite Hfg by left. apply IH. intros a' y Hy. apply Hfg. by right.
Qed.

Lemma foldl_fmap_list {A B C} (f : A → B → A) (g : C → B) (l : list C) (a : A) :
  foldl f a (g <$> l) = foldl (λ a x, f a (g x)) a l.
Proof. revert a. induction l as [|x l IH]; intros a; simpl; [done|]. apply IH. Qed.

(** A loop over the rows with a loop over the columns inside visits the
    cells in the order of their row-major numbers. *)
Lemma nested_range_flat {A} (f : Z → A → Z → A) (c r : nat) (a : A) :
  foldl (λ acc y, foldl (f y) acc (range (Z.of_nat c))) a (range (Z.of_nat r))
  = foldl (λ acc k, f (Z.of_nat (k / c)) acc (Z.of_nat (k `mod` c))) a
          (seq 0 (r * c)).
Proof.
  induction r as [|r IH].
  - done.
  - rewrite (range_of_nat (S r)), seq_S, fmap_app, foldl_app.
    rewrite <- (range_of_nat r), IH.
    rewrite Nat.mul_succ_l, seq_app, foldl_app.
    set (a' := foldl _ a (seq 0 (r * c))). clearbody a'.
    cbn [fmap list_fmap foldl Nat.add].
    rewrite range_of_nat, foldl_fmap_list.
    replace (seq (r * c) c) with (Nat.add (r * c) <$> seq 0 c)
      by (rewrite fmap_add_seq; f_equal; lia).
    rewrite foldl_fmap_list.
    apply foldl_ext_in. intros b x Hx.
    apply elem_of_seq in Hx.
    assert (c ≠ 0)%nat by lia.
    replace (r * c + x)%nat with (x + r * c)%nat by lia.
    rewrite Nat.div_add, Nat.Div0.mod_add by done.
    rewrite Nat.div_small, Nat.mod_small by lia. done.
Qed.

Lemma nested_range_flat_Z {A} (f : Z → A → Z → A) (cols rows : Z) (a : A) :
  foldl (λ acc y, foldl (f y) acc (range cols)) a (range rows)
  = foldl (λ acc k, f (Z.of_nat (k / Z.to_nat cols)) acc
                      (Z.of_nat (k `mod` Z.to_nat cols))) a
          (seq 0 (Z.to_nat rows * Z.to_nat cols)).
Proof.
  rewrite (range_to_nat rows).
  erewrite (foldl_ext_in _ (λ acc y, foldl (f y) acc
                                       (range (Z.of_nat (Z.to_nat cols))))).
  2:{ intros. by rewrite <- range_to_nat. }
  apply nested_range_flat.
Qed.

End RangeFacts.

(** ** Grid *)

Section GridFacts.
Context {D S : Type} `{!Layout.Displayable D S}.
Import Layout Notions.

Lemma column_major_lt (c r k : nat) :
  (k < r * c → column_major c r k < r * c)%nat.
Proof.
  intros Hk. unfold column_major.
  assert (c ≠ 0)%nat by lia.
  pose proof (Nat.mod_upper_bound k c ltac:(done)).
  assert (k / c < r)%nat by (apply Nat.Div0.div_lt_upper_bound; lia).
  nia.
Qed.

Lemma column_major_inj (c r k k' : nat) :
  (k < r * c)%nat → (k' < r * c)%nat →
  column_major c r k = column_major c r k' → k = k'.
Proof.
  intros Hk Hk' E. unfold column_major in E.
  assert (c ≠ 0)%nat by lia.
  pose proof (Nat.mod_upper_bound k c ltac:(done)).
  pose proof (Nat.mod_upper_bound k' c ltac:(done)).
  assert (k / c < r)%nat by (apply Nat.Div0.div_lt_upper_bound; lia).
  assert (k' / c < r)%nat by (apply Nat.Div0.div_lt_upper_bound; lia).
  rewrite (Nat.div_mod_eq k c), (Nat.div_mod_eq k' c).
  assert (k `mod` c = k' `mod` c)%nat by nia.
  assert (k / c = k' / c)%nat by nia.
  congruence.
Qed.

Lemma transposition_inj (c r : nat) : Inj (=) (=) (transposition c r).
Proof.
  intros k k'. unfold transposition.
  repeat case_decide; intros E.
  - by apply (column_major_inj c r).
  - pose proof (column_major_lt c r k). lia.
  - pose proof (column_major_lt c r k'). lia.
  - done.
Qed.

(** The copy loop, cell by cell: after the first [m] cells, these hold the
    children of their column-major numbers and the others are untouched. *)
Lemma transpose_prefix (old : list D) (c r m : nat) :
  length old = (r * c)%nat → (m ≤ r * c)%nat →
  ∃ cur,
    foldl (λ acc k, transpose_cell (Z.of_nat c) (Z.of_nat r) old
                      (Z.of_nat (k / c)) acc (Z.of_nat (k `mod` c)))
          (old, true) (seq 0 m) = (cur, true)
    ∧ length cur = length old
    ∧ (∀ k, (k < m)%nat → cur !! k = old !! column_major c r k)
    ∧ (∀ k, (m ≤ k)%nat → cur !! k = old !! k).
Proof.
  intros Hlen. induction m as [|m IH]; intros Hm.
  - exists old. split; [done|]. split; [done|]. split; [intros; lia | done].
  - destruct IH as (cur & Hfold & Hl & Hlt & Hge); [lia|].
    rewrite seq_S, foldl_app, Hfold. simpl.
    assert (c ≠ 0)%nat by lia.
    pose proof (column_major_lt c r m ltac:(lia)) as Hcm.
    unfold column_major in Hcm.
    unfold index, setitem.
    replace (Z.of_nat (m / c) + Z.of_nat (m `mod` c) * Z.of_nat r)
      with (Z.of_nat (column_major c r m)) by (unfold column_major; lia).
    replace (Z.of_nat (m `mod` c) + Z.of_nat (m / c) * Z.of_nat c)
      with (Z.of_nat m) by (rewrite (Nat.div_mod_eq m c) at 1; lia).
    destruct (Z.ltb_spec (Z.of_nat (column_major c r m)) 0); [lia|].
    destruct (Z.ltb_spec (Z.of_nat m) 0); [lia|].
    rewrite !Nat2Z.id.
    destruct (old !! column_major c r m) as [v|] eqn:Ev.
    2:{ apply lookup_ge_None in Ev. unfold column_major in Ev. lia. }
    destruct (Nat.ltb_spec m (length cur)); [|lia].
    exists (<[m := v]> cur). split; [done|].
    split; [by rewrite length_insert|].
    split.
    + intros k Hk. destruct (decide (k = m)) as [->|Hne].
      * rewrite list_lookup_insert_eq by lia. done.
      * rewrite list_lookup_insert_ne by done. apply Hlt. lia.
    + intros k Hk. rewrite list_lookup_insert_ne by lia. apply Hge. lia.
Qed.

(** The transposition of a full grid: no index goes out of range, and the
    child at row-major number [k] afterwards is the one that was at the
    column-major number of the same cell. *)
Lemma transpose_children_spec (cols rows : Z) (old : list D) :
  Z.of_nat (length old) = cols * rows →
  ∃ new,
    transpose_children cols rows old = (new, true)
    ∧ length new = length old
    ∧ (∀ k, (k < Z.to_nat rows * Z.to_nat cols)%nat →
            new !! k = old !! column_major (Z.to_nat cols) (Z.to_nat rows) k)
    ∧ (∀ k, (Z.to_nat rows * Z.to_nat cols ≤ k)%nat → new !! k = old !! k).
Proof.
  intros Hlen. unfold transpose_children.
  rewrite (range_to_nat rows).
  erewrite (foldl_ext_in _ (λ acc y, foldl (transpose_cell cols rows old y) acc
                                       (range (Z.of_nat (Z.to_nat cols))))).
  2:{ intros. by rewrite <- range_to_nat. }
  rewrite (nested_range_flat (transpose_cell cols rows old)).
  destruct (decide (Z.to_nat rows * Z.to_nat cols = 0)%nat) as [E0|Hpos].
  - rewrite E0. simpl. exists old. split; [done|]. split; [done|]. split; [intros; lia | done].
  - assert (cols = Z.of_nat (Z.to_nat cols)) as Ec by lia.
    assert (rows = Z.of_nat (Z.to_nat rows)) as Er by lia.
    set (c := Z.to_nat cols) in *. set (r := Z.to_nat rows) in *.
    clearbody c r. subst cols rows.
    destruct (transpose_prefix old c r (r * c)%nat)
      as (cur & Hf & Hl & Hlt & Hge); [nia | lia |].
    exists cur. done.
Qed.

Lemma transpose_children_perm (cols rows : Z) (old new : list D) (ok : bool) :
  Z.of_nat (length old) = cols * rows →
  transpose_children cols rows old = (new, ok) → new ≡ₚ old.
Proof.
  intros Hlen Htr.
  destruct (transpose_children_spec cols rows old Hlen)
    as (new' & E & Hl & Hlt & Hge).
  rewrite Htr in E. injection E as -> ->.
  apply Permutation_inj. split; [done|].
  exists (transposition (Z.to_nat cols) (Z.to_nat rows)).
  split; [apply transposition_inj|].
  intros i. unfold transposition. case_decide; [by apply Hlt | apply Hge; lia].
Qed.

(** The children and the flag that [render] leaves in a full grid. *)
Lemma Grid_render_children (g : Grid D) (w h : Z) (st at_ : Q) :
  Z.of_nat (length (children (g_base g))) = cols g * rows g →
  let g' := (Grid_render g w h st at_).1 in
  children (g_base g') =
    (if transpose g
     then (transpose_children (cols g) (rows g) (children (g_base g))).1
     else children (g_base g))
  ∧ transpose g' = false ∧ cols g' = cols g ∧ rows g' = rows g.
Proof.
  intros Hlen. unfold Grid_render.
  apply Z.eqb_eq in Hlen. rewrite Hlen. simpl.
  destruct (if transpose g then _ else _) as [kids ok] eqn:Ek.
  assert (kids = if transpose g
                 then (transpose_children (cols g) (rows g) (children (g_base g))).1
                 else children (g_base g)) as Hk.
  { destruct (transpose g); [by rewrite Ek | by injection Ek]. }
  rewrite <- Hk. clear Ek Hk.
  repeat (case_match; simpl; try done).
Qed.

(** A grid whose flag is off keeps its children through [render]. *)
Lemma Grid_render_keeps (g : Grid D) (w h : Z) (st at_ : Q) :
  transpose g = false →
  let g' := (Grid_render g w h st at_).1 in
  children (g_base g') = children (g_base g) ∧ transpose g' = false
  ∧ cols g' = cols g ∧ rows g' = rows g.
Proof.
  intros Ht.
  destruct (decide (Z.of_nat (length (children (g_base g))) = cols g * rows g))
    as [Hlen|Hne].
  - pose proof (Grid_render_children g w h st at_ Hlen) as Hr.
    rewrite Ht in Hr. exact Hr.
  - unfold Grid_render. apply Z.eqb_neq in Hne. rewrite Hne. simpl. done.
Qed.

(** Any number of further [render] calls. *)
Lemma Grid_renders_keep (calls : list (Z * Z * Q * Q)) (g : Grid D) :
  transpose g = false →
  let g' := foldl (λ g '(w, h, st, at_), (Grid_render g w h st at_).1) g calls in
  children (g_base g') = children (g_base g) ∧ transpose g' = false.
Proof.
  revert g. induction calls as [|[[[w h] st] at_] calls IH]; intros g Ht; simpl.
  - done.
  - destruct (Grid_render_keeps g w h st at_ Ht) as (Hc & Ht' & _).
    destruct (IH _ Ht') as [Hc' Ht'']. simpl in *. split; congruence.
Qed.

(** C6.  [Grid.render] on a grid whose number of children is not
    [cols * rows] raises the exception "Grid not completely full." and
    nothing else happens: the grid, with its list of children, its
    transposition flag and its offsets and sizes, is as before, whatever the
    children and the arguments are. *)
Theorem Grid_render_not_full (g : Grid D) (w h : Z) (st at_ : Q) :
  Z.of_nat (length (children (g_base g))) ≠ cols g * rows g →
  Grid_render g w h st at_ = (g, Raise (Exception msg_grid)).
Proof.
  intros Hne. unfold Grid_render.
  apply Z.eqb_neq in Hne. by rewrite Hne.
Qed.

(** C7.  The first [render] of a grid made with [transpose=True] and holding
    exactly [cols * rows] children rearranges the children: the result is a
    permutation of the list, the child of column [x] and row [y] (row-major
    number [x + y * cols]) is the child that was added at the column-major
    number [y + x * rows], and the flag is cleared.  Every later [render]
    leaves the order of the children as it is. *)
Theorem Grid_transpose_once (g : Grid D) (w h : Z) (st at_ : Q) :
  transpose g = true →
  Z.of_nat (length (children (g_base g))) = cols g * rows g →
  let g1 := (Grid_render g w h st at_).1 in
  transpose g1 = false
  ∧ children (g_base g1) ≡ₚ children (g_base g)
  ∧ (∀ x y, 0 ≤ x < cols g → 0 ≤ y < rows g →
       index (children (g_base g1)) (x + y * cols g)
       = index (children (g_base g)) (y + x * rows g))
  ∧ (∀ calls : list (Z * Z * Q * Q),
       let gn := foldl (λ g '(w, h, st, at_), (Grid_render g w h st at_).1)
                       g1 calls in
       children (g_base gn) = children (g_base g1) ∧ transpose gn = false).
Proof.
  intros Ht Hlen.
  destruct (Grid_render_children g w h st at_ Hlen) as (Hc & Ht1 & _).
  rewrite Ht in Hc. simpl.
  destruct (transpose_children_spec _ _ _ Hlen) as (new & E & Hl & Hlt & _).
  rewrite E in Hc. simpl in Hc.
  split; [done|]. split; [|split].
  - rewrite Hc. by apply (transpose_children_perm (cols g) (rows g) _ _ true).
  - intros x y Hx Hy. rewrite Hc. unfold index.
    destruct (Z.ltb_spec (x + y * cols g) 0); [nia|].
    destruct (Z.ltb_spec (y + x * rows g) 0); [nia|].
    rewrite Hlt by nia.
    f_equal. unfold column_major.
    assert (Z.to_nat (x + y * cols g) = Z.to_nat x + Z.to_nat y * Z.to_nat (cols g))%nat
      as -> by nia.
    rewrite Nat.div_add, Nat.Div0.mod_add by lia.
    rewrite Nat.div_small, Nat.mod_small by lia. nia.
  - intros calls. by apply Grid_renders_keep.
Qed.

End GridFacts.

(** ** Offsets and sizes *)

Section CacheFacts.
Context {D S : Type} `{!Layout.Displayable D S}.
Import Layout Notions.

Lemma Fixed_loop_lengths (t : Q) (w h : Z) (l : list (D * (Q * Q)))
    (offs szs : list (Z * Z)) (rv : Render S) :
  let '(offs', szs', _) := foldl (Fixed_step t w h) (offs, szs, rv) l in
  length offs' = (length offs + length l)%nat
  ∧ length szs' = (length szs + length l)%nat.
Proof.
  revert offs szs rv. induction l as [|[d [s a]] l IH]; intros offs szs rv; simpl.
  - lia.
  - destruct (render d w h (t - s)%Q (t - a)%Q) as [surf|]; simpl.
    + specialize (IH (offs ++ [place d 0 0 w h surf]) (szs ++ [get_size surf])
                     (blit rv surf (place d 0 0 w h surf))).
      destruct (foldl _ _ l) as [[offs' szs'] rv'].
      rewrite !length_app in IH. simpl in IH. lia.
    + specialize (IH (offs ++ [(0, 0)]) (szs ++ [(0, 0)]) rv).
      destruct (foldl _ _ l) as [[offs' szs'] rv'].
      rewrite !length_app in IH. simpl in IH. lia.
Qed.

Lemma Fixed_render_lengths (ft it : Q) (f : Fixed D) (w h : Z) (st at_ : Q) :
  Fixed_wf f →
  let f' := (Fixed_render ft it f w h st at_).1 in
  children (f_base f') = children (f_base f)
  ∧ length (offsets (f_base f')) = length (children (f_base f))
  ∧ length (sizes (f_base f')) = length (children (f_base f))
  ∧ Fixed_wf f'.
Proof.
  intros [Hs Ha]. unfold Fixed_render.
  pose proof (Fixed_loop_lengths ft w h
    (zip (children (f_base f))
         (zip (or_time it <$> start_times f) (or_time it <$> anim_times f)))
    [] [] (mkRender (w, h) [])) as Hl.
  destruct (foldl _ _ _) as [[offs szs] rv]. simpl in *.
  rewrite length_zip_with_l in Hl.
  2:{ rewrite length_zip_with, !length_fmap. lia. }
  split; [done|]. split; [lia|]. split; [lia|].
  unfold Fixed_wf. simpl. rewrite !length_fmap. done.
Qed.

Lemma Fixed_add_wf (f : Fixed D) (widget : option D) (s a : option Q) :
  Fixed_wf f → Fixed_wf (Fixed_add f widget s a).
Proof.
  intros [Hs Ha]. unfold Fixed_wf, Fixed_add. simpl.
  rewrite !length_app. destruct widget; simpl; rewrite ?length_app; simpl; lia.
Qed.

Lemma Fixed_init_wf : Fixed_wf (@Fixed_init D).
Proof. split; simpl; lia. Qed.

Lemma measure_h_lengths (height padding : Z) (st at_ : Q) (l : list D)
    (a : measure S) :
  let a' := foldl (measure_h height padding st at_) a l in
  ms_exn a' = None →
  ms_exn a = None
  ∧ length (ms_sizes a') = (length (ms_sizes a) + length l)%nat
  ∧ length (ms_surfaces a') = (length (ms_surfaces a) + length l)%nat
  ∧ length (ms_offsets a') = (length (ms_offsets a) + length l)%nat.
Proof.
  revert a. induction l as [|i l IH]; intros a; simpl.
  - intros E. split; [done|lia].
  - intros Hn. destruct (IH _ Hn) as (H1 & Hsz & Hsf & Hof).
    rewrite Hsz, Hsf, Hof. clear Hn Hsz Hsf Hof IH.
    unfold measure_h in *. destruct (ms_exn a) eqn:Ea; [simpl in H1; congruence|].
    destruct (render i (ms_rem a) height st at_) as [surf|]; [|done].
    destruct (get_size surf). simpl. rewrite !length_app. simpl.
    split; [done|lia].
Qed.

Lemma measure_v_lengths (width padding : Z) (st at_ : Q) (l : list D)
    (a : measure S) :
  let a' := foldl (measure_v width padding st at_) a l in
  ms_exn a' = None →
  ms_exn a = None
  ∧ length (ms_sizes a') = (length (ms_sizes a) + length l)%nat
  ∧ length (ms_surfaces a') = (length (ms_surfaces a) + length l)%nat
  ∧ length (ms_offsets a') = (length (ms_offsets a) + length l)%nat.
Proof.
  revert a. induction l as [|i l IH]; intros a; simpl.
  - intros E. split; [done|lia].
  - intros Hn. destruct (IH _ Hn) as (H1 & Hsz & Hsf & Hof).
    rewrite Hsz, Hsf, Hof. clear Hn Hsz Hsf Hof IH.
    unfold measure_v in *. destruct (ms_exn a) eqn:Ea; [simpl in H1; congruence|].
    destruct (render i width (ms_rem a) st at_) as [surf|]; [|done].
    destruct (get_size surf). simpl. rewrite !length_app. simpl.
    split; [done|lia].
Qed.

Lemma place_loop_lengths (step : Render S * list (Z * Z) → S * (D * Z) →
                                 Render S * list (Z * Z))
    (l : list (S * (D * Z))) (rv : Render S) (offs : list (Z * Z)) :
  (∀ rv offs item, length (step (rv, offs) item).2 = Datatypes.S (length offs)) →
  length (foldl step (rv, offs) l).2 = (length offs + length l)%nat.
Proof.
  intros Hstep. revert rv offs. induction l as [|x l IH]; intros rv offs; simpl.
  - lia.
  - destruct (step (rv, offs) x) as [rv1 offs1] eqn:E.
    rewrite IH. pose proof (Hstep rv offs x) as Hx. rewrite E in Hx.
    simpl in Hx. lia.
Qed.

Lemma place_h_length (my : Z) (rv : Render S) (offs : list (Z * Z))
    (item : S * (D * Z)) :
  length (place_h my (rv, offs) item).2 = Datatypes.S (length offs).
Proof.
  destruct item as [surf [d xo]]. unfold place_h. destruct (get_size surf).
  simpl. rewrite length_app. simpl. lia.
Qed.

Lemma place_v_length (my : Z) (rv : Render S) (offs : list (Z * Z))
    (item : S * (D * Z)) :
  length (place_v my (rv, offs) item).2 = Datatypes.S (length offs).
Proof.
  destruct item as [surf [d xo]]. unfold place_v. destruct (get_size surf).
  simpl. rewrite length_app. simpl. lia.
Qed.

Lemma MultiBox_render_lengths (m m' : MultiBox D) (w h : Z) (st at_ : Q)
    (rv : Render S) :
  MultiBox_render m w h st at_ = (m', Return rv) →
  children (mb_base m') = children (mb_base m)
  ∧ length (offsets (mb_base m')) = length (children (mb_base m))
  ∧ length (sizes (mb_base m')) = length (children (mb_base m)).
Proof.
  unfold MultiBox_render. case_bool_decide.
  - set (a := foldl (measure_h _ _ _ _) _ _).
    pose proof (measure_h_lengths h (box_spacing m) st at_ (children (mb_base m))
                  (mkMeasure [] w 0 0 [] [] None)) as Hm.
    simpl in Hm. fold a in Hm. destruct (ms_exn a) eqn:Ex; [done|].
    destruct (Hm eq_refl) as (_ & Hsz & Hsf & Hof).
    destruct (foldl (place_h _) _ _) as [rv' offs] eqn:Ep.
    pose proof (place_loop_lengths (place_h (ms_cross a))
      (zip (ms_surfaces a) (zip (children (mb_base m)) (ms_offsets a)))
      (mkRender (ms_o a - box_spacing m, ms_cross a) []) []
      (place_h_length _)) as Hp.
    rewrite Ep in Hp. simpl in Hp.
    intros [= <- <-]. simpl.
    rewrite Hp, !length_zip_with. simpl in *. split; [done|lia].
  - set (a := foldl (measure_v _ _ _ _) _ _).
    pose proof (measure_v_lengths w (box_spacing m) st at_ (children (mb_base m))
                  (mkMeasure [] h 0 0 [] [] None)) as Hm.
    simpl in Hm. fold a in Hm. destruct (ms_exn a) eqn:Ex; [done|].
    destruct (Hm eq_refl) as (_ & Hsz & Hsf & Hof).
    destruct (foldl (place_v _) _ _) as [rv' offs] eqn:Ep.
    pose proof (place_loop_lengths (place_v (ms_cross a))
      (zip (ms_surfaces a) (zip (children (mb_base m)) (ms_offsets a)))
      (mkRender (ms_cross a, ms_o a - box_spacing m) []) []
      (place_v_length _)) as Hp.
    rewrite Ep in Hp. simpl in Hp.
    intros [= <- <-]. simpl.
    rewrite Hp, !length_zip_with. simpl in *. split; [done|lia].
Qed.

Lemma render_all_length (l : list D) (w h : Z) (st at_ : Q) (ss : list S) :
  render_all l w h st at_ = Return ss → length ss = length l.
Proof.
  revert ss. induction l as [|d l IH]; intros ss; simpl.
  - by intros [= <-].
  - destruct (render d w h st at_); [|done].
    destruct (render_all l w h st at_) as [ss'|]; [|done].
    intros [= <-]. simpl. f_equal. by apply IH.
Qed.

Lemma Grid_place_sticky {K} (kids : list D) (renders : list S)
    (cols cw ch pad : Z) (fy fx : K → Z) (l : list K)
    (rv : Render S) (offs : list (Z * Z)) :
  (foldl (λ acc k, Grid_place_cell kids renders cols cw ch pad (fy k) acc (fx k))
         (rv, offs, false) l).2 = false.
Proof. induction l as [|k l IH]; [done|]. exact IH. Qed.

Lemma Grid_place_lengths {K} (kids : list D) (renders : list S)
    (cols cw ch pad : Z) (fy fx : K → Z) (l : list K)
    (rv rv' : Render S) (offs offs' : list (Z * Z)) (ok : bool) :
  foldl (λ acc k, Grid_place_cell kids renders cols cw ch pad (fy k) acc (fx k))
        (rv, offs, ok) l = (rv', offs', true) →
  length offs' = (length offs + length l)%nat.
Proof.
  revert rv offs ok. induction l as [|k l IH]; intros rv offs ok; simpl.
  - intros [= _ <- _]. lia.
  - destruct ok.
    + destruct (index kids (fx k + fy k * cols)) as [child|];
        [destruct (index renders (fx k + fy k * cols)) as [surf|]|].
      * simpl. intros E. apply IH in E. rewrite length_app in E. simpl in E. lia.
      * intros E.
        pose proof (Grid_place_sticky kids renders cols cw ch pad fy fx l rv offs) as Hs.
        rewrite E in Hs. done.
      * intros E.
        pose proof (Grid_place_sticky kids renders cols cw ch pad fy fx l rv offs) as Hs.
        rewrite E in Hs. done.
    + intros E.
      pose proof (Grid_place_sticky kids renders cols cw ch pad fy fx l rv offs) as Hs.
      rewrite E in Hs. done.
Qed.

Lemma Grid_render_lengths (g g' : Grid D) (w h : Z) (st at_ : Q) (rv : Render S) :
  0 ≤ cols g →
  Grid_render g w h st at_ = (g', Return rv) →
  length (offsets (g_base g')) = length (children (g_base g'))
  ∧ length (sizes (g_base g')) = length (children (g_base g')).
Proof.
  intros Hc Hr. unfold Grid_render in Hr.
  destruct (Z.eqb_spec (Z.of_nat (length (children (g_base g)))) (cols g * rows g))
    as [Hlen|]; simpl in Hr; [|done].
  destruct (if transpose g then _ else _) as [kids ok] eqn:Ek.
  assert (length kids = length (children (g_base g))) as Hk.
  { destruct (transpose g).
    - destruct (transpose_children_spec _ _ _ Hlen) as (new & E & Hl & _).
      rewrite E in Ek. by injection Ek as <- _.
    - by injection Ek as <- _. }
  destruct ok; simpl in Hr; [|done].
  destruct (if g_xfill g then _ else _) as [renwidth|]; [|done].
  destruct (if g_yfill g then _ else _) as [renheight|]; [|done].
  destruct (render_all kids renwidth renheight st at_) as [renders|] eqn:Er; [|done].
  apply render_all_length in Er.
  destruct (max_sizes _) as [cw0 ch0].
  rewrite nested_range_flat_Z in Hr.
  destruct (foldl _ _ _) as [[rv' offs] ok'] eqn:Ep.
  destruct ok'; [|done].
  apply Grid_place_lengths in Ep. rewrite length_seq in Ep. simpl in Ep.
  injection Hr as <- <-. simpl. rewrite length_fmap.
  split; [nia | lia].
Qed.

(** The containers of one child. *)
Lemma Container_render_single (c c' : Container D) (w h : Z) (st at_ : Q) (rv : S) :
  Container_render c w h st at_ = (c', Return rv) →
  children c' = children c
  ∧ offsets c' = [(0, 0)] ∧ sizes c' = [get_size rv].
Proof.
  unfold Container_render. destruct (child c) as [d|]; [|done].
  destruct (render d w h st at_); [|done]. by intros [= <- <-].
Qed.

Lemma Position_render_single (c c' : Container D) (w h : Z) (st at_ : Q) (rv : S) :
  Position_render c w h st at_ = (c', Return rv) →
  children c' = children c
  ∧ offsets c' = [(0, 0)] ∧ sizes c' = [get_size rv].
Proof.
  unfold Position_render. destruct (render_child _ _ _ _ _) as [s|]; [|done].
  destruct (get_size s) as [cw ch] eqn:E. intros [= <- <-]. by rewrite E.
Qed.

Lemma Motion_render_single {P} (m m' : Motion D P) (w h : Z) (st at_ : Q)
    (redraws : list Q) (rv : Render S) :
  Motion_render m w h st at_ = (m', redraws, Return rv) →
  m_children m' = m_children m
  ∧ length (m_offsets m') = 1%nat ∧ length (m_sizes m') = 1%nat.
Proof.
  unfold Motion_render.
  destruct (Motion_progress m st at_) as [rd [t|]]; [|done].
  destruct (function m t) as [|x [|y [|xa [|ya [|]]]]]; try done.
  - simpl. destruct (render_child _ _ _ _ _) as [s|]; [|done].
    destruct (get_size s). by intros [= <- <- <-].
  - simpl. destruct (render_child _ _ _ _ _) as [s|]; [|done].
    destruct (get_size s). by intros [= <- <- <-].
Qed.

(** Lists left by an earlier call are not read. *)
Lemma Fixed_render_stale (ft it : Q) (f : Fixed D) (offs szs : list (Z * Z))
    (w h : Z) (st at_ : Q) :
  Fixed_render ft it (Fixed_stale f offs szs) w h st at_
  = Fixed_render ft it f w h st at_.
Proof. done. Qed.

Lemma MultiBox_render_stale (m : MultiBox D) (offs szs : list (Z * Z))
    (w h : Z) (st at_ : Q) :
  MultiBox_render (MultiBox_stale m offs szs) w h st at_
  = MultiBox_render m w h st at_.
Proof. done. Qed.

Lemma Grid_render_stale (g g' : Grid D) (offs szs : list (Z * Z))
    (w h : Z) (st at_ : Q) (rv : Render S) :
  Grid_render g w h st at_ = (g', Return rv) →
  Grid_render (Grid_stale g offs szs) w h st at_ = (g', Return rv).
Proof.
  unfold Grid_render, Grid_stale. simpl.
  destruct (negb _); [done|].
  destruct (if transpose g then _ else _) as [kids ok].
  destruct ok; simpl; [|done].
  destruct (if g_xfill g then _ else _) as [renwidth|]; [|done].
  destruct (if g_yfill g then _ else _) as [renheight|]; [|done].
  destruct (render_all kids renwidth renheight st at_) as [renders|]; [|done].
  destruct (max_sizes _) as [cw0 ch0].
  destruct (foldl _ _ _) as [[rv' o] ok'].
  destruct ok'; [|done]. done.
Qed.

Lemma Container_render_stale (c c' : Container D) (offs szs : list (Z * Z))
    (w h : Z) (st at_ : Q) (rv : S) :
  Container_render c w h st at_ = (c', Return rv) →
  Container_render (Container_stale c offs szs) w h st at_ = (c', Return rv).
Proof.
  unfold Container_render, Container_stale. simpl.
  destruct (child c) as [d|]; [|done].
  destruct (render d w h st at_); [|done]. done.
Qed.

(** What the [render] methods leave in [offsets] and [sizes].  [Fixed],
    [MultiBox] and [Grid] (with a non-negative number of columns) leave,
    after every [render] that returns, one offset and one size for each
    child: the lengths of [offsets] and [sizes] are the number of children
    at that call, also when children were added since the call before (a
    [Fixed] keeps
    [Fixed_wf] through [add] and [render]).  The plain [Container], like
    [Position] and [Motion], leaves exactly one offset and one size, those
    of the child added last, however many children it holds.  In all of
    them the two lists are made anew: a [render] that returns leaves the
    same lists whatever the lists were before the call. *)
Theorem render_rebuilds_offsets_and_sizes :
  (∀ (ft it : Q) (f : Fixed D) (w h : Z) (st at_ : Q),
     Fixed_wf f →
     let f' := (Fixed_render ft it f w h st at_).1 in
     children (f_base f') = children (f_base f)
     ∧ length (offsets (f_base f')) = length (children (f_base f))
     ∧ length (sizes (f_base f')) = length (children (f_base f))
     ∧ Fixed_wf f')
  ∧ Fixed_wf (@Fixed_init D)
  ∧ (∀ (f : Fixed D) widget s a, Fixed_wf f → Fixed_wf (Fixed_add f widget s a))
  ∧ (∀ (m m' : MultiBox D) (w h : Z) (st at_ : Q) (rv : Render S),
       MultiBox_render m w h st at_ = (m', Return rv) →
       children (mb_base m') = children (mb_base m)
       ∧ length (offsets (mb_base m')) = length (children (mb_base m))
       ∧ length (sizes (mb_base m')) = length (children (mb_base m)))
  ∧ (∀ (g g' : Grid D) (w h : Z) (st at_ : Q) (rv : Render S),
       0 ≤ cols g →
       Grid_render g w h st at_ = (g', Return rv) →
       length (offsets (g_base g')) = length (children (g_base g'))
       ∧ length (sizes (g_base g')) = length (children (g_base g')))
  ∧ (∀ (c c' : Container D) (w h : Z) (st at_ : Q) (rv : S),
       Container_render c w h st at_ = (c', Return rv)
       ∨ Position_render c w h st at_ = (c', Return rv) →
       children c' = children c
       ∧ offsets c' = [(0, 0)] ∧ sizes c' = [get_size rv])
  ∧ (∀ (P : Type) (m m' : Motion D P) (w h : Z) (st at_ : Q) redraws
       (rv : Render S),
       Motion_render m w h st at_ = (m', redraws, Return rv) →
       m_children m' = m_children m
       ∧ length (m_offsets m') = 1%nat ∧ length (m_sizes m') = 1%nat)
  ∧ (∀ (offs szs : list (Z * Z)) (w h : Z) (st at_ : Q),
       (∀ ft it (f : Fixed D),
          Fixed_render ft it (Fixed_stale f offs szs) w h st at_
          = Fixed_render ft it f w h st at_)
       ∧ (∀ m : MultiBox D,
            MultiBox_render (MultiBox_stale m offs szs) w h st at_
            = MultiBox_render m w h st at_)
       ∧ (∀ (g g' : Grid D) rv,
            Grid_render g w h st at_ = (g', Return rv) →
            Grid_render (Grid_stale g offs szs) w h st at_ = (g', Return rv))
       ∧ (∀ (c c' : Container D) rv,
            Container_render c w h st at_ = (c', Return rv) →
            Container_render (Container_stale c offs szs) w h st at_
            = (c', Return rv))).
Proof.
  split; [exact Fixed_render_lengths|].
  split; [exact Fixed_init_wf|].
  split; [exact Fixed_add_wf|].
  split; [exact MultiBox_render_lengths|].
  split; [exact Grid_render_lengths|].
  split.
  { intros c c' w h st at_ rv [Hr|Hr];
      [by eapply Container_render_single | by eapply Position_render_single]. }
  split; [intros P; exact Motion_render_single|].
  intros offs szs w h st at_.
  split; [intros; apply Fixed_render_stale|].
  split; [intros; apply MultiBox_render_stale|].
  split; [intros; by apply Grid_render_stale|].
  intros; by apply Container_render_stale.
Qed.

End CacheFacts.

(** ** The layout properties on the sample objects *)

Section LayoutSamples.
Import Layout Notions Sample.

Example grid_3x2_transposed :
  children (g_base (Grid_render grid_3x2 640 480 0 0).1) = [1; 3; 5; 2; 4; 6]%nat.
Proof. reflexivity. Qed.

Lemma Grid_render_not_full_witness :
  Z.of_nat (length (children (g_base grid_short))) ≠ cols grid_short * rows grid_short
  ∧ Grid_render grid_short 640 480 0 0 = (grid_short, Raise (Exception msg_grid)).
Proof.
  assert (Z.of_nat (length (children (g_base grid_short)))
          ≠ cols grid_short * rows grid_short) as Hne by (simpl; lia).
  split; [exact Hne|]. exact (Grid_render_not_full grid_short 640 480 0 0 Hne).
Defined.

Lemma Grid_transpose_once_witness :
  transpose grid_3x2 = true
  ∧ Z.of_nat (length (children (g_base grid_3x2))) = cols grid_3x2 * rows grid_3x2
  ∧ let g1 := (Grid_render grid_3x2 640 480 0 0).1 in
    transpose g1 = false
    ∧ children (g_base g1) ≡ₚ children (g_base grid_3x2)
    ∧ (∀ x y, 0 ≤ x < cols grid_3x2 → 0 ≤ y < rows grid_3x2 →
         index (children (g_base g1)) (x + y * cols grid_3x2)
         = index (children (g_base grid_3x2)) (y + x * rows grid_3x2))
    ∧ (∀ calls : list (Z * Z * Q * Q),
         let gn := foldl (λ g '(w, h, st, at_), (Grid_render g w h st at_).1)
                         g1 calls in
         children (g_base gn) = children (g_base g1) ∧ transpose gn = false).
Proof.
  split; [reflexivity|]. split; [reflexivity|].
  exact (Grid_transpose_once grid_3x2 640 480 0 0 eq_refl eq_refl).
Defined.

(** C1 on the plain container.  The class documents [offsets] as a list
    giving offsets for each of its children, which [render] is expected to
    set up at each call; but [Container(1, 2)] holds two children, its
    [render] returns, and [offsets] and [sizes] have one entry each. *)
Lemma Container_render_two_children :
  let r := Container_render container_pair 640 480 0 0 in
  r.2 = Return (2, 2)
  ∧ length (children r.1) = 2%nat
  ∧ length (offsets r.1) = 1%nat
  ∧ length (sizes r.1) = 1%nat
  ∧ ¬ (length (offsets r.1) = length (sizes r.1)
       ∧ length (sizes r.1) = length (children r.1)).
Proof.
  simpl. repeat split; try reflexivity. intros [_ E]. discriminate E.
Qed.

Lemma render_rebuilds_offsets_and_sizes_witness :
  Fixed_wf fixed_pair
  ∧ let f1 := (Fixed_render 5 1 fixed_pair 640 480 0 0).1 in
    let f2 := Fixed_add f1 (Some 3%nat) None None in
    let f3 := (Fixed_render 6 1 f2 640 480 0 0).1 in
    length (children (f_base f3)) = 3%nat
    ∧ length (offsets (f_base f3)) = 3%nat
    ∧ length (sizes (f_base f3)) = 3%nat.
Proof.
  destruct (@render_rebuilds_offsets_and_sizes nat (Z * Z) square)
    as (Hrender & Hinit & Hadd & _).
  assert (Fixed_wf fixed_pair) as Hwf.
  { unfold fixed_pair. apply Hadd, Hadd, Hinit. }
  split; [exact Hwf|].
  destruct (Hrender 5%Q 1%Q fixed_pair 640 480 0%Q 0%Q Hwf) as (_ & _ & _ & Hwf1).
  destruct (Hrender 6%Q 1%Q _ 640 480 0%Q 0%Q
              (Hadd _ (Some 3%nat) None None Hwf1)) as (Hc & Ho & Hs & _).
  cbv zeta.
  split; [rewrite Hc; reflexivity|].
  split; [rewrite Ho; reflexivity | rewrite Hs; reflexivity].
Defined.

End LayoutSamples.

(** ** Comparisons on times *)

Section TimeFacts.

Lemma Qltb_true (x y : Q) : Qltb x y = true ↔ (x < y)%Q.
Proof.
  unfold Qltb. destruct (Qlt_le_dec x y) as [Hl|Hl]; split; try done.
  intros Hlt. exfalso. by apply (Qlt_not_le x y).
Qed.

Lemma Qltb_false (x y : Q) : Qltb x y = false ↔ (y <= x)%Q.
Proof.
  unfold Qltb. destruct (Qlt_le_dec x y) as [Hl|Hl]; split; try done.
  intros Hle. exfalso. by apply (Qlt_not_le x y).
Qed.

Lemma Qleb_true (x y : Q) : Qleb x y = true ↔ (x <= y)%Q.
Proof.
  unfold Qleb. destruct (Qlt_le_dec y x) as [Hl|Hl]; split; try done.
  intros Hle. exfalso. by apply (Qlt_not_le y x).
Qed.

Lemma Qleb_false (x y : Q) : Qleb x y = false ↔ (y < x)%Q.
Proof.
  unfold Qleb. destruct (Qlt_le_dec y x) as [Hl|Hl]; split; try done.
  intros Hlt. exfalso. by apply (Qlt_not_le y x).
Qed.

Lemma Qdiv_mul_cancel (x d : Q) : ¬ (d == 0)%Q → (x / d * d == x)%Q.
Proof. intros Hd. field. done. Qed.

Lemma Qdiv_gt_1 (x d : Q) : (0 < d)%Q → (1 < x / d ↔ d < x)%Q.
Proof.
  intros Hd. rewrite <- (Qmult_lt_r 1 (x / d) d Hd).
  rewrite Qdiv_mul_cancel by lra. by rewrite Qmult_1_l.
Qed.

Lemma Qdiv_eq_1 (x d : Q) : (0 < d)%Q → (x / d == 1 ↔ x == d)%Q.
Proof.
  intros Hd. split; intros E.
  - rewrite <- (Qdiv_mul_cancel x d) by lra. rewrite E. lra.
  - rewrite E. field. lra.
Qed.

Lemma Sorted_lower_head (x y : Q) (l : list Q) :
  (x <= y)%Q → Sorted Qle (y :: l) → Sorted Qle (x :: l).
Proof.
  intros Hxy Hs. apply Sorted_inv in Hs as [Hs Hhd].
  apply Sorted_cons; [done|].
  destruct l as [|z l]; constructor.
  apply HdRel_inv in Hhd. lra.
Qed.

End TimeFacts.

(** ** Motion *)

Section MotionFacts.
Context {D S : Type} `{!Layout.Displayable D S}.
Import Layout.

(** [render] issues the redraw requests of [Motion_progress], and calls the
    interpolation function with its progress value. *)
Lemma Motion_render_redraws {P} (m : Motion D P) (w h : Z) (st at_ : Q) :
  (Motion_render m w h st at_).1.2 = (Motion_progress m st at_).1.
Proof.
  unfold Motion_render.
  destruct (Motion_progress m st at_) as [rd [t|]]; [|reflexivity].
  simpl. repeat case_match; reflexivity.
Qed.

(** [render] calls [self.function] at the progress value of
    [Motion_progress], puts what it returns into the style, and draws the
    child. *)
Lemma Motion_render_samples {P} (m : Motion D P) (w h : Z) (st at_ : Q)
    (rd : list Q) (p : Q) :
  Motion_progress m st at_ = (rd, Return p) →
  Notions.samples (function m) (m_child m) p m w h st at_
    (Motion_render m w h st at_)
  ∧ (Motion_render m w h st at_).1.2 = rd.
Proof.
  intros Hp. unfold Notions.samples, Motion_render. rewrite Hp.
  destruct (function m p) as [|x [|y [|xa [|ya [|z l]]]]]; simpl; try done.
  - destruct (render_child (m_child m) w h st at_) as [surf|e]; simpl; [|done].
    by destruct (get_size surf).
  - destruct (render_child (m_child m) w h st at_) as [surf|e]; simpl; [|done].
    by destruct (get_size surf).
Qed.

Lemma Motion_progress_at_delay {P} (f : Q → list P) (child new_widget : option D)
    (timebase : bool) (st at_ : Q) :
  let m := Motion_init f 2 child new_widget false false (Some 2%Q) timebase in
  let t := if timebase then at_ else st in
  (t == 0 → ∃ p, Motion_progress m st at_ = ([0%Q], Return p) ∧ p == 0)%Q
  ∧ (2 <= t → ∃ p, Motion_progress m st at_ = ([], Return p) ∧ p == 1)%Q
  ∧ (t < 2 → (Motion_progress m st at_).1 = [0%Q])%Q.
Proof.
  intros m t. unfold Motion_progress, m. simpl. fold t.
  change (truthyQ 2) with true. simpl.
  destruct (Qleb 2 t) eqn:E.
  - apply Qleb_true in E. simpl.
    split; [intros E0; lra|].
    split; [|intros Hlt; lra].
    intros _. eexists. split; [reflexivity|]. reflexivity.
  - apply Qleb_false in E.
    destruct (Qltb 2 t) eqn:E2.
    { apply Qltb_true in E2. lra. }
    simpl.
    split; [intros E0; eexists; split; [reflexivity|]; rewrite E0; reflexivity|].
    split; [intros Hle; lra|].
    done.
Qed.

(** C4.  A [Motion] made with the interpolation function [f],
    [repeat=False], [bounce=False], [period=2.0] and [delay=2.0], rendered
    at the time [t] of its timebase: at [t = 0] [render] calls [f] at the
    progress 0, at every [t >= 2.0] it calls [f] at 1.0 and asks for no
    redraw; in both cases what [f] returns there goes into the style and
    the child (or [new_widget], when no child was given) is drawn.  At every
    [t < 2.0] one redraw, with delay 0, is asked for. *)
Theorem Motion_stops_at_delay {P} (f : Q → list P) (child new_widget : option D)
    (timebase : bool) (w h : Z) (st at_ : Q) :
  let m := Motion_init f 2 child new_widget false false (Some 2%Q) timebase in
  let drawn := match child with None => new_widget | Some c => Some c end in
  let t := if timebase then at_ else st in
  let result := Motion_render m w h st at_ in
  (t == 0 → ∃ p, p == 0 ∧ Notions.samples f drawn p m w h st at_ result)%Q
  ∧ (2 <= t → ∃ p, p == 1 ∧ Notions.samples f drawn p m w h st at_ result
               ∧ result.1.2 = [])%Q
  ∧ (t < 2 → result.1.2 = [0%Q])%Q.
Proof.
  intros m drawn t result.
  destruct (Motion_progress_at_delay f child new_widget timebase st at_)
    as (H0 & H2 & Hlt).
  fold m t in H0, H2, Hlt. split; [|split].
  - intros E. destruct (H0 E) as (p & Hp & Ep). exists p. split; [done|].
    by destruct (Motion_render_samples m w h st at_ _ _ Hp).
  - intros E. destruct (H2 E) as (p & Hp & Ep). exists p. split; [done|].
    by destruct (Motion_render_samples m w h st at_ _ _ Hp).
  - intros E. unfold result. rewrite Motion_render_redraws. by apply Hlt.
Qed.

End MotionFacts.

Section MotionSamples.
Import Layout Sample.

Lemma Motion_stops_at_delay_witness :
  let m := Motion_init (D:=nat) (λ p : Q, [p; p]) 2 (Some 1%nat) None false false
                       (Some 2%Q) false in
  (2 <= 3)%Q
  ∧ (∃ p, p == 1
          ∧ Notions.samples (λ p : Q, [p; p]) (Some 1%nat) p m 640 480 3 0
              (Motion_render m 640 480 3 0)
          ∧ (Motion_render m 640 480 3 0).1.2 = [])%Q
  ∧ (1 < 2)%Q
  ∧ (Motion_render m 640 480 1 0).1.2 = [0%Q].
Proof.
  pose proof (Motion_stops_at_delay (D:=nat) (λ p : Q, [p; p]) (Some 1%nat) None
                false 640 480 3 0) as (_ & Hlate & _).
  pose proof (Motion_stops_at_delay (D:=nat) (λ p : Q, [p; p]) (Some 1%nat) None
                false 640 480 1 0) as (_ & _ & Hbefore).
  assert (2 <= 3)%Q as H23 by (unfold Qle; simpl; lia).
  assert (1 < 2)%Q as H12 by (unfold Qlt; simpl; lia).
  split; [exact H23|].
  split; [exact (Hlate H23)|]. split; [exact H12|exact (Hbefore H12)].
Defined.

(** At [st = 3] the function is called at 1: the style holds [f 1]. *)
Example Motion_rests_at_one :
  let m := Motion_init (D:=nat) (λ p : Q, [p; p]) 2 (Some 1%nat) None false false
                       (Some 2%Q) false in
  match xpos (Motion_render m 640 480 3 0).1.1 with
  | Some x => (x == 1)%Q
  | None => False
  end.
Proof. reflexivity. Qed.

End MotionSamples.

(** ** Zoom *)

Section ZoomFacts.
Context {D S : Type} `{!Layout.Displayable D S}.
Import Layout.

Lemma Zoom_done_one (z : Zoom D) (st : Q) :
  (0 <= z_time z)%Q →
  (Zoom_done z st == 1 ↔ z_time z == 0 ∨ z_time z <= st)%Q.
Proof.
  intros Hpos. unfold Zoom_done, truthyQ, fmin.
  destruct (Qeq_bool (z_time z) 0) eqn:E0; simpl.
  - apply Qeq_bool_iff in E0. split; [by left | done].
  - apply Qeq_bool_neq in E0.
    assert (0 < z_time z)%Q as Hlt.
    { destruct (Qlt_le_dec 0 (z_time z)); [done|]. exfalso. apply E0. lra. }
    destruct (Qltb 1 (st / z_time z)) eqn:E1.
    + apply Qltb_true in E1. apply (proj1 (Qdiv_gt_1 _ _ Hlt)) in E1.
      split; [intros _; right; lra | done].
    + apply Qltb_false in E1.
      rewrite Qdiv_eq_1 by done.
      split; [intros E; right; lra|]. intros [E|Hle]; [done|].
      destruct (Qlt_le_dec (z_time z) st) as [Hgt|Hle']; [|lra].
      apply (proj2 (Qdiv_gt_1 _ _ Hlt)) in Hgt. lra.
Qed.

(** C8, as the code has it.  With an [after_child], [Zoom.render] returns
    the render of [after_child] exactly at the calls where [done] is 1.0,
    and for a duration that is not negative these are the calls with
    [st >= time] (all calls when [time] is zero).  [render] changes no field
    of the [Zoom]: the choice is made anew at each call from the [st] it is
    given, and a call with [done] below 1.0 never gives the render of
    [after_child]. *)
Theorem Zoom_after_child_while_done (z : Zoom D) (a : D) (w h : Z) (st at_ : Q) :
  after_child z = Some a →
  ((Zoom_done z st == 1)%Q →
     Zoom_render z w h st at_ = ([], Return (AfterChild (render a w h st at_))))
  ∧ (¬ (Zoom_done z st == 1)%Q →
       ∀ r, (Zoom_render z w h st at_).2 ≠ Return (AfterChild r))
  ∧ ((0 <= z_time z)%Q →
       (Zoom_done z st == 1 ↔ z_time z == 0 ∨ z_time z <= st)%Q).
Proof.
  intros Ha. unfold Zoom_render. rewrite Ha.
  split; [|split].
  - intros E. apply Qeq_bool_iff in E. by rewrite E.
  - intros E r. destruct (Qeq_bool (Zoom_done z st) 1) eqn:Eb.
    + by apply Qeq_bool_iff in Eb.
    + destruct (render_child _ _ _ _ _); done.
  - apply Zoom_done_one.
Qed.

End ZoomFacts.

Section ZoomSamples.
Import Layout Sample.

(** C8, as stated, fails: the zoom of one second shows [after_child] at
    [st = 2] and the zooming child again at a later call with [st = 0.5]. *)
Lemma Zoom_render_reverts :
  (Zoom_render zoom_one_second 640 480 2 0).2 = Return (AfterChild (Some (2, 2)))
  ∧ (Zoom_render zoom_one_second 640 480 (1 # 2) 0).2
    = Return (Scaled (1, 1)
                (interp (1 # 2) <$> [(0, 0); (0, 0); (640, 320); (480, 240)]%Q)
                (640, 480))
  ∧ (Zoom_render zoom_one_second 640 480 (1 # 2) 0).2
    ≠ Return (AfterChild (render 2%nat 640 480 (1 # 2) 0)).
Proof. split; [reflexivity|]. split; [reflexivity|]. discriminate. Qed.

Lemma Zoom_after_child_while_done_witness :
  after_child zoom_one_second = Some 2%nat
  ∧ (Zoom_done zoom_one_second 2 == 1)%Q
  ∧ Zoom_render zoom_one_second 640 480 2 0
    = ([], Return (AfterChild (render 2%nat 640 480 2 0)))
  ∧ ¬ (Zoom_done zoom_one_second (1 # 2) == 1)%Q
  ∧ (∀ r, (Zoom_render zoom_one_second 640 480 (1 # 2) 0).2 ≠ Return (AfterChild r))
  ∧ (0 <= z_time zoom_one_second)%Q.
Proof.
  pose proof (Zoom_after_child_while_done zoom_one_second 2%nat 640 480 2 0 eq_refl)
    as (Hdone & _ & _).
  pose proof (Zoom_after_child_while_done zoom_one_second 2%nat 640 480 (1 # 2) 0
                eq_refl) as (_ & Hnot & _).
  assert (Zoom_done zoom_one_second 2 == 1)%Q as H1 by reflexivity.
  assert (¬ (Zoom_done zoom_one_second (1 # 2) == 1)%Q) as H2
    by (intros E; discriminate E).
  split; [reflexivity|]. split; [exact H1|]. split; [exact (Hdone H1)|].
  split; [exact H2|]. split; [exact (Hnot H2)|].
  unfold Qle; simpl; lia.
Defined.

End ZoomSamples.

(** ** Animation *)

Section AnimationFacts.
Context {D : Type}.
Import Anim Notions.

Lemma alternate_lengths {A} (l : list A) :
  length (alternate l).1
  = (length (alternate l).2 + if Nat.odd (length l) then 1 else 0)%nat.
Proof.
  induction l as [|x l IH]; simpl; [done|].
  destruct (alternate l) as [a b]. simpl in *.
  rewrite Nat.odd_succ, <- Nat.negb_odd.
  destruct (Nat.odd (length l)); simpl; lia.
Qed.

(** The loop of the constructor puts the arguments at the even places in
    [images] and the others in [delays]. *)
Lemma Animation_split (l : list (value D)) (i : nat) (imgs dls : list (value D)) :
  foldl (λ '(imgs, dls) '(i, a),
           if Nat.even i then (imgs ++ [a], dls) else (imgs, dls ++ [a]))
        (imgs, dls) (zip (seq i (length l)) l)
  = if Nat.even i
    then (imgs ++ (alternate l).1, dls ++ (alternate l).2)
    else (imgs ++ (alternate l).2, dls ++ (alternate l).1).
Proof.
  revert i imgs dls. induction l as [|x l IH]; intros i imgs dls; simpl.
  - rewrite !app_nil_r. by destruct (Nat.even i).
  - destruct (alternate l) as [a b] eqn:Ea. simpl.
    destruct (Nat.even i) eqn:Ei; rewrite IH, Nat.even_succ, <- Nat.negb_even, Ei;
      simpl; by rewrite <- app_assoc.
Qed.

Lemma Animation_new_odd (args : list (value D)) (timebase : option bool) :
  Nat.odd (length args) = true →
  images (Animation_new args timebase) = (alternate args).1
  ∧ delays (Animation_new args timebase) = (alternate args).2 ++ [Num one_year]
  ∧ length (images (Animation_new args timebase))
    = length (delays (Animation_new args timebase)).
Proof.
  intros Hodd. unfold Animation_new.
  rewrite (Animation_split args 0 [] []). simpl.
  pose proof (alternate_lengths args) as Hl. rewrite Hodd in Hl.
  destruct (Nat.ltb_spec (length (alternate args).2) (length (alternate args).1));
    [|lia].
  simpl. rewrite length_app. simpl. split; [done|]. split; [done|lia].
Qed.


End AnimationFacts.

Section AnimationSamples.
Import Anim Notions.


End AnimationSamples.

(** ** Weighted edges *)

Section EdgeFacts.
Context {D F T V : Type} `{EqDecision T}.
Import Anim Notions.
Implicit Types (sm : SMAnimation D F T V) (e : Edge T) (k : string).


Lemma foldl_const_iter {A B} (f : A → A) (l : list B) (a : A) :
  foldl (λ a _, f a) a l = Nat.iter (length l) f a.
Proof.
  revert a. induction l as [|x l IH]; intros a; simpl; [done|].
  rewrite IH. clear IH. induction (length l) as [|n IH]; simpl; [done|].
  by rewrite IH.
Qed.

Lemma Edge_add_iter sm e :
  Edge_add e sm = Nat.iter (Z.to_nat (e_prob e)) (append_edge e) sm.
Proof.
  unfold Edge_add. rewrite (foldl_const_iter (append_edge e)).
  unfold range. by rewrite length_fmap, length_seq.
Qed.



Lemma args_walk (args : list (arg D F T V)) sm :
  sm_edge (foldl arg_add sm args) = sm_edge sm
  ∧ sm_edge_start (foldl arg_add sm args) = sm_edge_start sm.
Proof.
  revert sm. induction args as [|a args IH]; intros sm; simpl; [done|].
  destruct (IH (arg_add sm a)) as [-> ->]. destruct a as [s|e]; simpl; [done|].
  rewrite Edge_add_iter. induction (Z.to_nat (e_prob e)); simpl; done.
Qed.









End EdgeFacts.

Section EdgeSamples.
Import Anim Notions Sample.

Example machine_outgoing :
  outgoing machine "A" = [edge_once; edge_thrice; edge_thrice; edge_thrice].
Proof. reflexivity. Qed.



End EdgeSamples.

(** ** SMAnimation as a motion *)

Section CallFacts.
Context {D F T V : Type}.
Import Anim.

Lemma motion_copy_image (s : State D F V) (child : option D) :
  motion_copy s child
  = match s_image s with
    | Some _ => Raise (AttributeError "mage")
    | None => Return (State_new (s_name s) child (s_atlist s) ∅)
    end.
Proof. unfold motion_copy. by destruct (s_image s). Qed.

Lemma copy_states_raises (l : list (State D F V)) (child : option D)
    (s : State D F V) :
  s ∈ l → s_image s ≠ None →
  copy_states (T:=T) l child = Raise (AttributeError "mage").
Proof.
  intros Hin Himg. induction l as [|x l IH]; [by apply elem_of_nil in Hin|].
  simpl. rewrite motion_copy_image.
  destruct (s_image x) eqn:Ex; [done|].
  apply elem_of_cons in Hin as [->|Hin]; [done|]. by rewrite IH.
Qed.

(** C9, what the code does.  Calling an SMAnimation one of whose states has
    an image raises AttributeError: [motion_copy] reads [self.mage], an
    attribute no [State] has, where it should keep [self.image].  No copy is
    returned. *)
Theorem SMAnimation_call_raises (sm : SMAnimation D F T V)
    (child new_widget : option D) (k : string) (s : State D F V) :
  sm_states sm !! k = Some s →
  s_image s ≠ None →
  SMAnimation_call sm child new_widget = Raise (AttributeError "mage").
Proof.
  intros Hk Himg. unfold SMAnimation_call.
  rewrite (copy_states_raises _ _ s); [done| |done].
  apply list_elem_of_fmap. exists (k, s). split; [done|].
  by apply elem_of_map_to_list.
Qed.

End CallFacts.

Section CallSamples.
Import Anim Notions Sample.

Lemma SMAnimation_call_raises_witness :
  sm_states machine !! "A" = Some state_A
  ∧ s_image state_A ≠ None
  ∧ SMAnimation_call machine (Some 9%nat) None = Raise (AttributeError "mage").
Proof.
  assert (sm_states machine !! "A" = Some state_A) as Hk by reflexivity.
  assert (s_image state_A ≠ None) as Hi by discriminate.
  split; [exact Hk|]. split; [exact Hi|].
  exact (SMAnimation_call_raises machine (Some 9%nat) None "A" state_A Hk Hi).
Defined.

(** When every image slot is unset the call returns; the copy has the
    slots filled, but each edge is added once for every entry of the old
    adjacency list, and [showold] and [anim_timebase] are back at their
    defaults. *)
Example SMAnimation_call_motion :
  match SMAnimation_call motion_machine (Some 9%nat) None with
  | Return copy =>
      s_image <$> sm_states copy !! "A" = Some (Some 9%nat)
      ∧ length (outgoing motion_machine "A") = 3%nat
      ∧ length (outgoing copy "A") = 9%nat
      ∧ sm_showold motion_machine = true ∧ sm_showold copy = false
      ∧ sm_anim_timebase motion_machine = false ∧ sm_anim_timebase copy = true
  | Raise _ => False
  end.
Proof. vm_compute. done. Qed.

End CallSamples.

(** ** The catch-up loop of SMAnimation *)

Section WalkFacts.
Context {D F T V : Type} `{EqDecision V}.
Import Anim Notions.
Implicit Types (sm : SMAnimation D F T V) (e : Edge T) (r : rng).

Lemma choose_nonempty {A} (l : list A) (draw : nat) :
  l ≠ [] → ∃ x, choose l draw = Some x ∧ x ∈ l.
Proof.
  intros Hne. unfold choose.
  assert (draw `mod` length l < length l)%nat as Hlt.
  { apply Nat.mod_upper_bound. by destruct l. }
  destruct (lookup_lt_is_Some_2 l _ Hlt) as [x Hx].
  exists x. split; [done|]. by eapply list_elem_of_lookup_2.
Qed.

Lemma overdue_true sm (t : Q) :
  overdue sm t = true ↔
  ∃ e es, sm_edge sm = Some e ∧ sm_edge_start sm = Some es
          ∧ (es + e_delay e < t)%Q.
Proof.
  unfold overdue. destruct (sm_edge sm) as [e|], (sm_edge_start sm) as [es|];
    try (split; [done | by intros (? & ? & ? & ? & ?)]).
  rewrite Qltb_true. split; [by eauto|]. by intros (? & ? & [= <-] & [= <-] & ?).
Qed.

Lemma steady_set_walk (d : Q) sm (a : option Q) (b : option (visual D F T))
    (edge : option (Edge T)) (c : option string) :
  steady d sm →
  (∀ e, edge = Some e → (d <= e_delay e)%Q) →
  steady d (set_walk sm a b edge c).
Proof. intros [Hl _] He. split; done. Qed.

(** On a steady machine [pick_edge] returns; it changes the current edge
    and state only. *)
Lemma pick_edge_steady (d : Q) sm (k : string) r :
  steady d sm →
  ∃ sm' r', pick_edge sm k r = (sm', r', Return tt)
    ∧ steady d sm'
    ∧ sm_edge_start sm' = sm_edge_start sm
    ∧ sm_edges sm' = sm_edges sm
    ∧ sm_anim_timebase sm' = sm_anim_timebase sm
    ∧ sm_initial sm' = sm_initial sm.
Proof.
  intros Hs. unfold pick_edge.
  destruct (sm_edges sm !! k) as [l|] eqn:El.
  - destruct Hs as [Hl Hc]. destruct (Hl k l El) as [Hne Hd].
    destruct (choose_nonempty l (r 0%nat) Hne) as (e & He & Hin).
    unfold choice. rewrite He. eexists _, _. split; [done|].
    split; [|done]. split; [done|]. simpl. intros e' [= <-]. by apply Hd.
  - eexists _, _. split; [done|]. split; [|done].
    destruct Hs as [Hl Hc]. split; [done|]. done.
Qed.

(** One turn of the loop: [edge_start] moves on by the delay of the edge,
    and the next edge is picked out of the state the edge leads to. *)
Lemma advance_steady (d : Q) sm r e (es : Q) :
  steady d sm →
  sm_edge sm = Some e → sm_edge_start sm = Some es →
  advance sm r
  = pick_edge (set_walk sm (Some (es + e_delay e)%Q) None (Some e) (sm_state sm))
              (e_new e) r
  ∧ ∃ sm1 r1, advance sm r = (sm1, r1, Return tt)
      ∧ steady d sm1
      ∧ sm_edge_start sm1 = Some (es + e_delay e)%Q
      ∧ sm_edges sm1 = sm_edges sm
      ∧ sm_anim_timebase sm1 = sm_anim_timebase sm
      ∧ sm_initial sm1 = sm_initial sm.
Proof.
  intros Hs He Hes. unfold advance. rewrite He, Hes. split; [done|].
  destruct (pick_edge_steady d
              (set_walk sm (Some (es + e_delay e)%Q) None (Some e) (sm_state sm))
              (e_new e) r) as (sm1 & r1 & Hp & Hs1 & Hes1 & Hed & Htb & Hin).
  { apply steady_set_walk; [done|]. intros e' [= <-]. destruct Hs as [_ Hc].
    by apply Hc. }
  exists sm1, r1. done.
Qed.

(** The loop ends: with delays of at least [d > 0], [n] turns are enough
    when the time to catch up is at most [n * d].  At the end [edge_start]
    has moved on by the delays of the completed edges and no more. *)
Lemma catch_up_enough (d : Q) (t : Q) (n : nat) sm r (es : Q) :
  (0 < d)%Q → steady d sm →
  sm_edge_start sm = Some es →
  (t - es <= inject_Z (Z.of_nat n) * d)%Q →
  ∃ tr sm' r',
    catch_up (Datatypes.S n) sm r t = Some (sm', r', Return tt)
    ∧ catches_up t sm r tr sm' r'
    ∧ sm_edge_start sm' = Some (advanced es tr)
    ∧ overdue sm' t = false
    ∧ steady d sm'
    ∧ ((es <= t)%Q → (advanced es tr <= t)%Q)
    ∧ sm_edges sm' = sm_edges sm
    ∧ sm_anim_timebase sm' = sm_anim_timebase sm
    ∧ sm_initial sm' = sm_initial sm.
Proof.
  intros Hd. revert sm r es. induction n as [|n IH]; intros sm r es Hs Hes Hn.
  - simpl. destruct (overdue sm t) eqn:Eo.
    + apply overdue_true in Eo as (e & es' & He & Hes' & Hlt).
      rewrite Hes in Hes'. injection Hes' as <-.
      destruct Hs as [_ Hc]. specialize (Hc e He).
      exfalso. change (inject_Z (Z.of_nat 0)) with 0%Q in Hn. lra.
    + exists [], sm, r. split; [done|]. split; [by constructor|]. done.
  - cbn [catch_up]. destruct (overdue sm t) eqn:Eo.
    + pose proof Eo as Eo'.
      apply overdue_true in Eo' as (e & es' & He & Hes' & Hlt).
      rewrite Hes in Hes'. injection Hes' as <-.
      destruct (advance_steady d sm r e es Hs He Hes)
        as (_ & sm1 & r1 & Ha & Hs1 & Hes1 & Hed1 & Htb1 & Hin1).
      rewrite Ha.
      destruct (IH sm1 r1 (es + e_delay e)%Q Hs1 Hes1)
        as (tr & sm' & r' & Hc & Htr & Hes' & Ho & Hs' & Hle & Hed & Htb & Hin).
      { destruct Hs as [_ Hcur]. specialize (Hcur e He).
        rewrite Nat2Z.inj_succ, <- Z.add_1_r, inject_Z_plus in Hn.
        change (inject_Z 1) with 1%Q in Hn. lra. }
      exists (e :: tr), sm', r'. split; [done|].
      split; [by econstructor|]. split; [done|]. split; [done|]. split; [done|].
      split; [intros _; apply Hle; lra|].
      split; [congruence|]. split; congruence.
    + exists [], sm, r. split; [done|]. split; [by constructor|]. done.
Qed.

Lemma enough_turns (x d : Q) :
  (0 < d)%Q → ∃ n : nat, (x <= inject_Z (Z.of_nat n) * d)%Q.
Proof.
  intros Hd. exists (Z.to_nat (Qceiling (x / d))).
  assert (x / d <= inject_Z (Z.of_nat (Z.to_nat (Qceiling (x / d)))))%Q as Hle.
  { eapply Qle_trans; [apply Qle_ceiling|].
    rewrite <- Zle_Qle. lia. }
  apply (Qmult_le_r _ _ d Hd) in Hle.
  rewrite Qdiv_mul_cancel in Hle; [done|]. intros E. rewrite E in Hd.
  by apply Qlt_irrefl in Hd.
Qed.

Lemma draw_keeps (d : Q) sm (t st at_ : Q) :
  let sm' := (draw sm t st at_).1 in
  sm_edge_start sm' = sm_edge_start sm
  ∧ sm_edge sm' = sm_edge sm
  ∧ sm_edges sm' = sm_edges sm
  ∧ sm_anim_timebase sm' = sm_anim_timebase sm
  ∧ sm_initial sm' = sm_initial sm
  ∧ (steady d sm → steady d sm').
Proof.
  unfold draw. destruct (sm_edge_start sm) as [es|] eqn:Ees.
  2:{ simpl. by rewrite Ees. }
  destruct (sm_edge sm) as [e|] eqn:Ee.
  - destruct (match cached sm with Some c => _ | None => _ end) as [c|x].
    + simpl. repeat (split; [done|]). intros [Hl Hc]. split; [done|].
      simpl. intros e' [= <-]. by apply Hc.
    + simpl. by rewrite Ees, Ee.
  - destruct (state_image sm (sm_state sm)); simpl; by rewrite Ees, Ee.
Qed.

Lemma advanced_app (start : Q) (tr1 tr2 : list (Edge T)) :
  advanced (advanced start tr1) tr2 = advanced start (tr1 ++ tr2).
Proof. unfold advanced. by rewrite fmap_app, foldl_app. Qed.

(** One [render] on a steady machine. *)
Lemma render_enough (d : Q) sm r (call : Q * Q) :
  (0 < d)%Q → steady d sm →
  let t := time_of sm call in
  ∃ tr sm' r',
    renders sm r call tr sm' r'
    ∧ sm_edge_start sm' = Some (advanced (start_of sm t) tr)
    ∧ overdue sm' t = false
    ∧ steady d sm'
    ∧ (advanced (start_of sm t) tr <= t)%Q
    ∧ sm_anim_timebase sm' = sm_anim_timebase sm.
Proof.
  intros Hd Hs t.
  assert (∃ sm1 r1, restart sm r t = (sm1, r1, Return tt)
            ∧ steady d sm1 ∧ sm_edge_start sm1 = Some (start_of sm t)
            ∧ (start_of sm t <= t)%Q
            ∧ sm_edges sm1 = sm_edges sm
            ∧ sm_anim_timebase sm1 = sm_anim_timebase sm
            ∧ sm_initial sm1 = sm_initial sm)
    as (sm1 & r1 & Hre & Hs1 & Hes1 & Hle1 & _ & Htb1 & _).
  { unfold restart, start_of. destruct (restart_needed sm t) eqn:En.
    - destruct (pick_edge_steady d
                  (set_walk sm (Some t) None (sm_edge sm) (sm_state sm))
                  (sm_initial sm) r) as (sm1 & r1 & Hp & Hs1 & Hes1 & Hrest).
      { apply steady_set_walk; [done|]. by destruct Hs. }
      exists sm1, r1. split; [done|]. split; [done|]. split; [done|].
      split; [lra|done].
    - unfold restart_needed in En. destruct (sm_edge_start sm) as [es|] eqn:Ees;
        [|done].
      apply Qltb_false in En. exists sm, r. simpl. done. }
  destruct (enough_turns (t - start_of sm t) d Hd) as [n Hn].
  destruct (catch_up_enough d t n sm1 r1 _ Hd Hs1 Hes1 Hn)
    as (tr & sm2 & r2 & Hcu & Htr & Hes2 & Ho2 & Hs2 & Hle2 & _ & Htb2 & _).
  destruct (draw_keeps d sm2 t call.1 call.2) as (Hes3 & He3 & _ & Htb3 & _ & Hs3).
  exists tr, (draw sm2 t call.1 call.2).1, r2.
  split.
  { exists sm1, r1, sm2. split; [done|]. split; [done|]. split; [done|].
    exists (Datatypes.S n). intros w h. unfold SMAnimation_render.
    fold (time_of sm call). fold t. rewrite Hre, Hcu.
    by destruct (draw sm2 t call.1 call.2). }
  split; [congruence|].
  split; [by unfold overdue in *; rewrite He3, Hes3|].
  split; [by apply Hs3|]. split; [by apply Hle2|]. congruence.
Qed.

(** Calls at times that do not go back, on a machine already started. *)
Lemma walk_enough (d : Q) (calls : list (Q * Q)) sm r (es : Q) :
  (0 < d)%Q → steady d sm →
  sm_edge_start sm = Some es →
  Sorted Qle (es :: (time_of sm <$> calls)) →
  ∃ tr sm' r',
    walks sm r calls tr sm' r'
    ∧ sm_edge_start sm' = Some (advanced es tr).
Proof.
  intros Hd. revert sm r es.
  induction calls as [|call calls IH]; intros sm r es Hs Hes Hsorted.
  - exists [], sm, r. split; [constructor|done].
  - simpl in Hsorted. apply Sorted_inv in Hsorted as [Hsorted Hhd].
    apply HdRel_inv in Hhd.
    destruct (render_enough d sm r call Hd Hs)
      as (tr1 & sm1 & r1 & Hr & Hes1 & _ & Hs1 & Hle1 & Htb1).
    assert (start_of sm (time_of sm call) = es) as Hst.
    { unfold start_of, restart_needed. rewrite Hes. simpl.
      destruct (Qltb (time_of sm call) es) eqn:E; [|done].
      apply Qltb_true in E. lra. }
    rewrite Hst in *.
    assert (time_of sm1 = time_of sm) as Htime.
    { unfold time_of. by rewrite Htb1. }
    destruct (IH sm1 r1 (advanced es tr1) Hs1 Hes1)
      as (tr2 & sm2 & r2 & Hw & Hes2).
    { rewrite Htime. by apply (Sorted_lower_head _ (time_of sm call)). }
    exists (tr1 ++ tr2), sm2, r2. split; [by econstructor|].
    by rewrite <- advanced_app.
Qed.

(** The loop of [render] in exact arithmetic, on a machine whose delays
    are at least some [d > 0]. *)
Lemma render_catches_up_exactly (d : Q) sm r :
  (0 < d)%Q → steady d sm →
  (∀ (t : Q) e (es : Q),
     sm_edge sm = Some e → sm_edge_start sm = Some es →
     (overdue sm t = true ↔ (es + e_delay e < t)%Q)
     ∧ advance sm r
       = pick_edge (set_walk sm (Some (es + e_delay e)%Q) None (Some e)
                      (sm_state sm)) (e_new e) r)
  ∧ (∀ call : Q * Q,
       let t := time_of sm call in
       ∃ tr sm' r',
         renders sm r call tr sm' r'
         ∧ sm_edge_start sm' = Some (advanced (start_of sm t) tr)
         ∧ overdue sm' t = false)
  ∧ (∀ (call : Q * Q) (calls : list (Q * Q)),
       sm_edge_start sm = None →
       Sorted Qle (time_of sm <$> call :: calls) →
       ∃ tr sm' r',
         walks sm r (call :: calls) tr sm' r'
         ∧ sm_edge_start sm' = Some (advanced (time_of sm call) tr)).
Proof.
  intros Hd Hs. split; [|split].
  - intros t e es He Hes. split.
    + rewrite overdue_true. split.
      * intros (e' & es' & He' & Hes' & Hlt). congruence.
      * intros Hlt. by exists e, es.
    + by destruct (advance_steady d sm r e es Hs He Hes) as [Ha _].
  - intros call t.
    destruct (render_enough d sm r call Hd Hs)
      as (tr & sm' & r' & Hr & Hes & Ho & _).
    by exists tr, sm', r'.
  - intros call calls Hnone Hsorted.
    destruct (render_enough d sm r call Hd Hs)
      as (tr1 & sm1 & r1 & Hr & Hes1 & _ & Hs1 & Hle1 & Htb1).
    assert (start_of sm (time_of sm call) = time_of sm call) as Hst.
    { unfold start_of, restart_needed. by rewrite Hnone. }
    rewrite Hst in *.
    assert (time_of sm1 = time_of sm) as Htime.
    { unfold time_of. by rewrite Htb1. }
    destruct (walk_enough d calls sm1 r1 _ Hd Hs1 Hes1)
      as (tr2 & sm2 & r2 & Hw & Hes2).
    { rewrite Htime. by apply (Sorted_lower_head _ (time_of sm call)). }
    exists (tr1 ++ tr2), sm2, r2. split; [by econstructor|].
    by rewrite <- advanced_app.
Qed.

(** C2, as the code has it.  On a machine whose delays are at least some
    [d > 0], where the delays, the start of the current edge and the times
    of the calls are numbers that binary floating point adds and compares
    without rounding ([ticks]):
    - the loop of [render] takes a turn exactly when the current edge is
      overdue in the strict sense, [t > edge_start + edge.delay]; the turn
      sets [edge_start] to [edge_start + edge.delay], whatever [t] is, and
      picks the next edge out of the state the edge leads to;
    - every [render] returns, after the loop has taken turns for as long
      as the edge is overdue, and then [edge_start] is the time it counted
      from plus the delays of the edges completed in the loop;
    - after [render] calls at times that do not go back, the first on a
      machine not yet started, [edge_start] is the time of the first call
      plus the delays of all the edges completed since. *)
Theorem SMAnimation_render_catches_up (d : Q) (k : nat) sm r :
  (0 < d)%Q → steady d sm → ticking k sm = true →
  (∀ (t : Q) e (es : Q),
     ticks k t = true →
     sm_edge sm = Some e → sm_edge_start sm = Some es →
     (overdue sm t = true ↔ (es + e_delay e < t)%Q)
     ∧ advance sm r
       = pick_edge (set_walk sm (Some (es + e_delay e)%Q) None (Some e)
                      (sm_state sm)) (e_new e) r)
  ∧ (∀ call : Q * Q,
       let t := time_of sm call in
       ticks k t = true →
       ∃ tr sm' r',
         renders sm r call tr sm' r'
         ∧ sm_edge_start sm' = Some (advanced (start_of sm t) tr)
         ∧ overdue sm' t = false)
  ∧ (∀ (call : Q * Q) (calls : list (Q * Q)),
       sm_edge_start sm = None →
       Forall (λ c, ticks k (time_of sm c) = true) (call :: calls) →
       Sorted Qle (time_of sm <$> call :: calls) →
       ∃ tr sm' r',
         walks sm r (call :: calls) tr sm' r'
         ∧ sm_edge_start sm' = Some (advanced (time_of sm call) tr)).
Proof.
  intros Hd Hs _.
  destruct (render_catches_up_exactly d sm r Hd Hs) as (Hturn & Hcall & Hwalk).
  split; [|split].
  - intros t e es _. apply Hturn.
  - intros call t _. apply Hcall.
  - intros call calls Hnone _. by apply Hwalk.
Qed.

End WalkFacts.

(** ** Machines made by the constructor are steady *)

Section SteadyFacts.
Context {D F T V : Type} `{EqDecision V}.
Import Anim Notions.
Implicit Types (sm : SMAnimation D F T V) (e : Edge T).

Lemma append_edge_steady (d : Q) sm e :
  (d <= e_delay e)%Q → steady d sm → steady d (append_edge e sm).
Proof.
  intros He [Hl Hc]. split; [|done].
  intros k l. unfold append_edge. simpl.
  destruct (decide (e_old e = k)) as [<-|Hne].
  - rewrite lookup_insert_eq. intros [= <-]. split; [by intros ?%app_nil_r_inv|].
    intros e' [Hin| ->%list_elem_of_singleton]%elem_of_app; [|done].
    destruct (sm_edges sm !! e_old e) as [l|] eqn:El; simpl in Hin.
    + by apply (Hl _ _ El).
    + by apply elem_of_nil in Hin.
  - rewrite lookup_insert_ne by done. apply Hl.
Qed.

Lemma arg_add_steady (d : Q) sm (a : arg D F T V) :
  (∀ e, a = AEdge e → (d <= e_delay e)%Q) → steady d sm → steady d (arg_add sm a).
Proof.
  intros Ha Hs. destruct a as [s|e]; simpl.
  - destruct Hs as [Hl Hc]. by split.
  - rewrite Edge_add_iter. induction (Z.to_nat (e_prob e)) as [|n IH]; simpl;
      [done|]. apply append_edge_steady; [by apply Ha | done].
Qed.

Lemma SMAnimation_new_steady (d : Q) (initial : string) (args : list (arg D F T V))
    (delay : option Q) (showold timebase : option bool)
    (properties : gmap string V) :
  (∀ e, AEdge e ∈ args → (d <= e_delay e)%Q) →
  steady d (SMAnimation_new initial args delay showold timebase properties)
  ∧ sm_edge_start (SMAnimation_new initial args delay showold timebase properties)
    = None.
Proof.
  intros Hargs. unfold SMAnimation_new.
  set (sm0 := mkSM _ _ _ _ _ _ _ _ _ _ _).
  split; [|by destruct (args_walk args sm0) as [_ ->]].
  assert (steady d sm0) as Hs0.
  { split; [|done]. intros k l. unfold sm0. simpl. by rewrite lookup_empty. }
  clearbody sm0. revert sm0 Hs0.
  induction args as [|a args IH]; intros sm0 Hs0; simpl; [done|].
  apply IH.
  - intros e He. apply Hargs. by right.
  - apply arg_add_steady; [|done]. intros e ->. apply Hargs. by left.
Qed.

End SteadyFacts.

Section WalkSamples.
Import Anim Notions Sample.

Lemma machine_steady : steady 1 machine ∧ sm_edge_start machine = None.
Proof.
  apply SMAnimation_new_steady.
  intros e He. repeat (apply elem_of_cons in He as [He|He]; [by simplify_eq|]).
  by apply elem_of_nil in He.
Qed.

(** C2, as stated, fails at the moment the delay runs out: with the edge
    started at 0 and a delay of 1, [render] at time 1 takes no turn of the
    loop; [edge_start] stays 0 and the edge stays the current one. *)
Lemma SMAnimation_render_at_expiry :
  let started := after_calls [(0, 0)]%Q in
  let at_expiry := after_calls [(0, 0); (1, 1)]%Q in
  sm_edge <$> started = Some (Some edge_once)
  ∧ sm_edge_start <$> started = Some (Some 0%Q)
  ∧ (0 + e_delay edge_once <= 1)%Q
  ∧ sm_edge <$> at_expiry = Some (Some edge_once)
  ∧ sm_edge_start <$> at_expiry = Some (Some 0%Q)
  ∧ ¬ (0 == 0 + e_delay edge_once)%Q.
Proof.
  split; [by vm_compute|]. split; [by vm_compute|]. split; [by vm_compute|].
  split; [by vm_compute|]. split; [by vm_compute|]. by vm_compute.
Qed.

Lemma SMAnimation_render_catches_up_witness :
  (0 < 1)%Q ∧ steady 1 machine ∧ ticking 0 machine = true
  ∧ Forall (λ c, ticks 0 (time_of machine c) = true) [(0, 0); (0, 5)]%Q
  ∧ ∃ tr sm' r',
      walks machine first_draw [(0, 0); (0, 5)]%Q tr sm' r'
      ∧ sm_edge_start sm' = Some (advanced 0 tr).
Proof.
  assert (0 < 1)%Q as Hd by reflexivity.
  destruct machine_steady as [Hs Hnone].
  assert (ticking 0 machine = true) as Hk by (by vm_compute).
  assert (Forall (λ c, ticks 0 (time_of machine c) = true) [(0, 0); (0, 5)]%Q)
    as Ht by (repeat constructor).
  destruct (SMAnimation_render_catches_up 1 0 machine first_draw Hd Hs Hk)
    as (_ & _ & Hwalk).
  split; [exact Hd|]. split; [exact Hs|]. split; [exact Hk|]. split; [exact Ht|].
  apply (Hwalk (0, 0)%Q [(0, 5)%Q] Hnone Ht).
  repeat constructor. by vm_compute.
Defined.

(** Past the expiry the turn is taken: from 0, [edge_start] goes to 0 + 1
    and state B, which no edge leaves, is the last one. *)
Example machine_catches_up :
  let late := after_calls [(0, 0); (0, 5)]%Q in
  sm_edge_start <$> late = Some (Some (0 + 1)%Q)
  ∧ sm_edge <$> late = Some None
  ∧ sm_state <$> late = Some (Some "B").
Proof. split; [by vm_compute|]. split; by vm_compute. Qed.

End WalkSamples.

(** * Further properties *)

(** ** The widget stack of ui.py *)

Section UiStackFacts.
Import Ui.

(** The three globals of a state. *)
Lemma state_eq (s s' : state) :
  current s = current s' → current_stack s = current_stack s' →
  current_once s = current_once s' → added s = added s' →
  cleared s = cleared s' → s = s'.
Proof. destruct s, s'. simpl. by intros -> -> -> -> ->. Qed.

(** [add] written out by cases. *)
Lemma add_cases (w : nat) (mc once : bool) (s : state) :
  add w mc once s =
  let log := added s ++ [(current s, w)] in
  if current_once s then
    match pop (current_stack s) with
    | None =>
        (mkState (current s) (current_stack s) false log (cleared s),
         Raise (Exception msg_last))
    | Some (rest, top) =>
        (mkState (if mc then Widget w else top)
                 (if mc then rest ++ [top] else rest) once log (cleared s),
         Return w)
    end
  else
    (mkState (if mc then Widget w else current s)
             (if mc then current_stack s ++ [current s] else current_stack s)
             once log (cleared s), Return w).
Proof.
  unfold add, close. simpl. destruct (current_once s); simpl.
  - destruct (pop (current_stack s)) as [[rest top]|]; simpl; by destruct mc.
  - by destruct mc.
Qed.

(** Whether [add] raises does not depend on [make_current] and [once]: it
    raises only when a single-use widget is pending on an empty stack. *)
Lemma add_returns_iff (w : nat) (mc once : bool) (s : state) :
  raised (add w mc once s).2 = current_once s && bool_decide (current_stack s = []).
Proof.
  rewrite add_cases. simpl. destruct (current_once s); simpl; [|done].
  destruct (pop (current_stack s)) as [[rest top]|] eqn:E; simpl.
  - assert (current_stack s ≠ []) as Hne
      by (intros Hnil; rewrite Hnil in E; done).
    by rewrite (bool_decide_eq_false_2 _ Hne).
  - apply pop_None in E. by rewrite E.
Qed.

(** Opening a container with [add(w, True)] and closing it comes to the
    same state as adding [w] without opening it: [close] undoes the push. *)
Theorem close_undoes_open (w : nat) (s s1 : state) (r : nat) :
  add w true false s = (s1, Return r) →
  close s1 = ((add w false false s).1, Return tt)
  ∧ (add w false false s).2 = Return w.
Proof.
  rewrite !add_cases. simpl. destruct (current_once s) eqn:Eo.
  - destruct (pop (current_stack s)) as [[rest top]|] eqn:E; [|done].
    intros [= <- <-]. unfold close. simpl. by rewrite pop_snoc.
  - intros [= <- <-]. unfold close. simpl. by rewrite pop_snoc.
Qed.

(** A single-use widget takes exactly one child: after [add(w, True, True)]
    the next [add(c)] puts [c] into [w] and closes [w] by itself, leaving
    the state that adding [w] unopened and then recording the child gives. *)
Theorem single_use_closes_itself (w c : nat) (s s1 : state) (r : nat) :
  add w true true s = (s1, Return r) →
  ∃ s2, add c false false s1 = (s2, Return c)
    ∧ current s2 = current (add w false false s).1
    ∧ current_stack s2 = current_stack (add w false false s).1
    ∧ current_once s2 = false
    ∧ added s2 = added s ++ [(current s, w); (Widget w, c)].
Proof.
  rewrite (add_cases w true true), (add_cases w false false). simpl.
  destruct (current_once s) eqn:Eo.
  - destruct (pop (current_stack s)) as [[rest top]|] eqn:E; [|done].
    intros [= <- <-]. rewrite add_cases. simpl. rewrite pop_snoc.
    eexists. split; [done|]. simpl. by rewrite <- app_assoc.
  - intros [= <- <-]. rewrite add_cases. simpl. rewrite pop_snoc.
    eexists. split; [done|]. simpl. by rewrite <- app_assoc.
Qed.

(** [ui.layer(name)] refuses to open a layer inside a widget, and a layer
    that is listed neither in [config.layers] nor in [config.top_layers];
    in both cases nothing changes.  Otherwise the layer becomes current, and
    a [close] afterwards brings back the current target and the stack. *)
Theorem layer_opens_known_layers_only (layers top_layers : list string)
    (name : string) (s : state) :
  (is_str (current s) = false →
     layer layers top_layers name s = (s, Raise (Exception msg_layer_open)))
  ∧ (is_str (current s) = true → name ∉ layers → name ∉ top_layers →
       ∃ msg, layer layers top_layers name s = (s, Raise (Exception msg)))
  ∧ (is_str (current s) = true → name ∈ layers ∨ name ∈ top_layers →
       ∃ s1 s2, layer layers top_layers name s = (s1, Return tt)
         ∧ current s1 = Layer name
         ∧ close s1 = (s2, Return tt)
         ∧ current s2 = current s
         ∧ current_stack s2 = current_stack s).
Proof.
  unfold layer. split; [|split].
  - by intros ->.
  - intros -> H1 H2. simpl.
    rewrite (bool_decide_eq_false_2 _ H1), (bool_decide_eq_false_2 _ H2). simpl.
    by eexists.
  - intros -> Hin. simpl.
    assert (negb (bool_decide (name ∈ layers))
            && negb (bool_decide (name ∈ top_layers)) = false) as ->.
    { destruct Hin as [Hin|Hin]; rewrite (bool_decide_eq_true_2 _ Hin); simpl;
        [done | by rewrite andb_false_r]. }
    eexists _, _. split; [done|]. split; [done|].
    unfold close. simpl. rewrite pop_snoc. simpl. done.
Qed.

Lemma add_each_plain (ws : list nat) (s : state) :
  current_once s = false →
  add_each ws s
  = (mkState (current s) (current_stack s) false
             (added s ++ ((λ w, (current s, w)) <$> ws)) (cleared s), Return tt).
Proof.
  unfold add_each. revert s. induction ws as [|w ws IH]; intros s Ho.
  - simpl. rewrite app_nil_r. f_equal. by apply state_eq.
  - cbn [foldl]. rewrite add_cases, Ho. cbn [fst snd].
    rewrite IH by done. simpl. by rewrite <- app_assoc.
Qed.

(** [ui.menu] is balanced.  Where adding the vbox does not raise, [menu]
    returns with the current target, the stack and the single-use flag that
    adding one unopened widget would leave, and the items have been added,
    in order, to the vbox.  Where adding the vbox raises, [menu] raises the
    same exception. *)
Theorem menu_is_balanced (vbox : nat) (items : list nat) (s : state) :
  (∀ s' r, add vbox false false s = (s', Return r) →
     ∃ s2, menu vbox items s = (s2, Return tt)
       ∧ current s2 = current s'
       ∧ current_stack s2 = current_stack s'
       ∧ current_once s2 = false
       ∧ added s2 = added s' ++ ((λ w, (Widget vbox, w)) <$> items))
  ∧ (∀ s' e, add vbox false false s = (s', Raise e) →
       menu vbox items s = (s', Raise e)).
Proof.
  unfold menu. rewrite (add_cases vbox true false), (add_cases vbox false false).
  simpl. destruct (current_once s) eqn:Eo.
  - destruct (pop (current_stack s)) as [[rest top]|] eqn:E.
    + split; [|done]. intros s' r [= <- <-].
      rewrite add_each_plain by done. unfold close. simpl. rewrite pop_snoc.
      simpl. by eexists.
    + split; [done|]. by intros s' e [= <- <-].
  - split; [|done]. intros s' r [= <- <-].
    rewrite add_each_plain by done. unfold close. simpl. rewrite pop_snoc.
    simpl. by eexists.
Qed.

End UiStackFacts.

(** ** Events and hit tests *)

Section EventFacts.
Context {D Ev R : Type} `{!Layout.Handler D Ev R}.
Import Layout Notions.

Lemma Container_dispatch_first (l : list (D * (Z * Z))) (ev : Ev) (x y : Z) (st : Q) :
  Container_dispatch l ev x y st
  = first_some (λ i, event i.1 ev (x - i.2.1) (y - i.2.2) st) l.
Proof.
  induction l as [|[i [xo yo]] l IH]; simpl; [done|]. by rewrite IH.
Qed.

Lemma Fixed_dispatch_first (et : Q) (l : list (D * ((Z * Z) * option Q)))
    (ev : Ev) (x y : Z) :
  Fixed_dispatch et l ev x y
  = first_some (λ i, event i.1 ev (x - i.2.1.1) (y - i.2.1.2)
                       (match i.2.2 with None => 0 | Some t => et - t end)%Q) l.
Proof.
  induction l as [|[i [[xo yo] t]] l IH]; simpl; [done|]. by rewrite IH.
Qed.

(** Going through the reversed list finds the last entry with a result. *)
Lemma first_some_reverse {A B} (f : A → option B) (l : list A) :
  match first_some f (reverse l) with
  | Some b =>
      ∃ k a, l !! k = Some a ∧ f a = Some b
             ∧ ∀ j a', (k < j)%nat → l !! j = Some a' → f a' = None
  | None => ∀ j a, l !! j = Some a → f a = None
  end.
Proof.
  induction l as [|a l IH] using rev_ind.
  - simpl. intros j a Hj. by rewrite lookup_nil in Hj.
  - rewrite reverse_snoc. simpl. destruct (f a) as [b|] eqn:Ea.
    + exists (length l), a. split; [by rewrite list_lookup_middle|].
      split; [done|]. intros j a' Hj Hl.
      apply lookup_lt_Some in Hl. rewrite length_app in Hl. simpl in Hl. lia.
    + destruct (first_some f (reverse l)) as [b|].
      * destruct IH as (k & a0 & Hk & Hf & Hlater).
        exists k, a0. split; [by rewrite lookup_app_l by (by eapply lookup_lt_Some)|].
        split; [done|]. intros j a' Hj Hl.
        destruct (decide (j < length l)%nat) as [Hlt|Hge].
        -- rewrite lookup_app_l in Hl by done. by eapply Hlater.
        -- apply lookup_lt_Some in Hl as Hlen. rewrite length_app in Hlen.
           simpl in Hlen. assert (j = length l) as -> by lia.
           rewrite list_lookup_middle in Hl by done. by injection Hl as <-.
      * intros j a' Hl.
        destruct (decide (j < length l)%nat) as [Hlt|Hge].
        -- rewrite lookup_app_l in Hl by done. by eapply IH.
        -- apply lookup_lt_Some in Hl as Hlen. rewrite length_app in Hlen.
           simpl in Hlen. assert (j = length l) as -> by lia.
           rewrite list_lookup_middle in Hl by done. by injection Hl as <-.
Qed.

(** [Container.event] offers the event to the children that have an offset,
    the one added last first, and returns the first result; a child without
    an offset is never asked.  Before the first [render] the call fails. *)
Theorem Container_event_topmost_first (c : Container D) (ev : Ev) (x y : Z) (st : Q) :
  Container_event false c ev x y st = Raise (AttributeError "offsets")
  ∧ ∃ r, Container_event true c ev x y st = Return r
    ∧ match r with
      | Some rv =>
          ∃ k d off, children c !! k = Some d ∧ offsets c !! k = Some off
            ∧ event d ev (x - off.1) (y - off.2) st = Some rv
            ∧ ∀ j d' off', (k < j)%nat →
                children c !! j = Some d' → offsets c !! j = Some off' →
                event d' ev (x - off'.1) (y - off'.2) st = None
      | None =>
          ∀ j d off, children c !! j = Some d → offsets c !! j = Some off →
            event d ev (x - off.1) (y - off.2) st = None
      end.
Proof.
  split; [done|]. eexists. split; [done|].
  rewrite Container_dispatch_first.
  pose proof (first_some_reverse
                (λ i : D * (Z * Z), event i.1 ev (x - i.2.1) (y - i.2.2) st)
                (zip (children c) (offsets c))) as Hspec.
  destruct (first_some _ _) as [rv|].
  - destruct Hspec as (k & [d off] & Hk & Hf & Hlater).
    apply lookup_zip_Some in Hk as [Hd Hoff].
    exists k, d, off. split; [done|]. split; [done|]. split; [done|].
    intros j d' off' Hj Hd' Hoff'.
    apply (Hlater j (d', off') Hj). by apply lookup_zip_Some.
  - intros j d off Hd Hoff. apply (Hspec j (d, off)). by apply lookup_zip_Some.
Qed.

(** [Fixed.event] does the same over the children that have an offset and
    a start time, and gives each child its own time, the event time less
    the child's start time; the [st] it is called with is not used. *)
Theorem Fixed_event_topmost_first (et : Q) (f : Fixed D) (ev : Ev) (x y : Z) (st : Q) :
  ∃ r, Fixed_event et true f ev x y st = Return r
    ∧ (∀ st', Fixed_event et true f ev x y st' = Return r)
    ∧ let cst (t : option Q) := match t with None => 0 | Some t => et - t end%Q in
      match r with
      | Some rv =>
          ∃ k d off t, children (f_base f) !! k = Some d
            ∧ offsets (f_base f) !! k = Some off
            ∧ start_times f !! k = Some t
            ∧ event d ev (x - off.1) (y - off.2) (cst t) = Some rv
            ∧ ∀ j d' off' t', (k < j)%nat →
                children (f_base f) !! j = Some d' →
                offsets (f_base f) !! j = Some off' →
                start_times f !! j = Some t' →
                event d' ev (x - off'.1) (y - off'.2) (cst t') = None
      | None =>
          ∀ j d off t, children (f_base f) !! j = Some d →
            offsets (f_base f) !! j = Some off → start_times f !! j = Some t →
            event d ev (x - off.1) (y - off.2) (cst t) = None
      end.
Proof.
  eexists. split; [done|]. split; [done|].
  rewrite Fixed_dispatch_first. simpl.
  pose proof (first_some_reverse
    (λ i : D * ((Z * Z) * option Q),
       event i.1 ev (x - i.2.1.1) (y - i.2.1.2)
             (match i.2.2 with None => 0 | Some t => et - t end)%Q)
    (zip (children (f_base f)) (zip (offsets (f_base f)) (start_times f))))
    as Hspec.
  destruct (first_some _ _) as [rv|].
  - destruct Hspec as (k & [d [off t]] & Hk & Hf & Hlater).
    apply lookup_zip_Some in Hk as [Hd Hk]. apply lookup_zip_Some in Hk as [Ho Ht].
    exists k, d, off, t. repeat (split; [done|]).
    intros j d' off' t' Hj Hd' Ho' Ht'.
    apply (Hlater j (d', (off', t')) Hj).
    apply lookup_zip_Some. split; [done|]. by apply lookup_zip_Some.
  - intros j d off t Hd Ho Ht. apply (Hspec j (d, (off, t))).
    apply lookup_zip_Some. split; [done|]. by apply lookup_zip_Some.
Qed.

End EventFacts.

Section HitFacts.
Import Layout Notions.

Lemma point_scan_spec (l : list ((Z * Z) * (Z * Z))) (i : nat) (x y : Z) :
  match point_scan l i x y with
  | Some k =>
      (i ≤ k)%nat
      ∧ ∃ off sz, l !! (k - i)%nat = Some (off, sz) ∧ inside off sz x y
          ∧ ∀ j off' sz', (j < k - i)%nat → l !! j = Some (off', sz') →
              ¬ inside off' sz' x y
  | None => ∀ j off sz, l !! j = Some (off, sz) → ¬ inside off sz x y
  end.
Proof.
  revert i. induction l as [|[[xo yo] [w h]] l IH]; intros i; simpl.
  - intros j off sz Hj. by rewrite lookup_nil in Hj.
  - destruct ((x - xo <? 0) || (y - yo <? 0)) eqn:E1;
      [|destruct ((w <=? x - xo) || (h <=? y - yo)) eqn:E2].
    + specialize (IH (S i)). destruct (point_scan l (S i) x y) as [k|].
      * destruct IH as (Hk & off & sz & Hl & Hin & Hbefore).
        split; [lia|]. exists off, sz.
        replace (k - i)%nat with (S (k - S i)) by lia. split; [done|].
        split; [done|]. intros [|j] off' sz' Hj; simpl.
        -- intros [= <- <-]. unfold inside. simpl.
           apply orb_true_iff in E1 as [E|E]; apply Z.ltb_lt in E; lia.
        -- apply Hbefore. lia.
      * intros [|j] off sz; simpl; [|by apply IH].
        intros [= <- <-]. unfold inside. simpl.
        apply orb_true_iff in E1 as [E|E]; apply Z.ltb_lt in E; lia.
    + specialize (IH (S i)). destruct (point_scan l (S i) x y) as [k|].
      * destruct IH as (Hk & off & sz & Hl & Hin & Hbefore).
        split; [lia|]. exists off, sz.
        replace (k - i)%nat with (S (k - S i)) by lia. split; [done|].
        split; [done|]. intros [|j] off' sz' Hj; simpl.
        -- intros [= <- <-]. unfold inside. simpl.
           apply orb_true_iff in E2 as [E|E]; apply Z.leb_le in E; lia.
        -- apply Hbefore. lia.
      * intros [|j] off sz; simpl; [|by apply IH].
        intros [= <- <-]. unfold inside. simpl.
        apply orb_true_iff in E2 as [E|E]; apply Z.leb_le in E; lia.
    + apply orb_false_iff in E1 as [E1a E1b]. apply orb_false_iff in E2 as [E2a E2b].
      apply Z.ltb_ge in E1a, E1b. apply Z.leb_gt in E2a, E2b.
      split; [lia|]. exists (xo, yo), (w, h). rewrite Nat.sub_diag.
      split; [done|]. split; [unfold inside; simpl; lia|]. intros; lia.
Qed.

(** [child_at_point] returns the lowest index whose rectangle (offset and
    size of the last [render]) holds the point, that is the child added
    first among those under the point, and [None] exactly when no rectangle
    holds it.  Before the first [render] the call fails. *)
Theorem child_at_point_lowest {D} (c : Container D) (x y : Z) :
  child_at_point false c x y = Raise (AttributeError "offsets")
  ∧ ∃ r, child_at_point true c x y = Return r
    ∧ match r with
      | Some k =>
          ∃ off sz, offsets c !! k = Some off ∧ sizes c !! k = Some sz
            ∧ inside off sz x y
            ∧ ∀ j off' sz', (j < k)%nat →
                offsets c !! j = Some off' → sizes c !! j = Some sz' →
                ¬ inside off' sz' x y
      | None =>
          ∀ j off sz, offsets c !! j = Some off → sizes c !! j = Some sz →
            ¬ inside off sz x y
      end.
Proof.
  split; [done|]. eexists. split; [done|].
  pose proof (point_scan_spec (zip (offsets c) (sizes c)) 0 x y) as Hs.
  destruct (point_scan _ _ _ _) as [k|].
  - destruct Hs as (_ & off & sz & Hl & Hin & Hbefore).
    rewrite Nat.sub_0_r in *. apply lookup_zip_Some in Hl as [Ho Hs].
    exists off, sz. repeat (split; [done|]).
    intros j off' sz' Hj Ho' Hs'. apply (Hbefore j off' sz' Hj).
    by apply lookup_zip_Some.
  - intros j off sz Ho Hs'. apply (Hs j off sz). by apply lookup_zip_Some.
Qed.

End HitFacts.

(** ** More on the containers *)

Section ContainerFacts.
Context {D S Ev R : Type} `{!Layout.Displayable D S} `{!Layout.Handler D Ev R}.
Import Layout Notions.

Lemma Container_new_child (args : list (option D)) (c : Container D) :
  child c = last (children c) →
  child (foldl Container_add c args) = last (children (foldl Container_add c args)).
Proof.
  revert c. induction args as [|a args IH]; intros c Hc; simpl; [done|].
  apply IH. destruct a as [d|]; simpl; [|done]. by rewrite last_snoc.
Qed.

(** A plain container that holds several children draws the child added
    last and hands events to the child added first: [render] leaves one
    offset, and [event] pairs the offsets with the children from the
    front. *)
Theorem Container_draws_last_asks_first (args : list (option D))
    (w h : Z) (st at_ : Q) (c' : Container D) (rv : S)
    (ev : Ev) (x y : Z) (st' : Q) :
  Container_render (Container_new args) w h st at_ = (c', Return rv) →
  ∃ first_child last_child,
    head (children c') = Some first_child
    ∧ last (children c') = Some last_child
    ∧ render last_child w h st at_ = Some rv
    ∧ Container_event true c' ev x y st' = Return (event first_child ev x y st').
Proof.
  unfold Container_render, Container_new.
  pose proof (Container_new_child args Container_init eq_refl) as Hlast.
  destruct (child (foldl Container_add Container_init args)) as [d|] eqn:Ed;
    [|done].
  destruct (render d w h st at_) as [s|] eqn:Er; [|done].
  intros [= <- <-]. simpl.
  destruct (children (foldl Container_add Container_init args)) as [|d0 l] eqn:El;
    [done|].
  exists d0, d. split; [done|]. split; [done|]. split; [done|].
  unfold Container_event. simpl.
  replace (zip l ([] : list (Z * Z))) with ([] : list (D * (Z * Z)))
    by (by destruct l).
  simpl. rewrite !Z.sub_0_r. by destruct (event d0 ev x y st').
Qed.

Lemma Qeq_bool_neq_false (x y : Q) : ¬ (x == y)%Q → Qeq_bool x y = false.
Proof.
  intros Hne. destruct (Qeq_bool x y) eqn:E; [|done].
  by apply Qeq_bool_iff in E.
Qed.

Lemma or_time_fixed (it it' : Q) (i : option Q) :
  ¬ (it == 0)%Q → or_time it' (Some (or_time it i)) = or_time it i.
Proof.
  intros Hit. unfold or_time at 1.
  assert (truthyQ (or_time it i) = true) as ->; [|done].
  unfold or_time, truthyQ. destruct i as [q|].
  - destruct (Qeq_bool q 0) eqn:Eq; simpl.
    + apply negb_true_iff. by apply Qeq_bool_neq_false.
    + by rewrite Eq.
  - apply negb_true_iff. by apply Qeq_bool_neq_false.
Qed.

(** The start times of a [Fixed] are settled by the first draw.  A [render]
    at an interact time other than zero replaces every start time that is
    unset (or zero) by the interact time and keeps the others; after it,
    no [render], whatever its interact time, changes a start time again.
    The same holds for the animation times. *)
Theorem Fixed_start_times_settle (ft it : Q) (f : Fixed D) (w h : Z) (st at_ : Q) :
  ¬ (it == 0)%Q →
  let f1 := (Fixed_render ft it f w h st at_).1 in
  start_times f1 = (λ i, Some (or_time it i)) <$> start_times f
  ∧ anim_times f1 = (λ i, Some (or_time it i)) <$> anim_times f
  ∧ (∀ k, start_times f !! k = Some None → start_times f1 !! k = Some (Some it))
  ∧ (∀ k q, start_times f !! k = Some (Some q) → ¬ (q == 0)%Q →
            start_times f1 !! k = Some (Some q))
  ∧ ∀ ft' it' w' h' st' at',
      let f2 := (Fixed_render ft' it' f1 w' h' st' at').1 in
      start_times f2 = start_times f1 ∧ anim_times f2 = anim_times f1.
Proof.
  intros Hit f1.
  assert (start_times f1 = (λ i, Some (or_time it i)) <$> start_times f) as Hs.
  { unfold f1, Fixed_render. destruct (foldl _ _ _) as [[? ?] ?]. simpl.
    by rewrite <- list_fmap_compose. }
  assert (anim_times f1 = (λ i, Some (or_time it i)) <$> anim_times f) as Ha.
  { unfold f1, Fixed_render. destruct (foldl _ _ _) as [[? ?] ?]. simpl.
    by rewrite <- list_fmap_compose. }
  split; [done|]. split; [done|]. split; [|split].
  - intros k Hk. rewrite Hs, list_lookup_fmap, Hk. done.
  - intros k q Hk Hq. rewrite Hs, list_lookup_fmap, Hk. simpl.
    unfold truthyQ. by rewrite (Qeq_bool_neq_false q 0).
  - intros ft' it' w' h' st' at' f2.
    unfold f2, Fixed_render. destruct (foldl _ _ _) as [[? ?] ?]. simpl.
    rewrite Hs, Ha, <- !list_fmap_compose. split.
    + apply list_fmap_ext. intros k i _. simpl. f_equal. by apply or_time_fixed.
    + apply list_fmap_ext. intros k i _. simpl. f_equal. by apply or_time_fixed.
Qed.

End ContainerFacts.

(** ** The sizes of boxes and grids *)

Section SizeFacts.
Context {D S : Type} `{!Layout.Displayable D S}.
Import Layout Notions.

Lemma maxZ_nonneg (l : list Z) : 0 ≤ maxZ l.
Proof. induction l as [|x l IH]; simpl; lia. Qed.

Lemma sumZ_app (l k : list Z) : sumZ (l ++ k) = sumZ l + sumZ k.
Proof. induction l as [|x l IH]; simpl; lia. Qed.

Lemma maxZ_app (l k : list Z) : maxZ (l ++ k) = Z.max (maxZ l) (maxZ k).
Proof.
  induction l as [|x l IH]; simpl.
  - pose proof (maxZ_nonneg k). lia.
  - rewrite IH. lia.
Qed.







End SizeFacts.

Section GridSizeFacts.
Context {D S : Type} `{!Layout.Displayable D S}.
Import Layout Notions.




(** A grid with no columns that is asked to fill the width fails with a
    division by zero, although it is full (it has no children). *)
Theorem Grid_render_no_columns (g : Grid D) (w h : Z) (st at_ : Q) :
  cols g = 0 → children (g_base g) = [] → g_xfill g = true →
  (Grid_render g w h st at_).2 = Raise ZeroDivisionError.
Proof.
  intros Hc Hk Hx. unfold Grid_render. rewrite Hc, Hk, Hx. simpl.
  destruct (transpose g); simpl.
  - unfold transpose_children.
    assert (Hskip : ∀ (l : list Z) (acc : list D * bool),
               foldl (λ acc y, foldl (transpose_cell 0 (rows g) [] y) acc (range 0))
                     acc l = acc).
    { induction l as [|k l IH]; intros acc; simpl; [done|apply IH]. }
    by rewrite Hskip.
  - done.
Qed.

End GridSizeFacts.

(** ** Motion, Zoom and Interpolate over time *)

Section FloatFacts.

Lemma Qeq_bool_pos_false (y : Q) : (0 < y)%Q → Qeq_bool y 0 = false.
Proof.
  intros Hy. destruct (Qeq_bool y 0) eqn:E; [|done].
  apply Qeq_bool_iff in E. lra.
Qed.

Lemma Qfloor_bounds (q : Q) :
  (inject_Z (Qfloor q) <= q ∧ q < inject_Z (Qfloor q) + 1)%Q.
Proof.
  split; [apply Qfloor_le|].
  pose proof (Qlt_floor q) as Hlt. rewrite inject_Z_plus in Hlt. exact Hlt.
Qed.

Lemma Qfloor_unique (q : Q) (n : Z) :
  (inject_Z n <= q)%Q → (q < inject_Z n + 1)%Q → Qfloor q = n.
Proof.
  intros Hle Hlt. destruct (Qfloor_bounds q) as [Hf1 Hf2].
  assert (inject_Z n < inject_Z (Qfloor q + 1))%Q as H1
    by (rewrite inject_Z_plus; change (inject_Z 1) with 1%Q; lra).
  assert (inject_Z (Qfloor q) < inject_Z (n + 1))%Q as H2
    by (rewrite inject_Z_plus; change (inject_Z 1) with 1%Q; lra).
  rewrite <- Zlt_Qlt in H1, H2. lia.
Qed.

(** [x % y] for a positive [y] lies in [0, y). *)
Lemma fmod_pos_bound (x y : Q) :
  (0 < y)%Q → ∃ r, fmod x y = Some r ∧ (0 <= r < y)%Q.
Proof.
  intros Hy. unfold fmod. rewrite Qeq_bool_pos_false by done.
  eexists. split; [reflexivity|].
  destruct (Qfloor_bounds (x / y)) as [Hf1 Hf2].
  assert (x / y * y == x)%Q as Hxy by (field; lra).
  set (f := inject_Z (Qfloor (x / y))) in *. set (q := (x / y)%Q) in *.
  split; nra.
Qed.

(** [(x + y) % y] is [x % y]. *)
Lemma fmod_add_period (x y : Q) :
  (0 < y)%Q →
  ∃ r r', fmod x y = Some r ∧ fmod (x + y) y = Some r' ∧ (r == r')%Q.
Proof.
  intros Hy. unfold fmod. rewrite Qeq_bool_pos_false by done.
  eexists _, _. split; [reflexivity|]. split; [reflexivity|].
  destruct (Qfloor_bounds (x / y)) as [Hf1 Hf2].
  assert ((x + y) / y == x / y + 1)%Q as Hq by (field; lra).
  rewrite (Qfloor_unique ((x + y) / y) (Qfloor (x / y) + 1)).
  - rewrite inject_Z_plus. change (inject_Z 1) with 1%Q. ring.
  - rewrite inject_Z_plus, Hq. change (inject_Z 1) with 1%Q. lra.
  - rewrite inject_Z_plus, Hq. change (inject_Z 1) with 1%Q. lra.
Qed.

(** [int(q)] of a value between two integers lies between them. *)
Lemma trunc_between (lo hi : Z) (q : Q) :
  (inject_Z lo <= q)%Q → (q <= inject_Z hi)%Q → lo ≤ trunc q ≤ hi.
Proof.
  destruct q as [n d]. unfold Qle, trunc. simpl. rewrite !Z.mul_1_r.
  intros Hlo Hhi.
  destruct (Z.le_gt_cases 0 n) as [Hn|Hn].
  - rewrite Z.quot_div_nonneg by lia. split.
    + apply Z.div_le_lower_bound; lia.
    + apply Z.div_le_upper_bound; lia.
  - replace n with (- - n) by lia. rewrite Z.quot_opp_l by lia.
    rewrite Z.quot_div_nonneg by lia.
    assert (- hi ≤ (- n) `div` Z.pos d) by (apply Z.div_le_lower_bound; lia).
    assert ((- n) `div` Z.pos d ≤ - lo) by (apply Z.div_le_upper_bound; lia).
    lia.
Qed.

End FloatFacts.

Section MotionTimeFacts.
Context {D S : Type} `{!Layout.Displayable D S}.
Import Layout.

(** The progress value lies between 0 and 1. *)
Lemma Motion_progress_bounds {P} (m : Motion D P) (st at_ : Q) :
  (0 < period m)%Q →
  (0 <= (if anim_timebase m then at_ else st))%Q →
  (∀ d, delay m = Some d → repeat m = false → 0 <= d <= period m)%Q →
  ∃ p, (Motion_progress m st at_).2 = Return p ∧ (0 <= p <= 1)%Q.
Proof.
  intros Hp Ht Hd. unfold Motion_progress.
  set (t := if anim_timebase m then at_ else st) in *.
  assert (∀ t1, (0 <= t1 <= period m)%Q →
            ∃ q, fdiv t1 (period m) = Some q ∧ (0 <= q <= 1)%Q) as Hfin.
  { intros t1 [H0 H1]. unfold fdiv. rewrite Qeq_bool_pos_false by done.
    eexists. split; [reflexivity|].
    assert (t1 / period m * period m == t1)%Q as Hq by (field; lra).
    set (q := (t1 / period m)%Q) in *. split; nra. }
  assert (∀ q, (0 <= q <= 1)%Q →
            (0 <= (if bounce m
                   then if Qltb 1 (q * 2) then 2 - q * 2 else q * 2
                   else q) <= 1)%Q) as Hb.
  { intros q [Hq0 Hq1]. destruct (bounce m); [|lra].
    destruct (Qltb 1 (q * 2)) eqn:E.
    - apply Qltb_true in E. lra.
    - apply Qltb_false in E. lra. }
  assert (∀ x, ∃ r, fmod x (period m) = Some r ∧ (0 <= r <= period m)%Q) as Hmod.
  { intros x. destruct (fmod_pos_bound x (period m) Hp) as (r & -> & Hr).
    exists r. split; [done|lra]. }
  assert (0 <= period m <= period m)%Q as Hpp by lra.
  destruct (delay m) as [d|] eqn:Ed;
    [destruct (truthyQ d && Qleb d t) eqn:Epast|];
    destruct (repeat m) eqn:Er;
    try (destruct (Hmod d) as (r & -> & Hr));
    try (destruct (Hmod t) as (r & -> & Hr));
    try (destruct (Qltb (period m) t) eqn:E; [|apply Qltb_false in E]);
    try (specialize (Hd d eq_refl eq_refl));
    cbv beta iota;
    match goal with
    | |- context [fdiv ?x (period m)] =>
        destruct (Hfin x ltac:(lra)) as (q & -> & Hq)
    end;
    (eexists; split; [reflexivity|by apply Hb]).
Qed.

(** Whatever the timebase and the flags, [render] of a [Motion] with a
    positive period calls its function at a progress value between 0 and 1
    (and puts what the function returns there into the style), provided
    the time is not negative and the delay of a motion that does not repeat
    lies between 0 and the period.  (A longer delay lets the progress pass
    1.) *)
Theorem Motion_progress_in_unit {P} (m : Motion D P) (w h : Z) (st at_ : Q) :
  (0 < period m)%Q →
  (0 <= (if anim_timebase m then at_ else st))%Q →
  (∀ d, delay m = Some d → repeat m = false → 0 <= d <= period m)%Q →
  ∃ p, (0 <= p <= 1)%Q
       ∧ Notions.samples (function m) (m_child m) p m w h st at_
           (Motion_render m w h st at_).
Proof.
  intros Hp Ht Hd.
  destruct (Motion_progress_bounds m st at_ Hp Ht Hd) as (p & Hprog & Hb).
  exists p. split; [done|].
  destruct (Motion_progress m st at_) as [rd o] eqn:E. simpl in Hprog. subst o.
  by destruct (Motion_render_samples m w h st at_ _ _ E).
Qed.

(** A [Motion] whose period is zero cannot be rendered: every call fails
    with a division by zero. *)
Theorem Motion_zero_period {P} (m : Motion D P) (w h : Z) (st at_ : Q) :
  (period m == 0)%Q →
  (Motion_render m w h st at_).2 = Raise ZeroDivisionError.
Proof.
  intros Hp. apply Qeq_bool_iff in Hp.
  assert ((Motion_progress m st at_).2 = Raise ZeroDivisionError) as Hprog.
  { unfold Motion_progress, fmod, fdiv. rewrite Hp.
    destruct (delay m) as [d|]; repeat case_match; simplify_eq; done. }
  unfold Motion_render. destruct (Motion_progress m st at_) as [rd [p|e]];
    simpl in *; by simplify_eq.
Qed.

(** With exact arithmetic on the times, the progress of a repeating motion
    is the same one period later. *)
Lemma Motion_progress_periodic {P} (f : Q → list P) (p : Q)
    (child new_widget : option D) (bounce timebase : bool) (st at_ : Q) :
  (0 < p)%Q →
  let m := Motion_init f p child new_widget true bounce None timebase in
  ∃ v v', Motion_progress m st at_ = ([0%Q], Return v)
          ∧ Motion_progress m (st + p) (at_ + p) = ([0%Q], Return v')
          ∧ (v == v')%Q.
Proof.
  intros Hp m. unfold Motion_progress, m. simpl.
  set (t := if timebase then at_ else st).
  replace (if timebase then (at_ + p)%Q else (st + p)%Q) with (t + p)%Q
    by (unfold t; by destruct timebase).
  destruct (fmod_add_period t p Hp) as (r & r' & -> & -> & Hr).
  unfold fdiv. rewrite Qeq_bool_pos_false by done.
  eexists _, _. split; [reflexivity|]. split; [reflexivity|].
  assert (r / p == r' / p)%Q as Hq by (by rewrite Hr).
  destruct bounce; [|done].
  destruct (Qltb 1 (r / p * 2)) eqn:E, (Qltb 1 (r' / p * 2)) eqn:E'.
  - by rewrite Hq.
  - apply Qltb_true in E. apply Qltb_false in E'. lra.
  - apply Qltb_false in E. apply Qltb_true in E'. lra.
  - by rewrite Hq.
Qed.

(** With exact arithmetic on the times, a bouncing motion is at progress 1
    half way and back at 0 once the period is over. *)
Lemma Motion_progress_bounce {P} (f : Q → list P) (p : Q)
    (child new_widget : option D) (timebase : bool) (st at_ : Q) :
  (0 < p)%Q →
  let m := Motion_init f p child new_widget false true None timebase in
  let t := if timebase then at_ else st in
  ((p <= t)%Q → ∃ v, Motion_progress m st at_ = ([], Return v) ∧ (v == 0)%Q)
  ∧ ((t == p / 2)%Q →
       ∃ v, Motion_progress m st at_ = ([0%Q], Return v) ∧ (v == 1)%Q).
Proof.
  intros Hp m t. unfold Motion_progress, m. simpl. fold t.
  unfold truthyQ, fdiv. rewrite Qeq_bool_pos_false by done. simpl.
  split.
  - intros Ht. apply Qleb_true in Ht. rewrite Ht.
    assert (p / p == 1)%Q as Hq by (field; lra).
    destruct (Qltb 1 (p / p * 2)) eqn:E.
    + eexists. split; [reflexivity|]. lra.
    + apply Qltb_false in E. lra.
  - intros Ht0.
    assert (t == p * (1 # 2))%Q as Ht by (rewrite Ht0; field).
    assert (Qleb p t = false) as -> by (apply Qleb_false; lra).
    assert (Qltb p t = false) as -> by (apply Qltb_false; lra).
    assert (t / p == 1 # 2)%Q as Hq by (rewrite Ht; field; lra).
    set (q := (t / p)%Q) in *. clearbody q.
    destruct (Qltb 1 (q * 2)) eqn:E.
    + apply Qltb_true in E. lra.
    + eexists. split; [reflexivity|]. lra.
Qed.

(** A repeating [Motion] made without a delay is periodic: it asks for a
    redraw at every call, and two calls one period apart call the function
    at the same progress value.  This is for a period and a time that
    binary floating point adds without rounding, the time not negative. *)
Theorem Motion_repeat_is_periodic {P} (f : Q → list P) (p : Q)
    (child new_widget : option D) (bounce timebase : bool) (k : nat)
    (w h : Z) (st at_ : Q) :
  (0 < p)%Q → Notions.ticks k p = true →
  Notions.ticks k (if timebase then at_ else st) = true →
  (0 <= (if timebase then at_ else st))%Q →
  let m := Motion_init f p child new_widget true bounce None timebase in
  let drawn := match child with None => new_widget | Some c => Some c end in
  let first := Motion_render m w h st at_ in
  let second := Motion_render m w h (st + p) (at_ + p) in
  ∃ v v', (v == v')%Q
          ∧ Notions.samples f drawn v m w h st at_ first
          ∧ Notions.samples f drawn v' m w h (st + p) (at_ + p) second
          ∧ first.1.2 = [0%Q] ∧ second.1.2 = [0%Q].
Proof.
  intros Hp _ _ _ m drawn first second.
  destruct (Motion_progress_periodic f p child new_widget bounce timebase st at_ Hp)
    as (v & v' & H1 & H2 & Hv).
  fold m in H1, H2. exists v, v'. split; [done|].
  destruct (Motion_render_samples m w h st at_ _ _ H1) as [Hs1 Hr1].
  destruct (Motion_render_samples m w h (st + p) (at_ + p) _ _ H2) as [Hs2 Hr2].
  done.
Qed.

(** A bouncing [Motion] that does not repeat, made without a delay, rests
    at its start position once the period is over: [render] calls the
    function at the progress 0 and asks for no redraw. *)
Theorem Motion_bounce_returns {P} (f : Q → list P) (p : Q)
    (child new_widget : option D) (timebase : bool) (w h : Z) (st at_ : Q) :
  (0 < p)%Q → (p <= (if timebase then at_ else st))%Q →
  let m := Motion_init f p child new_widget false true None timebase in
  let drawn := match child with None => new_widget | Some c => Some c end in
  let result := Motion_render m w h st at_ in
  ∃ v, (v == 0)%Q ∧ Notions.samples f drawn v m w h st at_ result
       ∧ result.1.2 = [].
Proof.
  intros Hp Ht m drawn result.
  destruct (Motion_progress_bounce f p child new_widget timebase st at_ Hp)
    as [Hend _].
  destruct (Hend Ht) as (v & Hv & E). fold m in Hv.
  exists v. split; [done|].
  by destruct (Motion_render_samples m w h st at_ _ _ Hv).
Qed.

End MotionTimeFacts.

Section ZoomTimeFacts.
Context {D S : Type} `{!Layout.Displayable D S}.
Import Layout.

Lemma interp_ends (done : Q) (l : list (Q * Q)) :
  ((done == 1)%Q → Forall2 Qeq (interp done <$> l) (l.*2))
  ∧ ((done == 0)%Q → Forall2 Qeq (interp done <$> l) (l.*1)).
Proof.
  split; intros Hd; induction l as [|[a b] l IH]; simpl; constructor; try done;
    unfold interp; simpl; rewrite Hd; ring.
Qed.

(** A [Zoom] without [after_child] and with a positive duration: its render
    always has the supplied size; at [st = 0] the rectangle cropped is the
    start rectangle and a redraw is asked for; from [st = time] on it is the
    end rectangle and no redraw is asked for. *)
Theorem Zoom_from_start_to_end (z : Zoom D) (w h : Z) (st at_ : Q) (rend : S) :
  after_child z = None → (0 < z_time z)%Q →
  render_child (z_child z) w h st at_ = Return rend →
  ∃ rect redraws,
    Zoom_render z w h st at_ = (redraws, Return (Scaled rend rect (z_size z)))
    ∧ ((st == 0)%Q →
         redraws = [0%Q] ∧ Forall2 Qeq rect ((zip (z_start z) (z_end z)).*1))
    ∧ ((z_time z <= st)%Q →
         redraws = [] ∧ Forall2 Qeq rect ((zip (z_start z) (z_end z)).*2))
    ∧ ((st < z_time z)%Q → redraws = [0%Q]).
Proof.
  intros Ha Ht Hr. unfold Zoom_render. rewrite Ha, Hr.
  eexists _, _. split; [reflexivity|].
  pose proof (Zoom_done_one z st ltac:(lra)) as Hone.
  assert (st == 0 → Zoom_done z st == 0)%Q as Hzero.
  { intros E. unfold Zoom_done, truthyQ, fmin.
    rewrite Qeq_bool_pos_false by done. simpl.
    assert (st / z_time z == 0)%Q as Hq by (rewrite E; field; lra).
    destruct (Qltb 1 (st / z_time z)) eqn:E1; [|done].
    apply Qltb_true in E1. lra. }
  assert (Zoom_done z st <= 1)%Q as Hle.
  { unfold Zoom_done, truthyQ, fmin. rewrite Qeq_bool_pos_false by done. simpl.
    destruct (Qltb 1 (st / z_time z)) eqn:E1; [lra|].
    by apply Qltb_false in E1. }
  split; [|split].
  - intros E. specialize (Hzero E).
    assert (Qltb (Zoom_done z st) 1 = true) as -> by (apply Qltb_true; lra).
    split; [done|]. by apply interp_ends.
  - intros E. assert (Zoom_done z st == 1)%Q as H1 by (apply Hone; by right).
    assert (Qltb (Zoom_done z st) 1 = false) as -> by (apply Qltb_false; lra).
    split; [done|]. by apply interp_ends.
  - intros E.
    assert (Qltb (Zoom_done z st) 1 = true) as ->; [|done].
    apply Qltb_true. destruct (Qlt_le_dec (Zoom_done z st) 1) as [|Hge]; [done|].
    assert (Zoom_done z st == 1)%Q as H1 by lra.
    apply Hone in H1 as [H1|H1]; lra.
Qed.

End ZoomTimeFacts.

Section InterpolateFacts.
Import Layout Notions.

Lemma to_float_number (a : pos) : is_number a → ∃ q, to_float a = Some q.
Proof. destruct a; simpl; [by eexists..|done]. Qed.

Lemma trunc_inject (q : Q) (z : Z) : (q == inject_Z z)%Q → trunc q = z.
Proof.
  intros E. pose proof (trunc_between z z q) as Hb.
  specialize (Hb ltac:(lra) ltac:(lra)). lia.
Qed.

Lemma Interpolate_list_spec (t : Q) (l : list (pos * pos)) :
  match Interpolate_list t l with
  | Return vs =>
      Forall (λ ab, is_number ab.1 ∧ is_number ab.2) l
      ∧ Forall2 (λ ab v, Interpolate_interp t ab = Return v) l vs
  | Raise e =>
      e = TypeError ∧ Exists (λ ab, ¬ (is_number ab.1 ∧ is_number ab.2)) l
  end.
Proof.
  induction l as [|[a b] l IH]; simpl; [by split; constructor|].
  destruct (Interpolate_interp t (a, b)) as [v|e] eqn:Ei.
  - assert (is_number a ∧ is_number b) as Hn.
    { unfold Interpolate_interp in Ei. destruct a, b; simpl in *; done. }
    destruct (Interpolate_list t l) as [vs|e].
    + destruct IH as [Hall Hvs]. split; by constructor.
    + destruct IH as [-> Hex]. split; [done|]. by apply Exists_cons_tl.
  - unfold Interpolate_interp in Ei.
    split; [destruct a, b; simpl in *; congruence|].
    apply Exists_cons_hd. intros [Ha Hb].
    destruct a, b; simpl in *; done.
Qed.

(** Calling an [Interpolate] whose [int] entries are small (below [2^31] in
    size) at a [t] between 0 and 1 either gives one value for each pair of
    a start and an end entry, or fails with a TypeError; it fails exactly
    when an entry is a string that names no anchor.  At [t = 0] the values
    are those of the start, at [t = 1] those of the end.  (In between, the
    program rounds before it truncates; nothing is said of the values
    there.) *)
Theorem Interpolate_call_values (start end_ : list pos) (i : Interpolate) (t : Q) :
  Interpolate_init start end_ = Return i →
  Forall small_int start → Forall small_int end_ → (0 <= t <= 1)%Q →
  match Interpolate_call i t with
  | Return vs =>
      Forall is_number (i_start i) ∧ Forall is_number (i_end i)
      ∧ length vs = length start
      ∧ ((t == 0)%Q → Forall2 same_value vs (i_start i))
      ∧ ((t == 1)%Q → Forall2 same_value vs (i_end i))
  | Raise e =>
      e = TypeError
      ∧ (Exists (λ a, ¬ is_number a) (i_start i)
         ∨ Exists (λ a, ¬ is_number a) (i_end i))
  end.
Proof.
  unfold Interpolate_init, Interpolate_call.
  destruct (length start =? length end_)%nat eqn:El; simpl; [|done].
  apply Nat.eqb_eq in El. intros [= <-] _ _ _. simpl.
  assert (length (anchor_or_self <$> start) = length (anchor_or_self <$> end_)) as El'
    by (by rewrite !length_fmap).
  assert (length (anchor_or_self <$> start) = length start) as Els
    by (by rewrite length_fmap).
  revert El' Els. generalize (anchor_or_self <$> start) as s.
  generalize (anchor_or_self <$> end_) as e. intros e s El' Els.
  pose proof (Interpolate_list_spec t (zip s e)) as Hspec.
  destruct (Interpolate_list t (zip s e)) as [vs|ex].
  - destruct Hspec as [Hall Hvs].
    assert (Forall is_number s ∧ Forall is_number e) as [Hs He].
    { clear Hvs Els. revert e El' Hall.
      induction s as [|a s IH]; intros [|b e] El' Hall; simpl in *; try done.
      apply Forall_cons in Hall as [[Ha Hb] Hall].
      destruct (IH e ltac:(lia) Hall). split; by constructor. }
    split; [done|]. split; [done|].
    split.
    { apply Forall2_length in Hvs. rewrite <- Hvs, length_zip_with. lia. }
    clear Hall Hs He Els. revert e vs El' Hvs.
    induction s as [|a s IH]; intros [|b e] vs El' Hvs; simpl in *; try done.
    { apply Forall2_nil_inv_l in Hvs as ->. repeat split; intros; constructor. }
    apply Forall2_cons_inv_l in Hvs as (v & vs' & Hv & Hvs & ->).
    destruct (IH e vs' ltac:(lia) Hvs) as (H0 & H1).
    unfold Interpolate_interp in Hv. simpl in Hv.
    split.
    + intros E. constructor; [|by apply H0].
      destruct a, b; simpl in *; simplify_eq; unfold same_value; simpl;
        try (rewrite E; ring).
      rewrite (trunc_inject _ z); [done|]. rewrite E. ring.
    + intros E. constructor; [|by apply H1].
      destruct a, b; simpl in *; simplify_eq; unfold same_value; simpl;
        try (rewrite E; ring).
      rewrite (trunc_inject _ z0); [done|]. rewrite E. ring.
  - destruct Hspec as [-> Hex]. split; [done|].
    clear Els. revert e El' Hex.
    induction s as [|a s IH]; intros [|b e] El' Hex; simpl in *;
      try (by apply Exists_nil in Hex).
    apply Exists_cons in Hex as [Hex|Hex].
    + simpl in Hex.
      destruct a; [destruct b| |].
      * exfalso. by apply Hex.
      * exfalso. by apply Hex.
      * right. apply Exists_cons_hd. by intros [].
      * destruct b; [exfalso; by apply Hex|exfalso; by apply Hex|].
        right. apply Exists_cons_hd. by intros [].
      * left. apply Exists_cons_hd. by intros [].
    + destruct (IH e ltac:(lia) Hex) as [H|H]; [left|right];
        by apply Exists_cons_tl.
Qed.

(** [Interpolate] refuses a start and an end of different lengths. *)
Theorem Interpolate_init_lengths (start end_ : list pos) :
  length start ≠ length end_ →
  Interpolate_init start end_ = Raise (Exception msg_interpolate).
Proof.
  intros Hne. unfold Interpolate_init.
  by destruct (Nat.eqb_spec (length start) (length end_)).
Qed.

End InterpolateFacts.

(** ** LiveComposite *)

Section LiveCompositeFacts.
Context {W P : Type}.
Import Layout Notions.

Lemma live_args_pairs (pairs : list ((P * P) * live_arg W P)) :
  zip (stride2 (live_args pairs)) (stride2 (tail (live_args pairs)))
  = (λ pw, (LPos pw.1.1 pw.1.2, pw.2)) <$> pairs.
Proof.
  induction pairs as [|[[x y] w] pairs IH]; [done|].
  destruct pairs as [|[[x' y'] w'] pairs]; [done|].
  cbn [live_args flat_map app fst snd tail stride2 zip zip_with fmap list_fmap] in *.
  by rewrite IH.
Qed.

Lemma live_args_length (pairs : list ((P * P) * live_arg W P)) :
  length (live_args pairs) = (2 * length pairs)%nat.
Proof. induction pairs as [|pw pairs IH]; simpl in *; lia. Qed.

Lemma LiveComposite_loop_adds (pairs : list ((P * P) * live_arg W P))
    (rv : Fixed (Positioned W P)) :
  LiveComposite_loop rv ((λ pw, (LPos pw.1.1 pw.1.2, pw.2)) <$> pairs)
  = Return
      (foldl (λ f pw, Fixed_add f
                (Some (mkPositioned pw.2 pw.1.1 "left" pw.1.2 "top")) None None)
             rv pairs).
Proof.
  revert rv. induction pairs as [|[[x y] w] pairs IH]; intros rv; [done|].
  simpl. apply IH.
Qed.

(** [LiveComposite] given a position before every widget returns a [Fixed]
    that holds one child for each widget, in the order given (the last one
    is drawn on top), each anchored by its left and top at its position;
    every child has its start times, both unset. *)
Theorem LiveComposite_places_each (size : Z * Z)
    (pairs : list ((P * P) * live_arg W P)) :
  ∃ f, LiveComposite size (live_args pairs) = Return f
       ∧ children (f_base f)
         = (λ pw, mkPositioned pw.2 pw.1.1 "left" pw.1.2 "top") <$> pairs
       ∧ start_times f = replicate (length pairs) None
       ∧ anim_times f = replicate (length pairs) None
       ∧ Fixed_wf f.
Proof.
  unfold LiveComposite. rewrite live_args_length.
  assert ((2 * length pairs) `mod` 2 = 0)%nat as ->
    by (rewrite Nat.mul_comm; apply Nat.Div0.mod_mul).
  cbn [Nat.eqb negb]. rewrite live_args_pairs, LiveComposite_loop_adds.
  eexists. split; [reflexivity|].
  assert (∀ rv : Fixed (Positioned W P),
            let f := foldl (λ f pw, Fixed_add f
                              (Some (mkPositioned pw.2 pw.1.1 "left" pw.1.2 "top"))
                              None None) rv pairs in
            children (f_base f)
            = children (f_base rv)
              ++ ((λ pw, mkPositioned pw.2 pw.1.1 "left" pw.1.2 "top") <$> pairs)
            ∧ start_times f = start_times rv ++ replicate (length pairs) None
            ∧ anim_times f = anim_times rv ++ replicate (length pairs) None) as Hfold.
  { induction pairs as [|pw pairs IH]; intros rv; simpl.
    - by rewrite !app_nil_r.
    - destruct (IH (Fixed_add rv
                      (Some (mkPositioned pw.2 pw.1.1 "left" pw.1.2 "top"))
                      None None)) as (Hc & Hs & Ha).
      rewrite Hc, Hs, Ha. simpl. by rewrite <- !app_assoc. }
  destruct (Hfold Fixed_init) as (Hc & Hs & Ha). simpl in Hc, Hs, Ha.
  split; [done|]. split; [done|]. split; [done|].
  unfold Fixed_wf. rewrite Hc, Hs, Ha, length_fmap, length_replicate. lia.
Qed.

(** [LiveComposite] refuses an odd number of arguments after the size. *)
Theorem LiveComposite_odd_count (size : Z * Z) (args : list (live_arg W P)) :
  Nat.odd (length args) = true →
  LiveComposite size args = Raise (Exception msg_live).
Proof.
  intros Hodd. unfold LiveComposite.
  destruct (Nat.eqb_spec (length args `mod` 2) 0) as [E|E]; [|done].
  apply Nat.Div0.mod_divides in E as [k E].
  rewrite E, Nat.odd_mul in Hodd. done.
Qed.

End LiveCompositeFacts.

(** ** More of the widget stack *)

Section UiMoreFacts.
Import Ui.

(** [ui.imagemap] is balanced in the same way as [ui.menu], and returns the
    fixed it made; the ground image and the buttons have been added to it,
    in this order. *)
Theorem imagemap_is_balanced (rv ground : nat) (buttons : list nat) (s : state) :
  (∀ s' r, add rv false false s = (s', Return r) →
     ∃ s2, imagemap rv ground buttons s = (s2, Return rv)
       ∧ current s2 = current s'
       ∧ current_stack s2 = current_stack s'
       ∧ current_once s2 = false
       ∧ added s2 = added s' ++ ((λ w, (Widget rv, w)) <$> ground :: buttons))
  ∧ (∀ s' e, add rv false false s = (s', Raise e) →
       imagemap rv ground buttons s = (s', Raise e)).
Proof.
  unfold imagemap. rewrite (add_cases rv true false), (add_cases rv false false).
  simpl. destruct (current_once s) eqn:Eo.
  - destruct (pop (current_stack s)) as [[rest top]|] eqn:E.
    + split; [|done]. intros s' r [= <- <-].
      rewrite add_each_plain by done. unfold close. simpl. rewrite pop_snoc.
      simpl. by eexists.
    + split; [done|]. by intros s' e [= <- <-].
  - split; [|done]. intros s' r [= <- <-].
    rewrite add_each_plain by done. unfold close. simpl. rewrite pop_snoc.
    simpl. by eexists.
Qed.

(** [ui.interact] refuses to run while anything is open: after a widget or
    a known layer has been opened, or a widget reopened, it raises; once
    [close] has returned to the state before, its guard says what it said
    there. *)
Theorem interact_needs_empty_stack (s : state) :
  (interact_guard s = Return tt ↔ current_stack s = [])
  ∧ (∀ w clear, interact_guard (reopen w clear s) = Raise (Exception msg_interact))
  ∧ (∀ w once s1 r, add w true once s = (s1, Return r) →
       interact_guard s1 = Raise (Exception msg_interact))
  ∧ (∀ layers top name s1, layer layers top name s = (s1, Return tt) →
       interact_guard s1 = Raise (Exception msg_interact)).
Proof.
  assert (∀ (l : list target) (x : target),
            match l ++ [x] with
            | [] => Return tt
            | _ :: _ => Raise (Exception msg_interact)
            end = Raise (Exception msg_interact)) as Hsnoc
    by (by intros [|y l] x).
  split; [|split; [|split]].
  - unfold interact_guard. by destruct (current_stack s).
  - intros w clear. unfold interact_guard, reopen. simpl. apply Hsnoc.
  - intros w once s1 r. rewrite add_cases. simpl.
    destruct (current_once s).
    + destruct (pop (current_stack s)) as [[rest top]|]; [|done].
      intros [= <- <-]. unfold interact_guard. simpl. apply Hsnoc.
    + intros [= <- <-]. unfold interact_guard. simpl. apply Hsnoc.
  - intros layers top name s1. unfold layer.
    destruct (negb (is_str (current s))); [done|].
    destruct (_ && _); [done|].
    intros [= <-]. unfold interact_guard. simpl. apply Hsnoc.
Qed.

(** Reopening a widget and closing it again leaves the current target and
    the stack as they were; a widget reopened with [clear] has lost its
    children.  While a single-use widget is awaited, the [close] raises. *)
Theorem reopen_then_close (w : nat) (clear : bool) (s : state) :
  (current_once s = false →
     ∃ s', close (reopen w clear s) = (s', Return tt)
       ∧ current s' = current s ∧ current_stack s' = current_stack s
       ∧ added s' = added s
       ∧ cleared s' = if clear then cleared s ++ [w] else cleared s)
  ∧ (current_once s = true →
       (close (reopen w clear s)).2 = Raise (Exception msg_expecting)).
Proof.
  unfold close, reopen. simpl. rewrite pop_snoc.
  split; intros ->; simpl; [by eexists|done].
Qed.

End UiMoreFacts.

(** ** Animation, for any arguments *)

Section AnimationMoreFacts.
Context {D : Type}.
Import Anim Notions.

Lemma Animation_new_lengths (args : list (value D)) (timebase : option bool) :
  length (images (Animation_new args timebase))
  = length (delays (Animation_new args timebase)).
Proof.
  destruct (Nat.odd (length args)) eqn:Hodd.
  - by apply Animation_new_odd.
  - unfold Animation_new. rewrite (Animation_split args 0 [] []). simpl.
    pose proof (alternate_lengths args) as Hl. rewrite Hodd in Hl.
    destruct (Nat.ltb_spec (length (alternate args).2) (length (alternate args).1));
      [lia|]. simpl. lia.
Qed.

Lemma Animation_new_images (args : list (value D)) (timebase : option bool) :
  images (Animation_new args timebase) = (alternate args).1.
Proof.
  unfold Animation_new. by rewrite (Animation_split args 0 [] []).
Qed.

Lemma sum_delays_from (qs : list Q) (a : Q) :
  ∃ total,
    foldl (λ acc v,
             match acc, v with
             | Return a, Num q => Return (a + q)%Q
             | Return _, Img _ => Raise TypeError
             | Raise x, _ => Raise x
             end) (Return a) (Num (D:=D) <$> qs) = Return total
    ∧ (total == a + foldr Qplus 0 qs)%Q.
Proof.
  revert a. induction qs as [|q qs IH]; intros a.
  - exists a. split; [done|simpl; ring].
  - rewrite fmap_cons. cbn [foldl foldr].
    destruct (IH (a + q)%Q) as (total & -> & Ht).
    exists total. split; [done|]. rewrite Ht. ring.
Qed.

Lemma numbers_of (dls : list (value D)) :
  (∀ v, v ∈ dls → ∃ q, v = Num q ∧ (0 < q)%Q) →
  ∃ qs, dls = Num <$> qs ∧ Forall (λ q, (0 < q)%Q) qs.
Proof.
  induction dls as [|v dls IH]; intros Hall.
  - by exists [].
  - destruct (Hall v ltac:(left)) as (q & -> & Hq).
    destruct IH as (qs & -> & Hqs); [intros v Hv; apply Hall; by right|].
    exists (q :: qs). split; [done|by constructor].
Qed.

(** With exact arithmetic, the running subtraction ends within the list. *)
Lemma scan_finds (imgs : list (value D)) (qs : list Q) (t : Q) :
  length imgs = length qs → Forall (λ q, (0 < q)%Q) qs →
  (0 <= t)%Q → (t < foldr Qplus 0 qs)%Q →
  ∃ img redraw, scan (zip imgs (Num <$> qs)) t = Return (Some (img, redraw))
                ∧ img ∈ imgs ∧ (0 < redraw)%Q.
Proof.
  revert qs t. induction imgs as [|img imgs IH]; intros [|q qs] t Hl Hpos H0 Ht;
    simpl in *; try done.
  - lra.
  - apply Forall_cons in Hpos as [Hq Hpos].
    destruct (Qltb t q) eqn:E.
    + apply Qltb_true in E. exists img, (q - t)%Q.
      split; [done|]. split; [by left|lra].
    + apply Qltb_false in E.
      destruct (IH qs (t - q)%Q ltac:(lia) Hpos ltac:(lra) ltac:(lra))
        as (i & rd & Hs & Hin & Hrd).
      exists i, rd. split; [done|]. split; [by right|done].
Qed.

(** With exact arithmetic on the times, the scan of [render] finds a
    frame whenever there is one and the delays are positive. *)
Lemma Animation_render_finds (args : list (value D)) (timebase : option bool)
    (w h : Z) (st at_ : Q) :
  let a := Animation_new args timebase in
  args ≠ [] →
  (∀ v, v ∈ delays a → ∃ q, v = Num q ∧ (0 < q)%Q) →
  length (images a) = length (delays a)
  ∧ ∃ img redraw,
      Animation_render a w h st at_ = Return (Some (img, redraw))
      ∧ img ∈ images a ∧ (0 < redraw)%Q.
Proof.
  intros a Hne Hnum. pose proof (Animation_new_lengths args timebase) as Hl.
  fold a in Hl. split; [done|].
  destruct (numbers_of _ Hnum) as (qs & Hd & Hpos).
  unfold Animation_render, sum_delays. rewrite Hd in *.
  destruct (sum_delays_from qs 0) as (total & -> & Ht).
  rewrite length_fmap in Hl.
  assert (0 < foldr Qplus 0 qs)%Q as Hsum.
  { destruct qs as [|q qs].
    - exfalso. apply Hne. unfold a in Hl.
      rewrite Animation_new_images in Hl. destruct args as [|x args]; [done|].
      simpl in Hl. by destruct (alternate args).
    - apply Forall_cons in Hpos as [Hq Hpos]. simpl.
      assert (0 <= foldr Qplus 0 qs)%Q; [|lra].
      clear -Hpos. induction Hpos; simpl; lra. }
  destruct (fmod_pos_bound (if an_anim_timebase a then at_ else st) total
              ltac:(lra)) as (t & -> & Hb).
  apply scan_finds; [done|done|lra|lra].
Qed.

(** An [Animation] made of at least one argument has as many delays as
    images.  When its delays are positive numbers that binary floating
    point adds without rounding (they and their sum are multiples of
    [2^-k] of bounded size), it can be rendered at every such time:
    [render] shows one of its images and asks for a redraw after a positive
    delay. *)
Theorem Animation_always_shows (args : list (value D)) (timebase : option bool)
    (k : nat) (total : Q) (w h : Z) (st at_ : Q) :
  let a := Animation_new args timebase in
  args ≠ [] →
  (∀ v, v ∈ delays a → ∃ q, v = Num q ∧ (0 < q)%Q ∧ ticks k q = true) →
  sum_delays (delays a) = Return total → ticks k total = true →
  ticks k (if an_anim_timebase a then at_ else st) = true →
  length (images a) = length (delays a)
  ∧ ∃ img redraw,
      Animation_render a w h st at_ = Return (Some (img, redraw))
      ∧ img ∈ images a ∧ (0 < redraw)%Q.
Proof.
  intros a Hne Hnum _ _ _. apply Animation_render_finds; [done|].
  intros v Hv. destruct (Hnum v Hv) as (q & -> & Hq & _). by exists q.
Qed.


End AnimationMoreFacts.

(** ** Blink *)

Section BlinkFacts.
Context {D S : Type} `{!Layout.Displayable D S}.
Import Layout Anim.

Lemma Q_and_true (a b x y : Q) :
  Qleb a x && Qltb x b = true → (a <= x ∧ x < b)%Q.
Proof.
  intros [H1 H2]%andb_true_iff. apply Qleb_true in H1. by apply Qltb_true in H2.
Qed.

Lemma Q_and_false (a b x y : Q) :
  Qleb a x && Qltb x b = false → (x < a ∨ b <= x)%Q.
Proof.
  intros [H1|H2]%andb_false_iff.
  - left. by apply Qleb_false in H1.
  - right. by apply Qltb_false in H2.
Qed.




(** With exact arithmetic on the times, one of the four phase tests
    passes. *)
Lemma Blink_phase_delay (b : Blink D) (t : Q) :
  (0 <= b_on b)%Q → (0 <= b_set b)%Q → (0 <= b_off b)%Q → (0 <= b_rise b)%Q →
  (b_cycle b == b_on b + b_set b + b_off b + b_rise b)%Q →
  (0 < b_cycle b)%Q →
  ∃ time delay,
    fmod (b_offset b + t) (b_cycle b) = Some time
    ∧ (Blink_phase b time).1 = Some delay
    ∧ (0 <= delay)%Q.
Proof.
  intros Hon Hset Hoff Hrise Hcycle Hpos.
  destruct (fmod_pos_bound (b_offset b + t) (b_cycle b) Hpos) as (time & -> & Ht).
  exists time. unfold Blink_phase.
  destruct (Qleb 0 time && Qltb time (b_on b)) eqn:E1;
    [apply (Q_and_true _ _ _ 0) in E1|apply (Q_and_false _ _ _ 0) in E1];
  (destruct (Qleb 0 (time - b_on b) && Qltb (time - b_on b) (b_set b)) eqn:E2;
    [apply (Q_and_true _ _ _ 0) in E2|apply (Q_and_false _ _ _ 0) in E2]);
  (destruct (Qleb 0 (time - b_on b - b_set b)
             && Qltb (time - b_on b - b_set b) (b_off b)) eqn:E3;
    [apply (Q_and_true _ _ _ 0) in E3|apply (Q_and_false _ _ _ 0) in E3]);
  (destruct (Qleb 0 (time - b_on b - b_set b - b_off b)
             && Qltb (time - b_on b - b_set b - b_off b) (b_rise b)) eqn:E4;
    [apply (Q_and_true _ _ _ 0) in E4|apply (Q_and_false _ _ _ 0) in E4]);
  repeat match goal with
         | E : (_ ∨ _) |- _ => destruct E
         | E : (_ ∧ _) |- _ => destruct E
         end;
  try (exfalso; lra);
  eexists; (split; [reflexivity|]); (split; [reflexivity|]); lra.
Qed.

(** A [Blink] whose four durations are not negative and not all zero.  When
    the durations, their sum, the offset and the time are numbers that
    binary floating point adds and subtracts without rounding, one of the
    four phase tests of [render] passes at this time, so that the delay of
    its redraw request is bound, and the delay is not negative.  So a
    [render] at this time that returns a render of its own asks for a
    redraw after a delay that is not negative, and one that raises does so
    because the image has no render or in the calls that map the
    surface, not for want of a delay. *)
Theorem Blink_phase_covers (image : D) (on off rise set_ high low offset : Q)
    (timebase : bool) (k : nat) (t : Q) :
  (0 <= on)%Q → (0 <= set_)%Q → (0 <= off)%Q → (0 <= rise)%Q →
  (0 < on + set_ + off + rise)%Q →
  forallb (Notions.ticks k) [on; set_; off; rise; on + set_ + off + rise; offset; t]%Q
  = true →
  let b := Blink_init image on off rise set_ high low offset timebase in
  (∃ time delay,
     fmod (offset + t) (b_cycle b) = Some time
     ∧ (Blink_phase b time).1 = Some delay
     ∧ (0 <= delay)%Q)
  ∧ (∀ (can_map : bool) (calls : outcome unit) (height width : Z) (st at_ : Q),
       (if timebase then at_ else st) = t →
       match Blink_render can_map calls b height width st at_ with
       | Return (Mapped _ d) => (0 <= d)%Q
       | Return (Unmapped _) => can_map = false
       | Raise e =>
           e = AttributeError "get_size" ∨ calls = Raise e
           ∨ e = NameError "endian_order"
       end).
Proof.
  intros Hon Hset Hoff Hrise Hpos _ b.
  destruct (Blink_phase_delay b t Hon Hset Hoff Hrise ltac:(done) Hpos)
    as (time & delay & Hm & Hph & Hd).
  split; [by exists time, delay|].
  intros can_map calls height width st at_ Ht.
  unfold Blink_render. change (b_anim_timebase b) with timebase.
  change (b_offset b) with offset in *. rewrite Ht, Hm.
  destruct (Blink_phase b time) as [dl alpha]. simpl in Hph. subst dl.
  destruct can_map; simpl; [|done].
  destruct (render image height width st at_) as [surf|]; [|by left].
  destruct (truthyQ alpha); [|done].
  destruct calls; [by right; right | by right; left].
Qed.



End BlinkFacts.

(** ** Filmstrip *)

Section FilmstripFacts.
Context {I : Type}.
Import Anim Notions.

Lemma Animation_new_delays {D} (args : list (value D)) (timebase : option bool) :
  delays (Animation_new args timebase)
  = (alternate args).2 ++ if Nat.odd (length args) then [Num one_year] else [].
Proof.
  destruct (Nat.odd (length args)) eqn:Hodd.
  - by apply Animation_new_odd.
  - unfold Animation_new. rewrite (Animation_split args 0 [] []). simpl.
    pose proof (alternate_lengths args) as Hl. rewrite Hodd in Hl.
    destruct (Nat.ltb_spec (length (alternate args).2) (length (alternate args).1));
      [lia|]. simpl. by rewrite app_nil_r.
Qed.

Lemma Animation_new_timebase {D} (args : list (value D)) (timebase : option bool) :
  an_anim_timebase (Animation_new args timebase) = default true timebase.
Proof. unfold Animation_new. by destruct (foldl _ _ _). Qed.

Lemma alternate_pairs {A B} (f g : B → A) (l : list B) (rest : list A) :
  alternate (flat_map (λ k, [f k; g k]) l ++ rest)
  = ((f <$> l) ++ (alternate rest).1, (g <$> l) ++ (alternate rest).2).
Proof.
  induction l as [|k l IH]; simpl.
  - by destruct (alternate rest).
  - rewrite IH. done.
Qed.

Section Strip.
Variables (image : I) (width height cols : Z) (delay : Q) (frames : Z).

Lemma Filmstrip_cell_broke (r : Z) (args : list (value (Crop I))) (i : Z)
    (l : list Z) :
  foldl (Filmstrip_cell image width height delay frames r) (args, i, true) l
  = (args, i, true).
Proof. induction l as [|c l IH]; simpl; [done|apply IH]. Qed.

Lemma Filmstrip_cell_flag (r : Z) (acc : list (value (Crop I)) * Z * bool)
    (l : list Z) :
  acc.2 = (acc.1.2 =? frames) →
  (foldl (Filmstrip_cell image width height delay frames r) acc l).2
  = ((foldl (Filmstrip_cell image width height delay frames r) acc l).1.2
     =? frames).
Proof.
  revert acc. induction l as [|c l IH]; intros [[args i] b] Hb; simpl in *; [done|].
  destruct b; apply IH; simpl; done.
Qed.

Lemma Filmstrip_row_cells (acc : list (value (Crop I)) * Z * bool) (r : Z) :
  0 < cols →
  Filmstrip_row image width height cols delay frames acc r
  = foldl (Filmstrip_cell image width height delay frames r) acc (range cols).
Proof.
  intros Hc. destruct acc as [[args i] b]. unfold Filmstrip_row.
  destruct b; [by rewrite Filmstrip_cell_broke|].
  unfold range.
  destruct (Z.to_nat cols) as [|c] eqn:Ec; [lia|].
  cbn [seq fmap list_fmap foldl].
  pose proof (Filmstrip_cell_flag r
                (Filmstrip_cell image width height delay frames r
                   (args, i, false) (Z.of_nat 0))
                (Z.of_nat <$> seq 1 c) eq_refl) as Hflag.
  destruct (foldl _ _ _) as [[args' i'] b']. simpl in Hflag. by rewrite Hflag.
Qed.

Lemma Filmstrip_flat (c : nat) (len s : nat) (args : list (value (Crop I))) :
  (foldl (λ acc k, Filmstrip_cell image width height delay frames
                     (Z.of_nat (k / c)) acc (Z.of_nat (k `mod` c)))
         (args, Z.of_nat s, false) (seq s len)).1.1
  = args ++ flat_map (strip_cell image width height delay c)
                     (seq s (taken frames s len)).
Proof.
  revert s args. induction len as [|len IH]; intros s args.
  - unfold taken. simpl. replace (s + 0)%nat with s by lia.
    destruct (Z.ltb_spec (Z.of_nat s) frames), (Z.leb_spec frames (Z.of_nat s));
      simpl; try lia; by rewrite app_nil_r.
  - cbn [seq foldl]. unfold Filmstrip_cell at 2.
    replace (Z.of_nat s + 1) with (Z.of_nat (S s)) by lia.
    destruct (Z.eqb_spec (Z.of_nat (S s)) frames) as [E|E].
    + assert (∀ (l : list nat) a i,
                foldl (λ acc k, Filmstrip_cell image width height delay frames
                                  (Z.of_nat (k / c)) acc (Z.of_nat (k `mod` c)))
                      (a, i, true) l = (a, i, true)) as Hstay
        by (induction l as [|k l IHl]; intros a i; simpl; [done|apply IHl]).
      rewrite Hstay. cbn [fst]. unfold taken.
      destruct (Z.ltb_spec (Z.of_nat s) frames),
               (Z.leb_spec frames (Z.of_nat (s + S len))); simpl; try lia.
      replace (Z.to_nat frames - s)%nat with 1%nat by lia.
      simpl. by rewrite ?app_nil_r.
    + rewrite IH. rewrite <- app_assoc. f_equal.
      assert (taken frames s (S len) = S (taken frames (S s) len)) as ->.
      { unfold taken. replace (S s + len)%nat with (s + S len)%nat by lia.
        destruct (Z.ltb_spec (Z.of_nat s) frames),
                 (Z.ltb_spec (Z.of_nat (S s)) frames),
                 (Z.leb_spec frames (Z.of_nat (s + S len))); simpl; lia. }
      done.
Qed.

End Strip.

Lemma Filmstrip_args (image : I) (width height cols rows : Z) (delay : Q)
    (frames : Z) :
  0 < cols → 0 ≤ rows →
  let n := Z.to_nat (if (0 <? frames) && (frames <=? cols * rows)
                     then frames else cols * rows) in
  (foldl (Filmstrip_row image width height cols delay frames) ([], 0, false)
         (range rows)).1.1
  = flat_map (λ k, [Img (Filmstrip_frame image width height cols k); Num delay])
             (seq 0 n).
Proof.
  intros Hc Hr n.
  rewrite (foldl_ext_in _ (λ acc r, foldl (Filmstrip_cell image width height delay
                                             frames r) acc (range cols)))
    by (intros; by apply Filmstrip_row_cells).
  rewrite (nested_range_flat_Z
             (Filmstrip_cell image width height delay frames) cols rows).
  change 0 with (Z.of_nat 0) at 1.
  rewrite (Filmstrip_flat image width height delay frames). simpl.
  assert (taken frames 0 (Z.to_nat rows * Z.to_nat cols) = n) as ->.
  { unfold taken, n. simpl.
    replace (Z.of_nat (Z.to_nat rows * Z.to_nat cols)) with (cols * rows) by lia.
    assert (Z.to_nat (cols * rows) = (Z.to_nat rows * Z.to_nat cols)%nat) as Hm
      by (rewrite Z.mul_comm; apply Z2Nat.inj_mul; lia).
    change (Z.of_nat 0) with 0.
    destruct (0 <? frames), (frames <=? cols * rows); simpl; lia. }
  apply flat_map_ext. intros k. unfold Filmstrip_frame, strip_cell.
  by rewrite Nat2Z.inj_mod, Nat2Z.inj_div, Z2Nat.id by lia.
Qed.

(** [Filmstrip] over a grid with at least one cell.  The frames are taken
    from the left to the right of the first row, then of the second, and so
    on: frame [k] is the crop at column [k mod cols] and row [k / cols].
    Their number is [frames] when that lies between 1 and [cols * rows],
    and [cols * rows] otherwise (also when [frames] is zero).  With [loop]
    every frame has the delay given; without it the last frame has the
    delay of one year. *)
Theorem Filmstrip_takes_frames (image : I) (width height cols rows : Z)
    (delay : Q) (frames : option Z) (loop : bool) (timebase : option bool) :
  0 < cols → 0 < rows →
  let f := default (cols * rows) frames in
  let n := Z.to_nat (if (0 <? f) && (f <=? cols * rows) then f else cols * rows) in
  ∃ a, Filmstrip image (width, height) (cols, rows) delay frames loop timebase
       = Return a
       ∧ (0 < n)%nat
       ∧ images a
         = (λ k, Img (Filmstrip_frame image width height cols k)) <$> seq 0 n
       ∧ delays a
         = (if loop then replicate n (Num delay)
            else replicate (n - 1) (Num delay) ++ [Num one_year])
       ∧ an_anim_timebase a = default true timebase.
Proof.
  intros Hc Hr f n. unfold Filmstrip. fold f.
  pose proof (Filmstrip_args image width height cols rows delay f Hc ltac:(lia))
    as Hargs. fold n in Hargs. simpl in Hargs.
  destruct (foldl _ _ (range rows)) as [[args i] b]. simpl in Hargs. subst args.
  assert (0 < n)%nat as Hn.
  { unfold n. destruct (Z.ltb_spec 0 f), (Z.leb_spec f (cols * rows)); simpl; nia. }
  set (img := λ k, Img (Filmstrip_frame image width height cols k)).
  set (dl := λ _ : nat, Num (D:=Crop I) delay).
  assert (∀ l, (dl <$> l) = replicate (length l) (Num delay)) as Hdl
    by (induction l as [|k l IH]; simpl; [done|by rewrite <- IH]).
  destruct loop; simpl.
  - eexists. split; [reflexivity|]. split; [done|].
    rewrite Animation_new_images, Animation_new_delays.
    rewrite <- (app_nil_r (flat_map _ _)).
    rewrite (alternate_pairs img dl), length_app, flat_map_constant_length
      with (c := 2%nat) by done.
    simpl. rewrite !app_nil_r, length_seq, Nat.add_0_r, Nat.mul_comm.
    replace (Nat.odd (2 * n)) with false
      by (symmetry; rewrite Nat.odd_mul; done).
    rewrite app_nil_r, Hdl, length_seq.
    split; [done|]. split; [done|]. apply Animation_new_timebase.
  - destruct n as [|m] eqn:En; [lia|].
    rewrite seq_S, flat_map_app. simpl.
    assert (∀ (l : list (value (Crop I))) x y, l ++ [x; y] = (l ++ [x]) ++ [y])
      as Hsplit by (intros; by rewrite <- app_assoc).
    rewrite Hsplit, pop_snoc. eexists. split; [reflexivity|]. split; [lia|].
    rewrite Animation_new_images, Animation_new_delays.
    rewrite (alternate_pairs img dl), length_app, flat_map_constant_length
      with (c := 2%nat) by done.
    simpl. rewrite length_seq, fmap_app, Nat.sub_0_r, Hdl, length_seq, app_nil_r.
    replace (Nat.odd (m * 2 + 1)) with true
      by (symmetry; rewrite Nat.add_1_r, Nat.odd_succ, Nat.even_mul;
          apply orb_true_r).
    split; [done|]. split; [done|]. apply Animation_new_timebase.
Qed.

(** [Filmstrip] over a grid without cells takes no frame.  With [loop] it
    returns an animation without images; without [loop] it raises an
    IndexError, as there is no delay to take off the end. *)
Theorem Filmstrip_of_no_cells (image : I) (width height cols rows : Z)
    (delay : Q) (frames : option Z) (loop : bool) (timebase : option bool) :
  cols ≤ 0 ∨ rows ≤ 0 →
  Filmstrip image (width, height) (cols, rows) delay frames loop timebase
  = if loop then Return (mkAnimation (default true timebase) [] [])
    else Raise IndexError.
Proof.
  intros Hempty. unfold Filmstrip.
  set (f := default (cols * rows) frames).
  assert (∀ (rs : list Z) (i : Z) (b : bool),
            range cols = [] →
            (foldl (Filmstrip_row image width height cols delay f) ([], i, b) rs).1.1
            = []) as Hrows.
  { intros rs i b Hcols. revert i b. induction rs as [|r rs IH]; intros i b; [done|].
    simpl. destruct b; [apply IH|]. rewrite Hcols. simpl. apply IH. }
  assert ((foldl (Filmstrip_row image width height cols delay f) ([], 0, false)
                 (range rows)).1.1 = []) as Hargs.
  { destruct Hempty as [Hc|Hr].
    - apply Hrows. unfold range. by replace (Z.to_nat cols) with 0%nat by lia.
    - unfold range. by replace (Z.to_nat rows) with 0%nat by lia. }
  destruct (foldl _ _ (range rows)) as [[args i] b]. simpl in Hargs. subst args.
  by destruct loop.
Qed.

End FilmstripFacts.

(** ** More of the state machine *)

Section MachineFacts.
Context {D F T V : Type} `{EqDecision V}.
Import Anim Notions.
Implicit Types (sm : SMAnimation D F T V) (e : Edge T) (r : rng).

Lemma args_state (args : list (arg D F T V)) sm :
  sm_state (foldl arg_add sm args) = sm_state sm
  ∧ sm_initial (foldl arg_add sm args) = sm_initial sm.
Proof.
  revert sm. induction args as [|a args IH]; intros sm; simpl; [done|].
  destruct (IH (arg_add sm a)) as [-> ->]. destruct a as [s|e]; simpl; [done|].
  rewrite Edge_add_iter. induction (Z.to_nat (e_prob e)); simpl; done.
Qed.

Lemma catch_up_settled (fuel : nat) sm r (t : Q) sm' r' :
  catch_up fuel sm r t = Some (sm', r', Return tt) → overdue sm' t = false.
Proof.
  revert sm r. induction fuel as [|fuel IH]; intros sm r; simpl; [done|].
  destruct (overdue sm t) eqn:Eo.
  - destruct (advance sm r) as [[sm1 r1] [[]|x]]; [apply IH|done].
  - by intros [= <- <-].
Qed.

(** A machine whose initial state has no edge leaving it, such as one made
    of states only, cannot be rendered: the first call of [render] raises a
    KeyError, because no state has been entered when the picture of the
    current state is asked for. *)
Theorem SMAnimation_needs_an_edge (initial : string) (args : list (arg D F T V))
    (delay : option Q) (showold timebase : option bool)
    (properties : gmap string V) (fuel : nat) r (w h : Z) (st at_ : Q) :
  let sm := SMAnimation_new initial args delay showold timebase properties in
  sm_edges sm !! initial = None →
  ∃ sm', SMAnimation_render (S fuel) sm r w h st at_ = Some (sm', r, Raise KeyError).
Proof.
  intros sm Hnone.
  assert (sm_edge_start sm = None ∧ sm_edge sm = None ∧ sm_state sm = None
          ∧ sm_initial sm = initial) as (Hes & He & Hs & Hi).
  { unfold sm, SMAnimation_new.
    destruct (args_walk (D:=D) (F:=F) (V:=V) args
                (mkSM delay (default false showold) (default true timebase)
                   properties initial ∅ ∅ None None None None)) as [-> ->].
    destruct (args_state args
                (mkSM delay (default false showold) (default true timebase)
                   properties initial ∅ ∅ None None None None)) as [-> ->].
    done. }
  unfold SMAnimation_render, restart, restart_needed, pick_edge.
  rewrite Hes, Hi. simpl. rewrite Hnone. simpl.
  unfold draw. simpl. rewrite Hs. simpl. by eexists.
Qed.

(** Once the walk has come to a state that no edge leaves, the animation
    rests: a call of [render] at a time that is not before the start of this
    rest shows the picture of that state, asks for no redraw, draws no
    random number and leaves the machine as it is. *)
Theorem SMAnimation_rests_at_end sm r (fuel : nat) (w h : Z) (st at_ es : Q)
    (n : string) (s : State D F V) (im : visual D F T) :
  sm_edge sm = None → sm_edge_start sm = Some es →
  (es <= (if sm_anim_timebase sm then at_ else st))%Q →
  sm_state sm = Some n → sm_states sm !! n = Some s → get_image s = Return im →
  SMAnimation_render (S fuel) sm r w h st at_
  = Some (sm, r, Return (mkShown im (st - es) at_ None)).
Proof.
  intros He Hes Ht Hs Hn Him.
  unfold SMAnimation_render, restart, restart_needed. rewrite Hes.
  assert (Qltb (if sm_anim_timebase sm then at_ else st) es = false) as ->
    by (by apply Qltb_false).
  simpl. unfold overdue. rewrite He. unfold draw. rewrite Hes, He. simpl.
  unfold state_image. by rewrite Hs, Hn, Him.
Qed.

(** With exact arithmetic on the times, the redraw asked for on an edge
    has a delay that is not negative, and is asked of the displayable that
    was rendered. *)
Lemma draw_redraw_due sm sm' r r' (fuel : nat) (w h : Z)
    (st at_ : Q) (sh : shown D F T) (c : visual D F T) (dly : Q) :
  SMAnimation_render fuel sm r w h st at_ = Some (sm', r', Return sh) →
  sh_redraw sh = Some (c, dly) →
  (0 <= dly)%Q ∧ c = sh_visual sh.
Proof.
  unfold SMAnimation_render.
  set (t := if sm_anim_timebase sm then at_ else st).
  destruct (restart sm r t) as [[sm1 r1] [[]|x]]; [|done].
  destruct (catch_up fuel sm1 r1 t) as [[[sm2 r2] [[]|x]]|] eqn:Ec; [|done|done].
  apply catch_up_settled in Ec. unfold overdue in Ec. unfold draw.
  destruct (sm_edge_start sm2) as [es|]; [|done].
  destruct (sm_edge sm2) as [e|].
  - apply Qltb_false in Ec.
    destruct (match cached sm2 with
              | Some c0 => Return c0
              | None => edge_visual sm2 e
              end) as [c0|x]; [|done].
    intros [= <- <- <-]. simpl. intros [= <- <-].
    split; [lra|done].
  - destruct (state_image sm2 (sm_state sm2)); [|done].
    intros [= <- <- <-]. done.
Qed.

(** While the animation is on an edge, the redraw that [render] asks for is
    never in the past: its delay is not negative, and it is asked of the
    displayable that was rendered.  This is for a machine whose delays are
    not negative and, like the start of its current edge and the time of
    the call, numbers that binary floating point adds and subtracts without
    rounding. *)
Theorem SMAnimation_redraw_not_negative sm sm' r r' (fuel k : nat) (w h : Z)
    (st at_ : Q) (sh : shown D F T) (c : visual D F T) (dly : Q) :
  steady 0 sm → ticking k sm = true →
  ticks k (if sm_anim_timebase sm then at_ else st) = true →
  SMAnimation_render fuel sm r w h st at_ = Some (sm', r', Return sh) →
  sh_redraw sh = Some (c, dly) →
  (0 <= dly)%Q ∧ c = sh_visual sh.
Proof. intros _ _ _. apply draw_redraw_due. Qed.

(** When the time of the timebase has gone back behind the start of the
    current edge, [render] begins the walk again from the initial state: it
    does what it would do had the machine never been rendered. *)
Theorem SMAnimation_restarts_on_earlier_time sm r (fuel : nat) (w h : Z)
    (st at_ es : Q) :
  sm_edge_start sm = Some es →
  ((if sm_anim_timebase sm then at_ else st) < es)%Q →
  SMAnimation_render fuel sm r w h st at_
  = SMAnimation_render fuel
      (set_walk sm None (sm_edge_cache sm) (sm_edge sm) (sm_state sm))
      r w h st at_.
Proof.
  intros Hes Ht. unfold SMAnimation_render, restart, restart_needed.
  rewrite Hes. apply Qltb_true in Ht. rewrite Ht. done.
Qed.

Lemma pick_edge_cache sm (k : string) r sm' r' (o : Py.outcome unit) :
  pick_edge sm k r = (sm', r', o) → sm_edge_cache sm' = sm_edge_cache sm.
Proof.
  unfold pick_edge. destruct (sm_edges sm !! k) as [edges|].
  - destruct (choice edges r) as [[e|] r0]; by intros [= <- <- <-].
  - by intros [= <- <- <-].
Qed.

Lemma restart_cache sm r (t : Q) sm' r' (o : Py.outcome unit) :
  cache_of_edge sm → restart sm r t = (sm', r', o) → cache_of_edge sm'.
Proof.
  intros Hinv. unfold restart. destruct (restart_needed sm t).
  - intros Hp%pick_edge_cache. by intros _.
  - by intros [= <- <- <-].
Qed.

Lemma catch_up_cache (fuel : nat) sm r (t : Q) sm' r' (o : Py.outcome unit) :
  cache_of_edge sm → catch_up fuel sm r t = Some (sm', r', o) → cache_of_edge sm'.
Proof.
  revert sm r. induction fuel as [|fuel IH]; intros sm r Hinv; simpl; [done|].
  destruct (overdue sm t) eqn:Eo; [|by intros [= <- <- <-]].
  destruct (advance sm r) as [[sm1 r1] o1] eqn:Ea.
  assert (cache_of_edge sm1) as Hinv1.
  { unfold advance in Ea.
    destruct (sm_edge sm) as [e|], (sm_edge_start sm) as [es|];
      try (by injection Ea as <- <- <-).
    apply pick_edge_cache in Ea. by intros _. }
  destruct o1 as [[]|x]; [by apply IH|]. by intros [= <- <- <-].
Qed.

(** After a call of [render] that returned and drew a displayable that is
    not [None], [get_placement] asks the displayable that was drawn for its
    placement; where the animation rests in a state, this needs the state
    to have a name that is not empty.  The cache of a machine is filled only
    while the walk is on an edge, before the call and after it. *)
Theorem get_placement_follows_render sm sm' r r' (fuel : nat) (w h : Z)
    (st at_ : Q) (sh : shown D F T) :
  cache_of_edge sm →
  SMAnimation_render fuel sm r w h st at_ = Some (sm', r', Return sh) →
  sh_visual sh ≠ VNone →
  (sm_edge sm' = None → sm_state sm' ≠ Some "") →
  get_placement sm' = Return (Some (sh_visual sh)) ∧ cache_of_edge sm'.
Proof.
  intros Hinv. unfold SMAnimation_render.
  set (t := if sm_anim_timebase sm then at_ else st).
  destruct (restart sm r t) as [[sm1 r1] [[]|x]] eqn:Er; [|done].
  apply restart_cache in Er; [|done].
  destruct (catch_up fuel sm1 r1 t) as [[[sm2 r2] [[]|x]]|] eqn:Ec; [|done|done].
  apply catch_up_cache in Ec; [|done].
  unfold draw, get_placement.
  destruct (sm_edge_start sm2) as [es|]; [|done].
  destruct (sm_edge sm2) as [e|] eqn:Ee.
  - destruct (match cached sm2 with
              | Some c0 => Return c0
              | None => edge_visual sm2 e
              end) as [c0|x]; [|done].
    intros [= <- <- <-] Hpic _. unfold cached. simpl in *. split.
    + by destruct c0.
    + intros He. simpl in He. congruence.
  - unfold cached. destruct (state_image sm2 (sm_state sm2)) as [im|x] eqn:Ei; [|done].
    intros [= <- <- <-] Hpic Hn. simpl in *. specialize (Hn Ee).
    rewrite (Ec Ee). split; [|done].
    destruct (sm_state sm2) as [n|]; [|done].
    rewrite bool_decide_eq_false_2 by congruence.
    simpl in Ei. rewrite Ei. by destruct im.
Qed.

(** A machine as the constructor makes it has nothing in its cache and has
    entered no state: its placement is that of the superclass. *)
Theorem get_placement_before_render (initial : string) (args : list (arg D F T V))
    (delay : option Q) (showold timebase : option bool)
    (properties : gmap string V) :
  let sm := SMAnimation_new initial args delay showold timebase properties in
  cache_of_edge sm ∧ get_placement sm = Return None.
Proof.
  intros sm.
  assert (∀ (l : list (arg D F T V)) s0,
            sm_edge_cache (foldl arg_add s0 l) = sm_edge_cache s0) as Hcache.
  { induction l as [|a l IH]; intros s0; simpl; [done|].
    rewrite IH. destruct a as [s|e]; simpl; [done|].
    rewrite Edge_add_iter. induction (Z.to_nat (e_prob e)); simpl; done. }
  assert (sm_edge_cache sm = None) as Hc by (unfold sm, SMAnimation_new; by rewrite Hcache).
  assert (sm_state sm = None) as Hs.
  { unfold sm, SMAnimation_new.
    by destruct (args_state args
                   (mkSM delay (default false showold) (default true timebase)
                      properties initial ∅ ∅ None None None None)) as [-> _]. }
  split; [by intros _|]. unfold get_placement, cached. by rewrite Hc, Hs.
Qed.

End MachineFacts.

(** ** The further properties on the sample objects *)

Section FurtherSamples.
Import Layout Anim Sample Notions.

Lemma close_undoes_open_witness :
  let s1 := (Ui.add 1 true false Ui.initial).1 in
  Ui.add 1 true false Ui.initial = (s1, Return 1%nat)
  ∧ Ui.close s1 = ((Ui.add 1 false false Ui.initial).1, Return tt).
Proof.
  assert (Ui.add 1 true false Ui.initial
          = ((Ui.add 1 true false Ui.initial).1, Return 1%nat)) as H by reflexivity.
  split; [exact H|]. exact (proj1 (close_undoes_open 1 Ui.initial _ 1 H)).
Defined.

Lemma single_use_closes_itself_witness :
  let s1 := (Ui.add 1 true true Ui.initial).1 in
  Ui.add 1 true true Ui.initial = (s1, Return 1%nat)
  ∧ ∃ s2, Ui.add 2 false false s1 = (s2, Return 2%nat)
          ∧ Ui.current_once s2 = false.
Proof.
  assert (Ui.add 1 true true Ui.initial
          = ((Ui.add 1 true true Ui.initial).1, Return 1%nat)) as H by reflexivity.
  split; [exact H|].
  destruct (single_use_closes_itself 1 2 Ui.initial _ 1 H)
    as (s2 & H1 & _ & _ & H2 & _).
  exists s2. split; [exact H1|exact H2].
Defined.

Lemma layer_opens_known_layers_only_witness :
  Ui.is_str (Ui.current Ui.initial) = true
  ∧ ("master" ∈ ["master"; "transient"] ∨ "master" ∈ ["overlay"])
  ∧ ∃ s1, Ui.layer ["master"; "transient"] ["overlay"] "master" Ui.initial
          = (s1, Return tt)
          ∧ Ui.current s1 = Ui.Layer "master".
Proof.
  assert ("master" ∈ ["master"; "transient"] ∨ "master" ∈ ["overlay"]) as Hin
    by (left; constructor).
  split; [reflexivity|]. split; [exact Hin|].
  destruct (layer_opens_known_layers_only ["master"; "transient"] ["overlay"]
              "master" Ui.initial) as (_ & _ & Hopen).
  destruct (Hopen eq_refl Hin) as (s1 & s2 & H1 & H2 & _).
  exists s1. split; [exact H1|exact H2].
Defined.

Lemma menu_is_balanced_witness :
  let s' := (Ui.add 1 false false Ui.initial).1 in
  Ui.add 1 false false Ui.initial = (s', Return 1%nat)
  ∧ ∃ s2, Ui.menu 1 [2; 3]%nat Ui.initial = (s2, Return tt)
          ∧ Ui.current_stack s2 = Ui.current_stack s'.
Proof.
  assert (Ui.add 1 false false Ui.initial
          = ((Ui.add 1 false false Ui.initial).1, Return 1%nat)) as H by reflexivity.
  split; [exact H|].
  destruct (menu_is_balanced 1 [2; 3]%nat Ui.initial) as [Hret _].
  destruct (Hret _ _ H) as (s2 & H1 & _ & H2 & _).
  exists s2. split; [exact H1|exact H2].
Defined.

Lemma interact_needs_empty_stack_witness :
  let s1 := (Ui.add 1 true false Ui.initial).1 in
  Ui.add 1 true false Ui.initial = (s1, Return 1%nat)
  ∧ Ui.interact_guard s1 = Raise (Exception Ui.msg_interact).
Proof.
  assert (Ui.add 1 true false Ui.initial
          = ((Ui.add 1 true false Ui.initial).1, Return 1%nat)) as H by reflexivity.
  split; [exact H|].
  destruct (interact_needs_empty_stack Ui.initial) as (_ & _ & Hadd & _).
  exact (Hadd _ _ _ _ H).
Defined.

Lemma Container_draws_last_asks_first_witness :
  let c' := (Container_render (Container_new [Some 2; Some 3]%nat) 640 480 0 0).1 in
  Container_render (Container_new [Some 2; Some 3]%nat) 640 480 0 0
  = (c', Return (3, 3))
  ∧ Container_event true c' tt 1 1 0 = Return (Some 2%nat).
Proof.
  assert (Container_render (Container_new [Some 2; Some 3]%nat) 640 480 0 0
          = ((Container_render (Container_new [Some 2; Some 3]%nat) 640 480 0 0).1,
             Return (3, 3))) as H by reflexivity.
  split; [exact H|].
  destruct (Container_draws_last_asks_first [Some 2; Some 3]%nat 640 480 0 0 _ _
              tt 1 1 0 H) as (fc & lc & Hh & _ & _ & He).
  injection Hh as <-. exact He.
Defined.

Lemma Fixed_start_times_settle_witness :
  ¬ (1 == 0)%Q
  ∧ start_times (Fixed_render 5 1 fixed_pair 640 480 0 0).1
    = (λ i, Some (or_time 1 i)) <$> start_times fixed_pair.
Proof.
  assert (¬ (1 == 0)%Q) as H by (intros E; discriminate E).
  split; [exact H|].
  exact (proj1 (Fixed_start_times_settle 5 1 fixed_pair 640 480 0 0 H)).
Defined.



Lemma Motion_progress_in_unit_witness :
  let m := Motion_init (D:=nat) (λ p : Q, [p; p]) 2 (Some 1%nat) None false true
                       None false in
  (0 < period m)%Q ∧ (0 <= 3)%Q
  ∧ ∃ p, (0 <= p <= 1)%Q
         ∧ samples (function m) (m_child m) p m 640 480 3 0
             (Motion_render m 640 480 3 0).
Proof.
  set (m := Motion_init (D:=nat) (λ p : Q, [p; p]) 2 (Some 1%nat) None false true
                        None false).
  assert (0 < period m)%Q as H1 by reflexivity.
  assert (0 <= 3)%Q as H2 by (unfold Qle; simpl; lia).
  assert (∀ d, delay m = Some d → repeat m = false → 0 <= d <= period m)%Q as H3.
  { intros d [= <-] _. split; unfold Qle; simpl; lia. }
  split; [exact H1|]. split; [exact H2|].
  exact (Motion_progress_in_unit m 640 480 3 0 H1 H2 H3).
Defined.

Lemma Motion_zero_period_witness :
  let m := Motion_init (D:=nat) (λ p : Q, [p; p]) 0 (Some 1%nat) None true false
                       None false in
  (period m == 0)%Q ∧ (Motion_render m 640 480 1 0).2 = Raise ZeroDivisionError.
Proof.
  set (m := Motion_init (D:=nat) (λ p : Q, [p; p]) 0 (Some 1%nat) None true false
                        None false).
  assert (period m == 0)%Q as H by reflexivity.
  split; [exact H|]. exact (Motion_zero_period m 640 480 1 0 H).
Defined.

Lemma Motion_repeat_is_periodic_witness :
  let m := Motion_init (D:=nat) (λ p : Q, [p; p]) 2 (Some 1%nat) None true false
                       None false in
  (0 < 2)%Q ∧ ticks 1 2 = true ∧ ticks 1 3 = true ∧ (0 <= 3)%Q
  ∧ ∃ v v', (v == v')%Q
            ∧ samples (λ p : Q, [p; p]) (Some 1%nat) v m 640 480 3 0
                (Motion_render m 640 480 3 0)
            ∧ samples (λ p : Q, [p; p]) (Some 1%nat) v' m 640 480 (3 + 2) (0 + 2)
                (Motion_render m 640 480 (3 + 2) (0 + 2))
            ∧ (Motion_render m 640 480 3 0).1.2 = [0%Q]
            ∧ (Motion_render m 640 480 (3 + 2) (0 + 2)).1.2 = [0%Q].
Proof.
  assert (0 < 2)%Q as H by reflexivity.
  assert (ticks 1 2 = true) as Hp by reflexivity.
  assert (ticks 1 3 = true) as Ht by reflexivity.
  assert (0 <= 3)%Q as H0 by (unfold Qle; simpl; lia).
  split; [exact H|]. split; [exact Hp|]. split; [exact Ht|]. split; [exact H0|].
  exact (Motion_repeat_is_periodic (D:=nat) (λ p : Q, [p; p]) 2 (Some 1%nat) None
           false false 1 640 480 3 0 H Hp Ht H0).
Defined.

Lemma Motion_bounce_returns_witness :
  let m := Motion_init (D:=nat) (λ p : Q, [p; p]) 2 (Some 1%nat) None false true
                       None false in
  (0 < 2)%Q ∧ (2 <= 3)%Q
  ∧ ∃ v, (v == 0)%Q
         ∧ samples (λ p : Q, [p; p]) (Some 1%nat) v m 640 480 3 0
             (Motion_render m 640 480 3 0)
         ∧ (Motion_render m 640 480 3 0).1.2 = [].
Proof.
  assert (0 < 2)%Q as H by reflexivity.
  assert (2 <= 3)%Q as H23 by (unfold Qle; simpl; lia).
  split; [exact H|]. split; [exact H23|].
  exact (Motion_bounce_returns (D:=nat) (λ p : Q, [p; p]) 2 (Some 1%nat)
           None false 640 480 3 0 H H23).
Defined.

Lemma Zoom_from_start_to_end_witness :
  let z := Zoom_init (640, 480) [0; 0; 640; 480]%Q [0; 0; 320; 240]%Q 1
                     (Some 1%nat) None in
  after_child z = None ∧ (0 < z_time z)%Q
  ∧ render_child (z_child z) 640 480 2 0 = Return (1, 1)
  ∧ (z_time z <= 2)%Q
  ∧ ∃ rect, Zoom_render z 640 480 2 0 = ([], Return (Scaled (1, 1) rect (640, 480)))
            ∧ Forall2 Qeq rect [0; 0; 320; 240]%Q.
Proof.
  set (z := Zoom_init (640, 480) [0; 0; 640; 480]%Q [0; 0; 320; 240]%Q 1
                      (Some 1%nat) None).
  assert (0 < z_time z)%Q as Ht by reflexivity.
  assert (z_time z <= 2)%Q as Hle by (unfold Qle; simpl; lia).
  assert (render_child (z_child z) 640 480 2 0 = Return (1, 1)) as Hc
    by reflexivity.
  split; [reflexivity|]. split; [exact Ht|]. split; [exact Hc|].
  split; [exact Hle|].
  destruct (Zoom_from_start_to_end z 640 480 2 0 (1, 1) eq_refl Ht Hc)
    as (rect & rd & Hr & _ & Hend & _).
  destruct (Hend Hle) as [Hrd Hrect]. exists rect.
  split; [by rewrite <- Hrd|exact Hrect].
Defined.

Lemma Interpolate_call_values_witness :
  let i := mkInterpolate [PInt 0; PFloat 0] [PInt 10; PFloat 1] in
  Interpolate_init [PInt 0; PStr "left"] [PInt 10; PStr "right"] = Return i
  ∧ Forall small_int [PInt 0; PStr "left"]
  ∧ Forall small_int [PInt 10; PStr "right"]
  ∧ (0 <= 1 <= 1)%Q
  ∧ match Interpolate_call i 1 with
    | Return vs => Forall2 same_value vs [PInt 10; PFloat 1]
    | Raise _ => False
    end.
Proof.
  set (i := mkInterpolate [PInt 0; PFloat 0] [PInt 10; PFloat 1]).
  assert (Interpolate_init [PInt 0; PStr "left"] [PInt 10; PStr "right"] = Return i)
    as H by (by vm_compute).
  assert (Forall small_int [PInt 0; PStr "left"]) as Hs
    by (repeat constructor; simpl; lia).
  assert (Forall small_int [PInt 10; PStr "right"]) as He
    by (repeat constructor; simpl; lia).
  assert (0 <= 1 <= 1)%Q as Ht by (split; unfold Qle; simpl; lia).
  split; [exact H|]. split; [exact Hs|]. split; [exact He|]. split; [exact Ht|].
  pose proof (Interpolate_call_values _ _ i 1 H Hs He Ht) as Hc.
  destruct (Interpolate_call i 1) as [vs|e] eqn:E.
  - destruct Hc as (_ & _ & _ & _ & H1). exact (H1 (Qeq_refl 1)).
  - vm_compute in E. discriminate E.
Defined.

Lemma Animation_always_shows_witness :
  let a := Animation_new [Img 1%nat; Num 1; Img 2%nat; Num 2] None in
  [Img 1%nat; Num 1; Img 2%nat; Num 2] ≠ []
  ∧ sum_delays (delays a) = Return 3%Q ∧ ticks 1 3 = true
  ∧ ticks 1 (1 # 2) = true
  ∧ ∃ img redraw, Animation_render a 640 480 0 (1 # 2) = Return (Some (img, redraw))
                  ∧ (0 < redraw)%Q.
Proof.
  set (args := [Img 1%nat; Num 1%Q; Img 2%nat; Num 2%Q]).
  assert (args ≠ []) as Hne by discriminate.
  assert (∀ v, v ∈ delays (Animation_new args None) →
               ∃ q, v = Num q ∧ (0 < q)%Q ∧ ticks 1 q = true) as Hnum.
  { change (delays (Animation_new args None)) with [Num (D:=nat) 1%Q; Num 2%Q].
    intros v Hv. apply elem_of_cons in Hv as [->|Hv]; [by eexists|].
    apply elem_of_cons in Hv as [->|Hv]; [by eexists|].
    by apply elem_of_nil in Hv. }
  assert (sum_delays (delays (Animation_new args None)) = Return 3%Q) as Hsum
    by reflexivity.
  assert (ticks 1 3 = true) as H3 by reflexivity.
  assert (ticks 1 (1 # 2) = true) as Ht by reflexivity.
  split; [exact Hne|]. split; [exact Hsum|]. split; [exact H3|]. split; [exact Ht|].
  destruct (Animation_always_shows args None 1 3 640 480 0 (1 # 2) Hne Hnum Hsum H3 Ht)
    as (_ & img & rd & Hr & _ & Hrd).
  exists img, rd. split; [exact Hr|exact Hrd].
Defined.


Lemma Blink_phase_covers_witness :
  (0 <= 1 # 2)%Q ∧ (0 < (1 # 2) + (1 # 2) + (1 # 2) + (1 # 2))%Q
  ∧ forallb (ticks 2)
      [1 # 2; 1 # 2; 1 # 2; 1 # 2; (1 # 2) + (1 # 2) + (1 # 2) + (1 # 2); 0; 3 # 4]%Q
    = true
  ∧ match Blink_render true (Return tt) blink_half 480 640 (3 # 4) 0%Q with
    | Return (Mapped _ d) => (0 <= d)%Q
    | Return (Unmapped _) => true = false
    | Raise e =>
        e = AttributeError "get_size" ∨ Return tt = Raise e
        ∨ e = NameError "endian_order"
    end.
Proof.
  assert (0 <= 1 # 2)%Q as H0 by (unfold Qle; simpl; lia).
  assert (0 < (1 # 2) + (1 # 2) + (1 # 2) + (1 # 2))%Q as Hc by reflexivity.
  assert (forallb (ticks 2)
            [1 # 2; 1 # 2; 1 # 2; 1 # 2; (1 # 2) + (1 # 2) + (1 # 2) + (1 # 2); 0;
             3 # 4]%Q = true) as Ht by reflexivity.
  split; [exact H0|]. split; [exact Hc|]. split; [exact Ht|].
  exact (proj2 (Blink_phase_covers 1%nat (1 # 2) (1 # 2) (1 # 2) (1 # 2) 1
                  (1 # 4) 0 false 2 (3 # 4) H0 H0 H0 H0 Hc Ht)
           true (Return tt) 480 640 (3 # 4) 0%Q eq_refl).
Defined.



Lemma Filmstrip_takes_frames_witness :
  0 < 4 ∧ 0 < 2
  ∧ ∃ a, Filmstrip tt (32, 32) (4, 2) (1 # 10) (Some 6) false None = Return a
         ∧ images a
           = (λ k, Img (Filmstrip_frame tt 32 32 4 k)) <$> seq 0 6
         ∧ delays a = replicate 5 (Num (1 # 10)) ++ [Num one_year].
Proof.
  assert (0 < 4) as H4 by lia. assert (0 < 2) as H2 by lia.
  split; [exact H4|]. split; [exact H2|].
  destruct (Filmstrip_takes_frames tt 32 32 4 2 (1 # 10) (Some 6) false None H4 H2)
    as (a & Ha & _ & Hi & Hd & _).
  exists a. split; [exact Ha|]. split; [exact Hi|exact Hd].
Defined.

Lemma Filmstrip_of_no_cells_witness :
  (0 ≤ 0 ∨ 2 ≤ 0)
  ∧ Filmstrip tt (32, 32) (0, 2) (1 # 10) None false None = Raise IndexError.
Proof.
  assert (0 ≤ 0 ∨ 2 ≤ 0) as H by (left; lia).
  split; [exact H|].
  exact (Filmstrip_of_no_cells tt 32 32 0 2 (1 # 10) None false None H).
Defined.

Lemma SMAnimation_needs_an_edge_witness :
  sm_edges still_machine !! "A" = None
  ∧ ∃ sm', SMAnimation_render 1 still_machine first_draw 640 480 0 0
           = Some (sm', first_draw, Raise KeyError).
Proof.
  assert (sm_edges still_machine !! "A" = None) as H by (by vm_compute).
  split; [exact H|].
  exact (SMAnimation_needs_an_edge "A" [AState state_A; AState state_B] None None
           None ∅ 0 first_draw 640 480 0 0 H).
Defined.

Lemma SMAnimation_rests_at_end_witness :
  sm_edge machine_at_rest = None
  ∧ sm_states machine_at_rest !! "B" = Some state_B
  ∧ SMAnimation_render 1 machine_at_rest first_draw 640 480 5 3
    = Some (machine_at_rest, first_draw,
            Return (mkShown (VDisp 2%nat) (5 - 1) 3 None)).
Proof.
  assert (sm_states machine_at_rest !! "B" = Some state_B) as Hs by (by vm_compute).
  assert (1 <= (if sm_anim_timebase machine_at_rest then 3 else 5))%Q as Ht
    by (by vm_compute).
  assert (get_image state_B = Return (VDisp (F:=nat) (T:=nat) 2%nat)) as Hi
    by (by vm_compute).
  split; [reflexivity|]. split; [exact Hs|].
  exact (SMAnimation_rests_at_end machine_at_rest first_draw 0 640 480 5 3 1 "B"
           state_B (VDisp 2%nat) eq_refl eq_refl Ht eq_refl Hs Hi).
Defined.

Lemma SMAnimation_redraw_not_negative_witness :
  steady 0 machine ∧ ticking 1 machine = true ∧ ticks 1 (1 # 2) = true
  ∧ match first_render with
    | Some (_, _, Return sh) =>
        match sh_redraw sh with
        | Some (_, dly) => (0 <= dly)%Q
        | None => False
        end
    | _ => False
    end.
Proof.
  assert (steady 0 machine) as Hs.
  { apply (SMAnimation_new_steady (D:=nat) (F:=nat) (V:=nat) 0 "A").
    intros e He.
    repeat (apply elem_of_cons in He as [He|He];
            [by simplify_eq; unfold Qle; simpl; lia|]).
    by apply elem_of_nil in He. }
  assert (ticking 1 machine = true) as Hk by (by vm_compute).
  assert (ticks 1 (1 # 2) = true) as Ht by reflexivity.
  split; [exact Hs|]. split; [exact Hk|]. split; [exact Ht|].
  unfold first_render.
  destruct (SMAnimation_render 5 machine first_draw 640 480 0 (1 # 2))
    as [[[sm' r'] [sh|e]]|] eqn:E.
  - destruct (sh_redraw sh) as [[c dly]|] eqn:Er.
    + exact (proj1 (SMAnimation_redraw_not_negative machine sm' first_draw r' 5 1
                      640 480 0 (1 # 2) sh c dly Hs Hk Ht E Er)).
    + vm_compute in E. injection E as _ _ <-. discriminate Er.
  - vm_compute in E. discriminate E.
  - vm_compute in E. discriminate E.
Defined.

Lemma get_placement_follows_render_witness :
  cache_of_edge machine
  ∧ match first_render with
    | Some (sm', _, Return sh) =>
        sh_visual sh ≠ VNone
        ∧ get_placement sm' = Return (Some (sh_visual sh))
    | _ => False
    end.
Proof.
  assert (cache_of_edge machine) as Hinv by (intros _; by vm_compute).
  split; [exact Hinv|]. unfold first_render.
  destruct (SMAnimation_render 5 machine first_draw 640 480 0 (1 # 2))
    as [[[sm' r'] [sh|e]]|] eqn:E.
  - assert (sh_visual sh ≠ VNone) as Hpic.
    { intros Hv. vm_compute in E. injection E as _ _ <-. discriminate Hv. }
    split; [exact Hpic|].
    refine (proj1 (get_placement_follows_render machine sm' first_draw r' 5
                     640 480 0 (1 # 2) sh Hinv E Hpic _)).
    intros He. exfalso. vm_compute in E. injection E as <- _ _. discriminate He.
  - vm_compute in E. discriminate E.
  - vm_compute in E. discriminate E.
Defined.

End FurtherSamples.
